(** * Locale key synchronisation (sync_all_keys.py)

    A shallow embedding of [apps/dokploy/public/locales/sync_all_keys.py]:
    the table of display names, the JSON loader and serialiser it calls,
    its format-preserving [dump_json], the per-filename loop [sync_file]
    and [main].

    Python text ([str]) is a list of Unicode code points.  A file on disk is
    identified with its decoded text: the script opens every file with
    [encoding="utf-8"], and UTF-8 is a bijection between code-point
    sequences without surrogates and their byte encodings.  The text of a
    file is the text [read()] returns; what the script writes has no
    carriage return, and is read back as it was written.

    The script is embedded twice.  [load_json], [sync_file] and [main] work
    on mappings: a document whose top level is not an object is refused
    when it is loaded.  [load_json_any], [sync_file_any] and [main_any]
    take what [json.load] returns whatever its shape, as the script does,
    with the exceptions Python raises on it; on trees whose JSON files
    hold objects the two run alike ([main_any_same]).

    Left out: a float is kept as the literal it was read from, where Python
    keeps the binary value (a comparison of a float with a number is left
    unmodelled in the second embedding); the interpreter's limits on the
    digits of an integer and on the depth of recursion. *)

From stdpp Require Import gmap list sorting strings.
From Stdlib Require Import NArith ZArith DecimalN DecimalPos.

Local Open Scope N_scope.
Set Warnings "-register-all,-clear-no-such-hyp".

(** ** Text *)

Abbreviation str := (list N).

(** ASCII literals of the source, as code points. *)
Definition txt (s : string) : str := Ascii.N_of_ascii <$> String.list_ascii_of_string s.

Definition c_tab : N := 9.
Definition c_lf : N := 10.
Definition c_cr : N := 13.
Definition c_space : N := 32.
Definition c_quote : N := 34.
Definition c_backslash : N := 92.

(** Test data is written with ['] for the JSON double quote. *)
Definition jsq (s : string) : str :=
  (λ c, if c =? 39 then c_quote else c) <$> txt s.

(** [s.startswith(p)], returning the remainder. *)
Fixpoint strip_prefix (p s : str) : option str :=
  match p, s with
  | [], _ => Some s
  | a :: p', b :: s' => if a =? b then strip_prefix p' s' else None
  | _ :: _, [] => None
  end.

Definition startswith (p s : str) : bool :=
  match strip_prefix p s with Some _ => true | None => false end.

(** Python compares [str] values lexicographically by code point. *)
Fixpoint str_leb (a b : str) : bool :=
  match a, b with
  | [], _ => true
  | _ :: _, [] => false
  | x :: a', y :: b' =>
      if x <? y then true else if x =? y then str_leb a' b' else false
  end.

Definition str_le (a b : str) : Prop := str_leb a b = true.

Global Instance str_le_dec : RelDecision str_le.
Proof. intros a b. unfold str_le. apply _. Defined.

(** ** JSON values and Python dictionaries *)

(** A float is kept as the literal it was read from: sign, integer part,
    digits of the fraction (none: no fraction), and the letter, sign and
    digits of the exponent (no digits: no exponent).  Python keeps the
    binary value and writes it back in the shortest form that reads as the
    same value; here the literal itself is written back. *)
Inductive exp_sign : Type := ExpBare | ExpPlus | ExpMinus.

Record float_literal : Type := FloatLiteral {
  f_neg : bool;
  f_int : N;
  f_frac : Decimal.uint;
  f_upper : bool;
  f_sign : exp_sign;
  f_exp : Decimal.uint
}.

Inductive pyfloat : Type :=
  | Finite (l : float_literal)
  | NaN
  | Infinity (neg : bool).

(** The values [json.load] builds.  A [dict] keeps insertion order, so an
    object is an association list; Python keeps its keys pairwise distinct. *)
Inductive json : Type :=
  | JNull
  | JBool (b : bool)
  | JInt (z : Z)
  | JFloat (f : pyfloat)
  | JStr (s : str)
  | JArr (l : list json)
  | JObj (d : list (str * json)).

Abbreviation dict := (list (str * json)).

Definition dict_keys (d : dict) : list str := d.*1.

(** What makes an association list a Python [dict]. *)
Definition is_dict (d : dict) : Prop := NoDup (dict_keys d).

(** [k in d] *)
Fixpoint dict_contains (k : str) (d : dict) : bool :=
  match d with
  | [] => false
  | (k', _) :: d' => if decide (k = k') then true else dict_contains k d'
  end.

(** [d[k]]; [None] stands for [KeyError]. *)
Fixpoint dict_get (d : dict) (k : str) : option json :=
  match d with
  | [] => None
  | (k', v) :: d' => if decide (k = k') then Some v else dict_get d' k
  end.

(** [d[k] = v]: an existing key keeps its position, a new one is appended. *)
Fixpoint dict_setitem (k : str) (v : json) (d : dict) : dict :=
  match d with
  | [] => [(k, v)]
  | (k', v') :: d' =>
      if decide (k = k') then (k', v) :: d' else (k', v') :: dict_setitem k v d'
  end.

(** [d.update(other)] *)
Definition dict_update (d other : dict) : dict :=
  foldl (λ acc kv, dict_setitem kv.1 kv.2 acc) d other.

(** [dict(pairs)], the way [json.load] builds an object from its members. *)
Definition dict_of_pairs (pairs : list (str * json)) : dict :=
  dict_update [] pairs.

(** Line 103:
    [missing_keys = {k: en_data[k] for k in en_data if k not in lang_data}] *)
Definition missing_keys (en_data lang_data : dict) : dict :=
  foldl (λ acc k,
           if dict_contains k lang_data then acc
           else match dict_get en_data k with
                | Some v => dict_setitem k v acc
                | None => acc
                end)
        [] (dict_keys en_data).

(** Lines 106-108: the mapping handed to [dump_json] when keys are missing. *)
Definition merged (en_data lang_data : dict) : dict :=
  dict_update lang_data (missing_keys en_data lang_data).

(** [sep.join(parts)] *)
Fixpoint join (sep : str) (parts : list str) : str :=
  match parts with
  | [] => []
  | [p] => p
  | p :: ps => p ++ sep ++ join sep ps
  end.

(** ** [json.dumps(data, ensure_ascii=False, indent=4)] *)

Definition hex_digit (n : N) : N := if n <? 10 then 48 + n else 87 + n.

(** The replacement table [ESCAPE_DCT] of [json.encoder]: the escapes of
    [py_encode_basestring], which leaves every other character as it is. *)
Definition escape_char (c : N) : str :=
  if c =? c_backslash then [c_backslash; c_backslash]
  else if c =? c_quote then [c_backslash; c_quote]
  else if c =? 8 then txt "\b"
  else if c =? 12 then txt "\f"
  else if c =? c_lf then txt "\n"
  else if c =? c_cr then txt "\r"
  else if c =? c_tab then txt "\t"
  else if c <? 32 then txt "\u00" ++ [hex_digit (c / 16); hex_digit (c mod 16)]
  else [c].

Definition encode_basestring (s : str) : str :=
  c_quote :: List.concat (escape_char <$> s) ++ [c_quote].

Fixpoint chars_of_uint (d : Decimal.uint) : str :=
  match d with
  | Decimal.Nil => []
  | Decimal.D0 d => 48 :: chars_of_uint d
  | Decimal.D1 d => 49 :: chars_of_uint d
  | Decimal.D2 d => 50 :: chars_of_uint d
  | Decimal.D3 d => 51 :: chars_of_uint d
  | Decimal.D4 d => 52 :: chars_of_uint d
  | Decimal.D5 d => 53 :: chars_of_uint d
  | Decimal.D6 d => 54 :: chars_of_uint d
  | Decimal.D7 d => 55 :: chars_of_uint d
  | Decimal.D8 d => 56 :: chars_of_uint d
  | Decimal.D9 d => 57 :: chars_of_uint d
  end.

(** [int.__repr__] *)
Definition int_repr (z : Z) : str :=
  match z with
  | Z0 => txt "0"
  | Zpos p => chars_of_uint (Pos.to_uint p)
  | Zneg p => 45 :: chars_of_uint (Pos.to_uint p)
  end.

Definition exp_sign_chars (sg : exp_sign) : str :=
  match sg with
  | ExpBare => []
  | ExpPlus => [43]
  | ExpMinus => [45]
  end.

Definition frac_chars (d : Decimal.uint) : str :=
  match d with
  | Decimal.Nil => []
  | _ => 46 :: chars_of_uint d
  end.

Definition exp_chars (upper : bool) (sg : exp_sign) (d : Decimal.uint) : str :=
  match d with
  | Decimal.Nil => []
  | _ => (if upper then 69 else 101) :: exp_sign_chars sg ++ chars_of_uint d
  end.

(** The text of a float: its literal; [NaN], [Infinity] and [-Infinity] as
    [float.__repr__] has them in [json.encoder]. *)
Definition float_repr (f : pyfloat) : str :=
  match f with
  | Finite l =>
      (if f_neg l then [45] else [])
      ++ chars_of_uint (N.to_uint (f_int l))
      ++ frac_chars (f_frac l)
      ++ exp_chars (f_upper l) (f_sign l) (f_exp l)
  | NaN => txt "NaN"
  | Infinity false => txt "Infinity"
  | Infinity true => txt "-Infinity"
  end.

(** ['\n' + indent * level] with [indent = ' ' * 4] *)
Definition newline_indent (level : nat) : str :=
  c_lf :: replicate (4 * level) c_space.

(** [_iterencode] of [json.encoder], its chunks concatenated. *)
Fixpoint iterencode (level : nat) (v : json) : str :=
  match v with
  | JNull => txt "null"
  | JBool true => txt "true"
  | JBool false => txt "false"
  | JInt z => int_repr z
  | JFloat f => float_repr f
  | JStr s => encode_basestring s
  | JArr l =>
      match l with
      | [] => txt "[]"
      | _ :: _ =>
          txt "[" ++ newline_indent (S level)
          ++ join (txt "," ++ newline_indent (S level))
                  (List.map (iterencode (S level)) l)
          ++ newline_indent level ++ txt "]"
      end
  | JObj d =>
      match d with
      | [] => txt "{}"
      | _ :: _ =>
          txt "{" ++ newline_indent (S level)
          ++ join (txt "," ++ newline_indent (S level))
                  (List.map (λ kv, encode_basestring kv.1 ++ txt ": "
                                   ++ iterencode (S level) kv.2) d)
          ++ newline_indent level ++ txt "}"
      end
  end.

Definition json_dumps (data : dict) : str := iterencode 0 (JObj data).

(** ** [json.loads] *)

(** The scanner's [WHITESPACE]: space, tab, line feed, carriage return. *)
Definition is_ws (c : N) : bool :=
  (c =? c_space) || (c =? c_tab) || (c =? c_lf) || (c =? c_cr).

Fixpoint skip_ws (s : str) : str :=
  match s with
  | c :: r => if is_ws c then skip_ws r else s
  | [] => []
  end.

Definition is_digit (c : N) : bool := (48 <=? c) && (c <=? 57).

Definition hex_val (c : N) : option N :=
  if is_digit c then Some (c - 48)
  else if (97 <=? c) && (c <=? 102) then Some (c - 87)
  else if (65 <=? c) && (c <=? 70) then Some (c - 55)
  else None.

(** The four hexadecimal digits of a [\uXXXX] escape. *)
Definition hex4 (a b c d : N) : option N :=
  match hex_val a, hex_val b, hex_val c, hex_val d with
  | Some x, Some y, Some z, Some w => Some (((x * 16 + y) * 16 + z) * 16 + w)
  | _, _, _, _ => None
  end.

Definition is_high_surrogate (c : N) : bool := (0xD800 <=? c) && (c <=? 0xDBFF).
Definition is_low_surrogate (c : N) : bool := (0xDC00 <=? c) && (c <=? 0xDFFF).
Definition is_surrogate (c : N) : bool := (0xD800 <=? c) && (c <=? 0xDFFF).

Definition join_surrogates (hi lo : N) : N :=
  0x10000 + ((hi - 0xD800) * 0x400 + (lo - 0xDC00)).

(** The [BACKSLASH] table of [json.decoder]. *)
Definition unescape (e : N) : option N :=
  if e =? c_quote then Some c_quote
  else if e =? c_backslash then Some c_backslash
  else if e =? 47 then Some 47
  else if e =? 98 then Some 8
  else if e =? 102 then Some 12
  else if e =? 110 then Some c_lf
  else if e =? 114 then Some c_cr
  else if e =? 116 then Some c_tab
  else None.

Definition scons (c : N) (r : option (str * str)) : option (str * str) :=
  match r with
  | Some (t, rest) => Some (c :: t, rest)
  | None => None
  end.

(** [scanstring(s, end, strict=True)], entered after the opening quote:
    the decoded string and the text after the closing quote. *)
Fixpoint scanstring (s : str) : option (str * str) :=
  match s with
  | [] => None
  | c :: r =>
      if c =? c_quote then Some ([], r)
      else if c =? c_backslash then
        match r with
        | [] => None
        | e :: r1 =>
            if e =? 117 then
              match r1 with
              | h1 :: h2 :: h3 :: h4 :: r2 =>
                  match hex4 h1 h2 h3 h4 with
                  | None => None
                  | Some uni =>
                      if is_high_surrogate uni then
                        match r2 with
                        | b :: u :: l1 :: l2 :: l3 :: l4 :: r3 =>
                            if (b =? c_backslash) && (u =? 117) then
                              match hex4 l1 l2 l3 l4 with
                              | None => None
                              | Some uni2 =>
                                  if is_low_surrogate uni2
                                  then scons (join_surrogates uni uni2)
                                             (scanstring r3)
                                  else scons uni (scanstring r2)
                              end
                            else scons uni (scanstring r2)
                        | _ => scons uni (scanstring r2)
                        end
                      else scons uni (scanstring r2)
                  end
              | _ => None
              end
            else
              match unescape e with
              | Some c' => scons c' (scanstring r1)
              | None => None
              end
        end
      else if c <? 32 then None
      else scons c (scanstring r)
  end.

Definition digit_cons (c : N) (d : Decimal.uint) : Decimal.uint :=
  if c =? 48 then Decimal.D0 d else if c =? 49 then Decimal.D1 d
  else if c =? 50 then Decimal.D2 d else if c =? 51 then Decimal.D3 d
  else if c =? 52 then Decimal.D4 d else if c =? 53 then Decimal.D5 d
  else if c =? 54 then Decimal.D6 d else if c =? 55 then Decimal.D7 d
  else if c =? 56 then Decimal.D8 d else Decimal.D9 d.

(** The longest run of decimal digits at the head of [s]. *)
Fixpoint take_digits (s : str) : Decimal.uint * str :=
  match s with
  | c :: r =>
      if is_digit c
      then let '(d, rest) := take_digits r in (digit_cons c d, rest)
      else (Decimal.Nil, s)
  | [] => (Decimal.Nil, [])
  end.

(** The fraction of [NUMBER_RE], [(\.\d+)?]: its digits, none when there is
    no fraction. *)
Definition scan_frac (s : str) : Decimal.uint * str :=
  match s with
  | c :: r =>
      if c =? 46 then
        match r with
        | d :: _ => if is_digit d then take_digits r else (Decimal.Nil, s)
        | [] => (Decimal.Nil, s)
        end
      else (Decimal.Nil, s)
  | [] => (Decimal.Nil, s)
  end.

(** The exponent of [NUMBER_RE], [([eE][-+]?\d+)?]: letter, sign and digits,
    no digits when there is no exponent. *)
Definition scan_exp (s : str) : bool * exp_sign * Decimal.uint * str :=
  let none := (false, ExpBare, Decimal.Nil, s) in
  match s with
  | e :: r =>
      if (e =? 101) || (e =? 69) then
        match r with
        | c :: r' =>
            if is_digit c then
              let '(d, rest) := take_digits r in (e =? 69, ExpBare, d, rest)
            else if (c =? 43) || (c =? 45) then
              match r' with
              | c2 :: _ =>
                  if is_digit c2 then
                    let '(d, rest) := take_digits r' in
                    (e =? 69, if c =? 43 then ExpPlus else ExpMinus, d, rest)
                  else none
              | [] => none
              end
            else none
        | [] => none
        end
      else none
  | [] => none
  end.

(** [match_number]: [NUMBER_RE] is an optional minus, then [0] or a digit
    run that does not start with [0], then the optional fraction and
    exponent; with neither the number is an [int], else a [float]. *)
Definition scan_number (s : str) : option (json * str) :=
  let '(neg, s1) :=
    match s with
    | c :: r => if c =? 45 then (true, r) else (false, s)
    | [] => (false, s)
    end in
  match s1 with
  | c :: r =>
      if is_digit c then
        let '(d, rest) :=
          if c =? 48 then (Decimal.D0 Decimal.Nil, r) else take_digits s1 in
        let '(frac, rest) := scan_frac rest in
        let '(upper, sg, ed, rest) := scan_exp rest in
        let n := N.of_uint d in
        Some (match frac, ed with
              | Decimal.Nil, Decimal.Nil =>
                  JInt (if neg then - Z.of_N n else Z.of_N n)%Z
              | _, _ => JFloat (Finite (FloatLiteral neg n frac upper sg ed))
              end, rest)
      else None
  | [] => None
  end.

(** The constants [scan_once] tries after [match_number]. *)
Definition scan_constant (s : str) : option (json * str) :=
  match strip_prefix (txt "NaN") s with
  | Some rest => Some (JFloat NaN, rest)
  | None =>
  match strip_prefix (txt "Infinity") s with
  | Some rest => Some (JFloat (Infinity false), rest)
  | None =>
  match strip_prefix (txt "-Infinity") s with
  | Some rest => Some (JFloat (Infinity true), rest)
  | None => None
  end end end.

(** [scan_once], [JSONObject] and [JSONArray] of [json.scanner] and
    [json.decoder].  Every call consumes a character before it recurses, so
    fuel above the length of the input is never used up.
    [object_pairs] is entered after the opening quote of a key,
    [array_items] at the first character of an element. *)
Fixpoint scan_once (fuel : nat) (s : str) : option (json * str) :=
  match fuel with
  | O => None
  | S n =>
      match s with
      | [] => None
      | c :: r =>
          if c =? c_quote then
            match scanstring r with
            | Some (t, rest) => Some (JStr t, rest)
            | None => None
            end
          else if c =? 123 then
            match skip_ws r with
            | c' :: r' =>
                if c' =? 125 then Some (JObj [], r')
                else if c' =? c_quote then
                  match object_pairs n r' with
                  | Some (ps, rest) => Some (JObj (dict_of_pairs ps), rest)
                  | None => None
                  end
                else None
            | [] => None
            end
          else if c =? 91 then
            match skip_ws r with
            | c' :: r' =>
                if c' =? 93 then Some (JArr [], r')
                else
                  match array_items n (c' :: r') with
                  | Some (vs, rest) => Some (JArr vs, rest)
                  | None => None
                  end
            | [] => None
            end
          else
            match strip_prefix (txt "null") s with
            | Some rest => Some (JNull, rest)
            | None =>
            match strip_prefix (txt "true") s with
            | Some rest => Some (JBool true, rest)
            | None =>
            match strip_prefix (txt "false") s with
            | Some rest => Some (JBool false, rest)
            | None =>
            match scan_number s with
            | Some r => Some r
            | None => scan_constant s
            end end end end
      end
  end
with object_pairs (fuel : nat) (s : str) : option (list (str * json) * str) :=
  match fuel with
  | O => None
  | S n =>
      match scanstring s with
      | None => None
      | Some (key, s1) =>
          match skip_ws s1 with
          | c :: s2 =>
              if c =? 58 then
                match scan_once n (skip_ws s2) with
                | None => None
                | Some (v, s3) =>
                    match skip_ws s3 with
                    | c' :: s4 =>
                        if c' =? 125 then Some ([(key, v)], s4)
                        else if c' =? 44 then
                          match skip_ws s4 with
                          | q :: s5 =>
                              if q =? c_quote then
                                match object_pairs n s5 with
                                | Some (ps, rest) => Some ((key, v) :: ps, rest)
                                | None => None
                                end
                              else None
                          | [] => None
                          end
                        else None
                    | [] => None
                    end
                end
              else None
          | [] => None
          end
      end
  end
with array_items (fuel : nat) (s : str) : option (list json * str) :=
  match fuel with
  | O => None
  | S n =>
      match scan_once n s with
      | None => None
      | Some (v, s1) =>
          match skip_ws s1 with
          | c :: s2 =>
              if c =? 93 then Some ([v], s2)
              else if c =? 44 then
                match array_items n (skip_ws s2) with
                | Some (vs, rest) => Some (v :: vs, rest)
                | None => None
                end
              else None
          | [] => None
          end
      end
  end.

(** [JSONDecoder.decode]: leading whitespace, one value, trailing
    whitespace, end of text.  [None] stands for [JSONDecodeError]. *)
Definition json_loads (s : str) : option json :=
  match scan_once (S (length s)) (skip_ws s) with
  | Some (v, rest) =>
      match skip_ws rest with
      | [] => Some v
      | _ :: _ => None
      end
  | None => None
  end.

(** ** The [str] methods of [dump_json] *)

(** [s.split(sep)] for a one-character separator. *)
Fixpoint split (sep : N) (s : str) : list str :=
  match s with
  | [] => [[]]
  | c :: r =>
      if c =? sep then [] :: split sep r
      else match split sep r with
           | l :: ls => (c :: l) :: ls
           | [] => [[c]]
           end
  end.

(** [s.count(old)] for a non-empty [old]: occurrences are found from the
    left and do not overlap; [skip] characters of the last one are still
    to be passed. *)
Fixpoint count_from (old : str) (skip : nat) (s : str) : nat :=
  match s with
  | [] => O
  | _ :: r =>
      match skip with
      | S k => count_from old k r
      | O =>
          if startswith old s
          then S (count_from old (length old - 1) r)
          else count_from old 0 r
      end
  end.

Definition str_count (old s : str) : nat := count_from old 0 s.

(** [s.replace(old, new, n)] for a non-empty [old] and [n >= 0]: the first
    [n] occurrences, found as [count] finds them. *)
Fixpoint replace_from (old new : str) (skip n : nat) (s : str) : str :=
  match s with
  | [] => []
  | c :: r =>
      match skip with
      | S k => replace_from old new k n r
      | O =>
          match n with
          | O => s
          | S n' =>
              if startswith old s
              then new ++ replace_from old new (length old - 1) n' r
              else c :: replace_from old new 0 n r
          end
      end
  end.

Definition str_replace (old new : str) (n : nat) (s : str) : str :=
  replace_from old new 0 n s.

(** [str.isspace] for one character. *)
Definition py_isspace (c : N) : bool :=
  ((9 <=? c) && (c <=? 13)) || ((28 <=? c) && (c <=? 32))
  || (c =? 0x85) || (c =? 0xA0) || (c =? 0x1680)
  || ((0x2000 <=? c) && (c <=? 0x200A))
  || (c =? 0x2028) || (c =? 0x2029) || (c =? 0x202F) || (c =? 0x205F)
  || (c =? 0x3000).

Fixpoint lstrip (s : str) : str :=
  match s with
  | c :: r => if py_isspace c then lstrip r else s
  | [] => []
  end.

(** [s.strip()] *)
Definition strip (s : str) : str := reverse (lstrip (reverse (lstrip s))).

(** Truth value of a Python sequence. *)
Definition truthy {A} (l : list A) : bool :=
  match l with [] => false | _ :: _ => true end.

Definition four_spaces : str := txt "    ".

(** Line 63: [line.replace("    ", "\t", line.count("    ") // 4)
    if line.strip() else line] *)
Definition retab_line (line : str) : str :=
  if truthy (strip line)
  then str_replace four_spaces [c_tab] (str_count four_spaces line / 4)%nat line
  else line.

(** Line 55: [indent = "\t" if "\t" in original_content[:100] else "    "] *)
Definition detect_indent (original_content : str) : str :=
  if bool_decide (c_tab ∈ take 100 original_content) then [c_tab]
  else four_spaces.

(** Lines 55-68 of [dump_json]: the text written, from the text read. *)
Definition dump_text (original_content : str) (data : dict) : str :=
  let indent := detect_indent original_content in
  let formatted := json_dumps data in
  let formatted :=
    if bool_decide (indent = [c_tab])
    then join [c_lf] (retab_line <$> split c_lf formatted)
    else formatted in
  formatted ++ [c_lf].

(** ** The directory tree, exceptions and output *)

(** The tree under [base_dir]: its immediate subdirectories in the order
    [iterdir] yields them, which the operating system chooses, and the
    regular files [base_dir/<directory>/<filename>]. *)
Record tree : Type := Tree {
  subdirs : list str;
  files : gmap (str * str) str
}.

Inductive exn : Type :=
  | JSONDecodeError
  | NotAnObject
  | FileNotFoundError
  | UnicodeEncodeError.

(** The lines the script prints.  The display name [get_lang_name] looks up
    is a function of the locale code and is left out. *)
Inductive event : Type :=
  | EnMissing (filename : str)
  | Header (filename : str) (nkeys : nat)
  | NotFound (lang_code filename : str)
  | Added (lang_code : str) (n : nat)
  | Complete (lang_code : str)
  | Summary (total_common total_settings : nat).

Inductive outcome (A : Type) : Type :=
  | Return (a : A)
  | Raise (e : exn).
Arguments Return {A} a.
Arguments Raise {A} e.

(** A computation reads and writes the tree, prints, and returns or
    raises.  Nothing in the script catches an exception; what was written
    and printed before one stays. *)
Definition M (A : Type) : Type := tree → tree * list event * outcome A.

Definition ret {A} (a : A) : M A := λ t, (t, [], Return a).

Definition raise {A} (e : exn) : M A := λ t, (t, [], Raise e).

Definition bind {A B} (m : M A) (k : A → M B) : M B :=
  λ t, match m t with
       | (t1, o1, Return a) =>
           let '(t2, o2, r) := k a t1 in (t2, o1 ++ o2, r)
       | (t1, o1, Raise e) => (t1, o1, Raise e)
       end.

Notation "x <- m ;; k" := (bind m (λ x, k))
  (at level 100, m at next level, right associativity).
Notation "m ;;; k" := (bind m (λ _, k))
  (at level 100, right associativity).

Definition print (e : event) : M unit := λ t, (t, [e], Return tt).

(** [path.exists()] *)
Definition path_exists (p : str * str) : M bool :=
  λ t, (t, [], Return (bool_decide (is_Some (files t !! p)))).

(** [f.read()] on a file opened for reading. *)
Definition read_text (p : str * str) : M str :=
  λ t, match files t !! p with
       | Some s => (t, [], Return s)
       | None => (t, [], Raise FileNotFoundError)
       end.

(** [f.write(s)] on a file opened with ["w"]: opening truncates the file;
    the UTF-8 encoder then refuses a surrogate code point. *)
Definition write_text (p : str * str) (s : str) : M unit :=
  λ t, if forallb (λ c, negb (is_surrogate c)) s
       then (Tree (subdirs t) (<[p := s]> (files t)), [], Return tt)
       else (Tree (subdirs t) (<[p := []]> (files t)), [], Raise UnicodeEncodeError).

(** [p for p in base_dir.iterdir() if p.is_dir()], as names. *)
Definition iterdir_dirs : M (list str) := λ t, (t, [], Return (subdirs t)).

(** [sorted] on sibling paths: by name, ascending. *)
Definition sorted (l : list str) : list str := merge_sort str_le l.

(** [for x in l: acc = body(acc, x)] *)
Fixpoint for_each {A B} (body : B → A → M B) (acc : B) (l : list A) : M B :=
  match l with
  | [] => ret acc
  | x :: l' => acc' <- body acc x ;; for_each body acc' l'
  end.

(** ** The script *)

(** Lines 12-34: the display names of the locales, as code points. *)
Definition LANG_NAMES : list (str * str) :=
  [(txt "az", [0x963F; 0x585E; 0x62DC; 0x7586; 0x8BED]);
   (txt "de", [0x5FB7; 0x8BED]);
   (txt "en", [0x82F1; 0x8BED]);
   (txt "es", [0x897F; 0x73ED; 0x7259; 0x8BED]);
   (txt "fa", [0x6CE2; 0x65AF; 0x8BED]);
   (txt "fr", [0x6CD5; 0x8BED]);
   (txt "id", [0x5370; 0x5C3C; 0x8BED]);
   (txt "it", [0x610F; 0x5927; 0x5229; 0x8BED]);
   (txt "ja", [0x65E5; 0x8BED]);
   (txt "ko", [0x97E9; 0x8BED]);
   (txt "kz", [0x54C8; 0x8428; 0x514B; 0x8BED]);
   (txt "ml", [0x9A6C; 0x62C9; 0x96C5; 0x62C9; 0x59C6; 0x8BED]);
   (txt "nl", [0x8377; 0x5170; 0x8BED]);
   (txt "no", [0x632A; 0x5A01; 0x8BED]);
   (txt "pl", [0x6CE2; 0x5170; 0x8BED]);
   (txt "pt-br", [0x5DF4; 0x897F; 0x8461; 0x8404; 0x7259; 0x8BED]);
   (txt "ru", [0x4FC4; 0x8BED]);
   (txt "tr", [0x571F; 0x8033; 0x5176; 0x8BED]);
   (txt "uk", [0x4E4C; 0x514B; 0x5170; 0x8BED]);
   (txt "zh-Hans", [0x7B80; 0x4F53; 0x4E2D; 0x6587]);
   (txt "zh-Hant", [0x7E41; 0x4F53; 0x4E2D; 0x6587])].

(** [d.get(k, default)] on a table of strings. *)
Fixpoint names_get (d : list (str * str)) (k default : str) : str :=
  match d with
  | [] => default
  | (k', v) :: d' => if decide (k = k') then v else names_get d' k default
  end.

(** Lines 37-39: [LANG_NAMES.get(lang_code, lang_code)] *)
Definition get_lang_name (lang_code : str) : str :=
  names_get LANG_NAMES lang_code lang_code.

(** Lines 42-45.  The data model has an object at the top of every file;
    for any other document, where Python goes on until the value is first
    used as a [dict], the embedding raises at once. *)
Definition load_json (path : str * str) : M dict :=
  s <- read_text path ;;
  match json_loads s with
  | None => raise JSONDecodeError
  | Some (JObj d) => ret d
  | Some _ => raise NotAnObject
  end.

(** Lines 48-68. *)
Definition dump_json (path : str * str) (data : dict) : M unit :=
  original_content <- read_text path ;;
  write_text path (dump_text original_content data).

(** Lines 87-113: the body of the loop over the locale directories. *)
Definition sync_lang (filename : str) (en_data : dict)
    (total_added : nat) (lang_code : str) : M nat :=
  if bool_decide (lang_code = txt "en") || startswith (txt ".") lang_code
  then ret total_added
  else
    let file_path := (lang_code, filename) in
    found <- path_exists file_path ;;
    if negb found then
      print (NotFound lang_code filename) ;;;
      ret total_added
    else
      lang_data <- load_json file_path ;;
      let missing := missing_keys en_data lang_data in
      if truthy missing then
        let lang_data := dict_update lang_data missing in
        dump_json file_path lang_data ;;;
        print (Added lang_code (length missing)) ;;;
        ret (total_added + length missing)%nat
      else
        print (Complete lang_code) ;;;
        ret total_added.

(** Lines 71-115. *)
Definition sync_file (filename : str) : M nat :=
  let en_path := (txt "en", filename) in
  found <- path_exists en_path ;;
  if negb found then
    print (EnMissing filename) ;;;
    ret O
  else
    en_data <- load_json en_path ;;
    print (Header filename (length en_data)) ;;;
    dirs <- iterdir_dirs ;;
    for_each (sync_lang filename en_data) O (sorted dirs).

(** Lines 118-129. *)
Definition main : M unit :=
  total_common <- sync_file (txt "common.json") ;;
  total_settings <- sync_file (txt "settings.json") ;;
  print (Summary total_common total_settings).

(** The status the interpreter exits with: 0 when [main] returns, 1 when an
    exception reaches the top level. *)
Definition exit_status {A} (r : tree * list event * outcome A) : nat :=
  match r.2 with
  | Return _ => 0
  | Raise _ => 1
  end.

(** ** Example trees *)

Module Ex.
Definition common : str := txt "common.json".
Definition settings : str := txt "settings.json".

Definition reference : str := jsq "{'a.b': 'Hello', 'a.c': 'World'}".
Definition R : dict :=
  [(txt "a.b", JStr (txt "Hello")); (txt "a.c", JStr (txt "World"))].

(** A tab-indented French file that lacks [a.c]. *)
Definition fr_tabs : str :=
  join [c_lf] [jsq "{"; c_tab :: jsq "'a.b': 'Bonjour'"; jsq "}"; []].
Definition T_fr : dict := [(txt "a.b", JStr (txt "Bonjour"))].

(** A German file with a trailing comma: not JSON. *)
Definition de_malformed : str := jsq "{'a.b': 'Hallo',}".

(** A Spanish file that has every key, in another order and layout. *)
Definition es_complete : str := jsq "{'a.c':'Mundo',  'a.b':'Hola'}  ".
Definition T_es : dict :=
  [(txt "a.c", JStr (txt "Mundo")); (txt "a.b", JStr (txt "Hola"))].

Definition with_reference : tree :=
  Tree [txt "fr"; txt "en"; txt ".git"; txt "es"; txt "it"]
    (list_to_map [((txt "en", common), reference);
                  ((txt "fr", common), fr_tabs);
                  ((txt "es", common), es_complete)]).

Definition with_malformed : tree :=
  Tree [txt "fr"; txt "en"; txt "de"]
    (list_to_map [((txt "en", common), reference);
                  ((txt "fr", common), fr_tabs);
                  ((txt "de", common), de_malformed);
                  ((txt "en", settings), reference)]).

(** No [en/common.json]; [settings.json] is there to be synchronised. *)
Definition without_reference : tree :=
  Tree [txt "fr"; txt "en"]
    (list_to_map [((txt "fr", common), fr_tabs);
                  ((txt "en", settings), reference);
                  ((txt "fr", settings), fr_tabs)]).

(** What [json.dumps(..., indent=4)] gives for the merged French file. *)
Definition fr_four_spaces : str :=
  join [c_lf] [jsq "{"; jsq "    'a.b': 'Bonjour',"; jsq "    'a.c': 'World'";
               jsq "}"; []].

(** A value with seven runs of four spaces, and what line 63 makes of its
    line for a tab-indented original: with the indentation the line has
    eight runs, two are replaced, and the second one is inside the string. *)
Definition spaced : dict :=
  [(txt "a", JStr (txt "x" ++ replicate 28 c_space ++ txt "y"))].
Definition spaced_tabs : str :=
  join [c_lf]
    [jsq "{";
     c_tab :: jsq "'a': 'x" ++ c_tab :: replicate 24 c_space ++ jsq "y'";
     jsq "}"; []].
End Ex.

(** ** Trees on which a claim fails *)

Module Ex2.
(** A reference whose value has seven runs of four spaces. *)
Definition spaced_reference : str :=
  jsq "{'a': 'x" ++ replicate 28 c_space ++ jsq "y'}".

Definition with_spaced_reference : tree :=
  Tree [txt "fr"; txt "en"]
    (list_to_map [((txt "en", Ex.common), spaced_reference);
                  ((txt "fr", Ex.common), Ex.fr_tabs)]).

(** What the run writes for the tab-indented French file: the second
    replacement of line 63 falls inside the string. *)
Definition fr_broken : str :=
  join [c_lf]
    [jsq "{"; jsq "    'a.b': 'Bonjour',";
     c_tab :: jsq "'a': 'x" ++ c_tab :: replicate 24 c_space ++ jsq "y'";
     jsq "}"; []].

(** A reference that is an array, and a French file without keys; the
    French file after one run and after two. *)
Definition with_array_reference : tree :=
  Tree [txt "fr"; txt "en"]
    (list_to_map [((txt "en", Ex.common), txt "[0]");
                  ((txt "fr", Ex.common), txt "{}")]).

Definition fr_once : str :=
  join [c_lf] [jsq "{"; jsq "    '0': 0"; jsq "}"; []].

Definition fr_twice : str :=
  join [c_lf] [jsq "{"; jsq "    '0': 0,"; jsq "    '0': 0"; jsq "}"; []].

(** A reference whose value is a lone surrogate, written as an escape,
    and a French file that lacks its key. *)
Definition surrogate_reference : str := jsq "{'a': '\ud83d'}".
Definition R_surrogate : dict := [(txt "a", JStr [0xD83D])].

Definition fr_kept : str := jsq "{'old': 'kept'}".
Definition T_kept : dict := [(txt "old", JStr (txt "kept"))].

Definition with_surrogate : tree :=
  Tree [txt "fr"; txt "en"]
    (list_to_map [((txt "en", Ex.common), surrogate_reference);
                  ((txt "fr", Ex.common), fr_kept)]).
End Ex2.

(** ** Auxiliary definitions for the proofs *)

(** The dictionary comprehension of line 103, one key at a time. *)
Definition missing_step (en_data lang_data : dict) (acc : dict) (k : str) : dict :=
  if dict_contains k lang_data then acc
  else match dict_get en_data k with
       | Some v => dict_setitem k v acc
       | None => acc
       end.

(** On a reference with distinct keys the comprehension is a filter. *)
Definition absent_from (T : dict) (kv : str * json) : bool :=
  negb (dict_contains kv.1 T).

(** The test of line 90. *)
Definition skipped (lang_code : str) : bool :=
  bool_decide (lang_code = txt "en") || startswith (txt ".") lang_code.

(** What UTF-8 can encode: text without surrogate code points. *)
Definition encodable (s : str) : bool := forallb (λ c, negb (is_surrogate c)) s.

Definition with_file (t : tree) (p : str * str) (s : str) : tree :=
  Tree (subdirs t) (<[p := s]> (files t)).

Arguments json_loads : simpl never.
Arguments dump_text : simpl never.
Arguments missing_keys : simpl never.
Arguments dict_update : simpl never.
Arguments merged : simpl never.
Arguments encodable : simpl never.

Definition en_path (filename : str) : str * str := (txt "en", filename).

(** The loop of [sync_file], once the reference is loaded. *)
Definition locale_loop (filename : str) (en_data : dict) (t : tree)
  : tree * list event * outcome nat :=
  for_each (sync_lang filename en_data) O (sorted (subdirs t)) t.

(** The tree with another directory listing. *)
Definition set_dirs (ds : list str) (t : tree) : tree := Tree ds (files t).

(** What a run leaves behind for an observer: the files, the report and
    the outcome. *)
Definition observable {A} (r : tree * list event * outcome A)
  : gmap (str * str) str * list event * outcome A :=
  (files r.1.1, r.1.2, r.2).

(** The locale a line of the report is about. *)
Definition event_locale (e : event) : option str :=
  match e with
  | NotFound l _ | Added l _ | Complete l => Some l
  | EnMissing _ | Header _ _ | Summary _ _ => None
  end.

(** The literal [scan_number] builds from the text of a literal: one
    without fraction and exponent is an [int], and one without exponent has
    no letter and no sign of the exponent. *)
Definition norm_float (l : float_literal) : json :=
  match f_frac l, f_exp l with
  | Decimal.Nil, Decimal.Nil =>
      JInt (if f_neg l then - Z.of_N (f_int l) else Z.of_N (f_int l))%Z
  | _, Decimal.Nil =>
      JFloat (Finite (FloatLiteral (f_neg l) (f_int l) (f_frac l)
                        false ExpBare Decimal.Nil))
  | _, _ => JFloat (Finite l)
  end.

(** What [json.loads] makes of a value that [json.dumps] wrote: every
    object goes through [dict] once more. *)
Fixpoint norm (v : json) : json :=
  match v with
  | JFloat (Finite l) => norm_float l
  | JArr l => JArr (List.map norm l)
  | JObj d => JObj (dict_of_pairs (List.map (λ kv, (kv.1, norm kv.2)) d))
  | _ => v
  end.

(** What follows a value in the text [json.dumps] writes: nothing, a comma
    or a line feed. *)
Definition delimited (rest : str) : Prop :=
  match rest with
  | [] => True
  | c :: _ => c = 44 ∨ c = c_lf
  end.

(** The three bodies of the scanner, with what they call given. *)
Definition scan_once_body
    (obj : str → option (list (str * json) * str))
    (arr : str → option (list json * str)) (s : str) : option (json * str) :=
  match s with
  | [] => None
  | c :: r =>
      if c =? c_quote then
        match scanstring r with
        | Some (t, rest) => Some (JStr t, rest)
        | None => None
        end
      else if c =? 123 then
        match skip_ws r with
        | c' :: r' =>
            if c' =? 125 then Some (JObj [], r')
            else if c' =? c_quote then
              match obj r' with
              | Some (ps, rest) => Some (JObj (dict_of_pairs ps), rest)
              | None => None
              end
            else None
        | [] => None
        end
      else if c =? 91 then
        match skip_ws r with
        | c' :: r' =>
            if c' =? 93 then Some (JArr [], r')
            else
              match arr (c' :: r') with
              | Some (vs, rest) => Some (JArr vs, rest)
              | None => None
              end
        | [] => None
        end
      else
        match strip_prefix (txt "null") s with
        | Some rest => Some (JNull, rest)
        | None =>
        match strip_prefix (txt "true") s with
        | Some rest => Some (JBool true, rest)
        | None =>
        match strip_prefix (txt "false") s with
        | Some rest => Some (JBool false, rest)
        | None =>
        match scan_number s with
        | Some r => Some r
        | None => scan_constant s
        end end end end
  end.

Definition object_pairs_body (once : str → option (json * str))
    (obj : str → option (list (str * json) * str)) (s : str)
  : option (list (str * json) * str) :=
  match scanstring s with
  | None => None
  | Some (key, s1) =>
      match skip_ws s1 with
      | c :: s2 =>
          if c =? 58 then
            match once (skip_ws s2) with
            | None => None
            | Some (v, s3) =>
                match skip_ws s3 with
                | c' :: s4 =>
                    if c' =? 125 then Some ([(key, v)], s4)
                    else if c' =? 44 then
                      match skip_ws s4 with
                      | q :: s5 =>
                          if q =? c_quote then
                            match obj s5 with
                            | Some (ps, rest) => Some ((key, v) :: ps, rest)
                            | None => None
                            end
                          else None
                      | [] => None
                      end
                    else None
                | [] => None
                end
            end
          else None
      | [] => None
      end
  end.

Definition array_items_body (once : str → option (json * str))
    (arr : str → option (list json * str)) (s : str)
  : option (list json * str) :=
  match once s with
  | None => None
  | Some (v, s1) =>
      match skip_ws s1 with
      | c :: s2 =>
          if c =? 93 then Some ([v], s2)
          else if c =? 44 then
            match arr (skip_ws s2) with
            | Some (vs, rest) => Some (v :: vs, rest)
            | None => None
            end
          else None
      | [] => None
      end
  end.

(** The text of one member of an object, after the opening quote of its
    key. *)
Definition member_tail (level : nat) (kv : str * json) : str :=
  List.concat (escape_char <$> kv.1) ++ [c_quote] ++ txt ": "
  ++ iterencode level kv.2.

Definition item_separator (level : nat) : str := txt "," ++ newline_indent level.

(** What the recursion shows of a value: its text is read back, as its
    normal form, with fuel for its length. *)
Definition reads_back (v : json) : Prop :=
  ∀ level n rest, delimited rest →
    (length (iterencode level v) ≤ n)%nat →
    scan_once n (iterencode level v ++ rest) = Some (norm v, rest).

(** One member of an object, as [iterencode] writes it. *)
Definition member (level : nat) (kv : str * json) : str :=
  encode_basestring kv.1 ++ txt ": " ++ iterencode level kv.2.

(** The members of an object after the opening quote of the first key. *)
Fixpoint members_tail (level : nat) (d : list (str * json)) : str :=
  match d with
  | [] => []
  | [kv] => member_tail level kv
  | kv :: d' =>
      member_tail level kv ++ item_separator level
      ++ c_quote :: members_tail level d'
  end.

(** [g] gives every result [f] gives. *)
Definition refines {A} (f g : str → option A) : Prop :=
  ∀ s r, f s = Some r → g s = Some r.

(** [s'] is [s] with some runs of four spaces replaced by a tab. *)
Inductive retab : str → str → Prop :=
  | retab_nil : retab [] []
  | retab_keep c s s' : retab s s' → retab (c :: s) (c :: s')
  | retab_tab s s' :
      retab s s' →
      retab (c_space :: c_space :: c_space :: c_space :: s) (c_tab :: s').

(** The four hexadecimal digits at the head of [s]. *)
Definition hex4_at (s : str) : option (N * str) :=
  match s with
  | a :: b :: c :: d :: r =>
      match hex4 a b c d with
      | Some u => Some (u, r)
      | None => None
      end
  | _ => None
  end.

(** [f] is not misled by tabs: what it reads in the text with tabs it
    reads in the text with spaces. *)
Definition tab_safe {A} (f : str → option (A * str)) : Prop :=
  ∀ s s' x r', retab s s' → f s' = Some (x, r') →
    ∃ r, f s = Some (x, r) ∧ retab r r'.

(** [scan_number] after the sign. *)
Definition scan_unsigned (neg : bool) (s1 : str) : option (json * str) :=
  match s1 with
  | c :: r =>
      if is_digit c then
        let '(d, rest) :=
          if c =? 48 then (Decimal.D0 Decimal.Nil, r) else take_digits s1 in
        let '(frac, rest) := scan_frac rest in
        let '(upper, sg, ed, rest) := scan_exp rest in
        let n := N.of_uint d in
        Some (match frac, ed with
              | Decimal.Nil, Decimal.Nil =>
                  JInt (if neg then - Z.of_N n else Z.of_N n)%Z
              | _, _ => JFloat (Finite (FloatLiteral neg n frac upper sg ed))
              end, rest)
      else None
  | [] => None
  end.

(** [load_json] raises on this text. *)
Definition poisoned (content : str) : Prop :=
  ∀ d, json_loads content ≠ Some (JObj d).

(** This text loads, and lacks no key of the reference. *)
Definition settled (en_data : dict) (content : str) : Prop :=
  ∃ lang_data,
    json_loads content = Some (JObj lang_data)
    ∧ missing_keys en_data lang_data = [].

(** The locale's file is in a state in which [sync_lang] writes nothing. *)
Definition calm (filename : str) (en_data : dict) (t : tree)
    (lang_code : str) : Prop :=
  skipped lang_code = true
  ∨ files t !! (lang_code, filename) = None
  ∨ ∃ content,
      files t !! (lang_code, filename) = Some content
      ∧ (poisoned content ∨ settled en_data content).

(** The locale's file is in a state in which [sync_lang] raises. *)
Definition doomed (filename : str) (t : tree) (lang_code : str) : Prop :=
  skipped lang_code = false
  ∧ ∃ content,
      files t !! (lang_code, filename) = Some content ∧ poisoned content.

(** A line of the report that reports no key added. *)
Definition no_addition (e : event) : Prop :=
  match e with
  | Added _ _ => False
  | Summary total_common total_settings =>
      total_common = O ∧ total_settings = O
  | _ => True
  end.

Definition is_raise {A} (r : outcome A) : Prop :=
  match r with Raise _ => True | Return _ => False end.

(** Two trees with the same directories and the same files of one name. *)
Definition agree_on (filename : str) (t t' : tree) : Prop :=
  subdirs t' = subdirs t
  ∧ ∀ l, files t' !! (l, filename) = files t !! (l, filename).

(** The text [rest] does not start with a character [bad] holds of. *)
Definition head_not (bad : N → bool) (rest : str) : Prop :=
  match rest with
  | c :: _ => bad c = false
  | [] => True
  end.

(** Every way [sync_lang] can go. *)
Inductive sync_lang_result (filename : str) (en_data : dict) (total : nat)
    (lang_code : str) (t : tree) : tree * list event * outcome nat → Prop :=
  | SL_skipped :
      skipped lang_code = true →
      sync_lang_result filename en_data total lang_code t (t, [], Return total)
  | SL_not_found :
      skipped lang_code = false →
      files t !! (lang_code, filename) = None →
      sync_lang_result filename en_data total lang_code t
        (t, [NotFound lang_code filename], Return total)
  | SL_malformed content :
      skipped lang_code = false →
      files t !! (lang_code, filename) = Some content →
      json_loads content = None →
      sync_lang_result filename en_data total lang_code t
        (t, [], Raise JSONDecodeError)
  | SL_not_object content v :
      skipped lang_code = false →
      files t !! (lang_code, filename) = Some content →
      json_loads content = Some v → (∀ d, v ≠ JObj d) →
      sync_lang_result filename en_data total lang_code t
        (t, [], Raise NotAnObject)
  | SL_complete content lang_data :
      skipped lang_code = false →
      files t !! (lang_code, filename) = Some content →
      json_loads content = Some (JObj lang_data) →
      missing_keys en_data lang_data = [] →
      sync_lang_result filename en_data total lang_code t
        (t, [Complete lang_code], Return total)
  | SL_added content lang_data :
      skipped lang_code = false →
      files t !! (lang_code, filename) = Some content →
      json_loads content = Some (JObj lang_data) →
      missing_keys en_data lang_data ≠ [] →
      encodable (dump_text content (merged en_data lang_data)) = true →
      sync_lang_result filename en_data total lang_code t
        (with_file t (lang_code, filename)
           (dump_text content (merged en_data lang_data)),
         [Added lang_code (length (missing_keys en_data lang_data))],
         Return (total + length (missing_keys en_data lang_data))%nat)
  | SL_unencodable content lang_data :
      skipped lang_code = false →
      files t !! (lang_code, filename) = Some content →
      json_loads content = Some (JObj lang_data) →
      missing_keys en_data lang_data ≠ [] →
      encodable (dump_text content (merged en_data lang_data)) = false →
      sync_lang_result filename en_data total lang_code t
        (with_file t (lang_code, filename) [], [], Raise UnicodeEncodeError).

(** The keys a report says were added: the sum of the counts of its
    [Added] lines. *)
Definition added_total (o : list event) : nat :=
  foldr (λ e acc, match e with Added _ n => (n + acc)%nat | _ => acc end) O o.

(** A count the report may print for a reference of [k] keys. *)
Definition count_within (k : nat) (e : event) : Prop :=
  match e with
  | Added _ n => (0 < n ≤ k)%nat
  | _ => True
  end.

(** A file [main] may write: a synchronised filename under a listed
    directory that the loop does not skip. *)
Definition is_target (t : tree) (p : str * str) : Prop :=
  (p.2 = txt "common.json" ∨ p.2 = txt "settings.json")
  ∧ p.1 ∈ subdirs t ∧ skipped p.1 = false.

(** A float literal as [scan_number] builds it: it has a fraction or an
    exponent, and without exponent neither letter nor sign. *)
Definition literal_canonical (l : float_literal) : Prop :=
  (f_frac l ≠ Decimal.Nil ∨ f_exp l ≠ Decimal.Nil)
  ∧ (f_exp l = Decimal.Nil → f_upper l = false ∧ f_sign l = ExpBare).

(** A value as [json.loads] builds it: the keys of every object are
    pairwise distinct and every float literal is as scanned. *)
Fixpoint canonical (v : json) : Prop :=
  match v with
  | JFloat (Finite l) => literal_canonical l
  | JArr l => foldr (λ x P, canonical x ∧ P) True l
  | JObj d => is_dict d ∧ foldr (λ kv P, canonical kv.2 ∧ P) True d
  | _ => True
  end.

(** A character [json.dumps] lets through to its text: a line feed, or no
    control character. *)
Definition plain (c : N) : Prop := c = c_lf ∨ 32 ≤ c.

(** The characters of a text other than spaces and tabs. *)
Definition unspaced (s : str) : str :=
  List.filter (λ c, negb ((c =? c_space) || (c =? c_tab))) s.

(** The line of the report is about a listed directory that is not
    skipped, if it is about a locale at all. *)
Definition about_visited (t : tree) (e : event) : Prop :=
  match event_locale e with
  | Some l => l ∈ subdirs t ∧ skipped l = false
  | None => True
  end.

(** With fuel for the characters it reads, a scanner reads what it reads
    with any fuel. *)
Definition fuel_enough {A} (f : nat → str → option (A * str)) (m : nat) : Prop :=
  ∀ s x r, f m s = Some (x, r) →
    (length r < length s)%nat
    ∧ ∀ k, (length s - length r ≤ k)%nat → f k s = Some (x, r).

(** ** The script on documents of any shape *)

(** [json.load] gives whatever value the text holds, and the script uses
    it unchecked.  The definitions above follow the script on objects;
    these follow it on every value, with Python's own exceptions. *)
Inductive py_exn : Type :=
  | PyJSONDecodeError
  | PyFileNotFoundError
  | PyUnicodeEncodeError
  | TypeError
  | AttributeError
  | IndexError
  | KeyError.

(** A run returns, raises, or is left open: the comparison of a float with
    a number depends on the binary value Python gives the literal, which
    the embedding does not have. *)
Inductive py_outcome (A : Type) : Type :=
  | PyReturn (a : A)
  | PyRaise (e : py_exn)
  | Unmodelled.
Arguments PyReturn {A} a.
Arguments PyRaise {A} e.
Arguments Unmodelled {A}.

Definition py_then {A B} (r : py_outcome A) (k : A → py_outcome B)
  : py_outcome B :=
  match r with
  | PyReturn a => k a
  | PyRaise e => PyRaise e
  | Unmodelled => Unmodelled
  end.

(** Truth values with an unknown, for [==] on values that hold floats. *)
Definition and3 (a b : option bool) : option bool :=
  match a, b with
  | Some false, _ | _, Some false => Some false
  | Some true, Some true => Some true
  | _, _ => None
  end.

Definition or3 (a b : option bool) : option bool :=
  match a, b with
  | Some true, _ | _, Some true => Some true
  | Some false, Some false => Some false
  | _, _ => None
  end.

(** [a == b] on values of [json.load]: [bool] is an [int]; lists are equal
    item by item, dicts key by key; values of different kinds differ. *)
Fixpoint py_eq (a b : json) : option bool :=
  match a with
  | JNull => match b with JNull => Some true | _ => Some false end
  | JBool x =>
      match b with
      | JBool y => Some (bool_decide (x = y))
      | JInt z => Some (Z.b2z x =? z)%Z
      | JFloat _ => None
      | _ => Some false
      end
  | JInt z =>
      match b with
      | JBool y => Some (z =? Z.b2z y)%Z
      | JInt z' => Some (z =? z')%Z
      | JFloat _ => None
      | _ => Some false
      end
  | JFloat _ =>
      match b with
      | JBool _ | JInt _ | JFloat _ => None
      | _ => Some false
      end
  | JStr s => match b with JStr s' => Some (bool_decide (s = s')) | _ => Some false end
  | JArr l =>
      match b with
      | JArr l' =>
          (fix items (l l' : list json) : option bool :=
             match l, l' with
             | [], [] => Some true
             | x :: l, y :: l' => and3 (py_eq x y) (items l l')
             | _, _ => Some false
             end) l l'
      | _ => Some false
      end
  | JObj d =>
      match b with
      | JObj d' =>
          if (length d =? length d')%nat then
            (fix members (d : list (str * json)) : option bool :=
               match d with
               | [] => Some true
               | (k, v) :: d =>
                   and3 (match dict_get d' k with
                         | Some v' => py_eq v v'
                         | None => Some false
                         end) (members d)
               end) d
          else Some false
      | _ => Some false
      end
  end.

(** [p in s] on strings: [p] occurs in [s]. *)
Fixpoint is_infix (p s : str) : bool :=
  startswith p s || match s with [] => false | _ :: r => is_infix p r end.

(** [k in container] *)
Definition py_contains (k container : json) : py_outcome bool :=
  match container with
  | JObj d =>
      match k with
      | JStr s => PyReturn (dict_contains s d)
      | JArr _ | JObj _ => PyRaise TypeError
      | _ => PyReturn false
      end
  | JArr l =>
      match foldr (λ x found, or3 (py_eq x k) found) (Some false) l with
      | Some b => PyReturn b
      | None => Unmodelled
      end
  | JStr s =>
      match k with
      | JStr p => PyReturn (is_infix p s)
      | _ => PyRaise TypeError
      end
  | _ => PyRaise TypeError
  end.

(** The keys a [dict] has here: the strings [json.load] gives, and the
    integers and booleans that index a list. *)
Inductive py_key : Type :=
  | KStr (s : str)
  | KInt (z : Z)
  | KBool (b : bool).

Definition key_eqb (k k' : py_key) : bool :=
  match k, k' with
  | KStr s, KStr s' => bool_decide (s = s')
  | KStr _, _ | _, KStr _ => false
  | KInt z, KInt z' => (z =? z')%Z
  | KInt z, KBool b | KBool b, KInt z => (z =? Z.b2z b)%Z
  | KBool b, KBool b' => bool_decide (b = b')
  end.

Abbreviation py_dict := (list (py_key * json)).

(** [d[k] = v] with Python's equality of keys. *)
Fixpoint py_setitem (k : py_key) (v : json) (d : py_dict) : py_dict :=
  match d with
  | [] => [(k, v)]
  | (k', v') :: d' =>
      if key_eqb k k' then (k', v) :: d' else (k', v') :: py_setitem k v d'
  end.

(** [l[z]]: a negative index counts from the end. *)
Definition py_index {A} (l : list A) (z : Z) : py_outcome A :=
  let i := if (z <? 0)%Z then (z + Z.of_nat (length l))%Z else z in
  if (i <? 0)%Z then PyRaise IndexError
  else match l !! Z.to_nat i with
       | Some v => PyReturn v
       | None => PyRaise IndexError
       end.

(** [container[k]], with [k] as the key of a [dict]. *)
Definition py_getitem (container k : json) : py_outcome (py_key * json) :=
  match container with
  | JObj d =>
      match k with
      | JStr s =>
          match dict_get d s with
          | Some v => PyReturn (KStr s, v)
          | None => PyRaise KeyError
          end
      | JArr _ | JObj _ => PyRaise TypeError
      | _ => PyRaise KeyError
      end
  | JArr l =>
      match k with
      | JInt z => py_then (py_index l z) (λ v, PyReturn (KInt z, v))
      | JBool b => py_then (py_index l (Z.b2z b)) (λ v, PyReturn (KBool b, v))
      | _ => PyRaise TypeError
      end
  | JStr s =>
      match k with
      | JInt z => py_then (py_index s z) (λ c, PyReturn (KInt z, JStr [c]))
      | JBool b =>
          py_then (py_index s (Z.b2z b)) (λ c, PyReturn (KBool b, JStr [c]))
      | _ => PyRaise TypeError
      end
  | _ => PyRaise TypeError
  end.

(** [len(v)] *)
Definition py_len (v : json) : option nat :=
  match v with
  | JStr s => Some (length s)
  | JArr l => Some (length l)
  | JObj d => Some (length d)
  | _ => None
  end.

(** [for k in v]: the keys of a dict, the items of a list, the characters
    of a string. *)
Definition py_iter (v : json) : list json :=
  match v with
  | JObj d => JStr <$> dict_keys d
  | JArr l => l
  | JStr s => (λ c, JStr [c]) <$> s
  | _ => []
  end.

(** Line 103, on any values. *)
Definition missing_keys_any (en_data lang_data : json) : py_outcome py_dict :=
  foldl (λ acc k,
           py_then acc (λ missing,
           py_then (py_contains k lang_data) (λ found,
           if found then PyReturn missing
           else py_then (py_getitem en_data k) (λ kv,
                PyReturn (py_setitem kv.1 kv.2 missing)))))
        (PyReturn []) (py_iter en_data).

(** Line 108: [lang_data.update(missing_keys)]; only a [dict] has
    [update]. *)
Definition py_update (lang_data : json) (missing : py_dict) : py_outcome py_dict :=
  match lang_data with
  | JObj d =>
      PyReturn (foldl (λ acc kv, py_setitem kv.1 kv.2 acc)
                      ((λ kv, (KStr kv.1, kv.2)) <$> d) missing)
  | _ => PyRaise AttributeError
  end.

(** The key [json.dumps] writes for a key that is not a string. *)
Definition key_text (k : py_key) : str :=
  match k with
  | KStr s => s
  | KInt z => int_repr z
  | KBool true => txt "true"
  | KBool false => txt "false"
  end.

(** What [json.dumps] is given, with the keys as it writes them. *)
Definition as_written (d : py_dict) : dict := (λ kv, (key_text kv.1, kv.2)) <$> d.

Definition PM (A : Type) : Type := tree → tree * list event * py_outcome A.

Definition py_ret {A} (a : A) : PM A := λ t, (t, [], PyReturn a).

Definition py_end {A} (r : py_outcome A) : PM A := λ t, (t, [], r).

Definition py_bind {A B} (m : PM A) (k : A → PM B) : PM B :=
  λ t, match m t with
       | (t1, o1, PyReturn a) =>
           let '(t2, o2, r) := k a t1 in (t2, o1 ++ o2, r)
       | (t1, o1, PyRaise e) => (t1, o1, PyRaise e)
       | (t1, o1, Unmodelled) => (t1, o1, Unmodelled)
       end.

Notation "x <~ m ;; k" := (py_bind m (λ x, k))
  (at level 100, m at next level, right associativity).
Notation "m ;;~ k" := (py_bind m (λ _, k))
  (at level 100, right associativity).

Definition py_print (e : event) : PM unit := λ t, (t, [e], PyReturn tt).

Definition py_exists (p : str * str) : PM bool :=
  λ t, (t, [], PyReturn (bool_decide (is_Some (files t !! p)))).

Definition py_read (p : str * str) : PM str :=
  λ t, match files t !! p with
       | Some s => (t, [], PyReturn s)
       | None => (t, [], PyRaise PyFileNotFoundError)
       end.

Definition py_write (p : str * str) (s : str) : PM unit :=
  λ t, if forallb (λ c, negb (is_surrogate c)) s
       then (Tree (subdirs t) (<[p := s]> (files t)), [], PyReturn tt)
       else (Tree (subdirs t) (<[p := []]> (files t)), [],
             PyRaise PyUnicodeEncodeError).

Fixpoint py_for_each {A B} (body : B → A → PM B) (acc : B) (l : list A) : PM B :=
  match l with
  | [] => py_ret acc
  | x :: l' => acc' <~ body acc x ;; py_for_each body acc' l'
  end.

(** Lines 42-45: the value the text holds, whatever it is. *)
Definition load_json_any (path : str * str) : PM json :=
  s <~ py_read path ;;
  match json_loads s with
  | None => py_end (PyRaise PyJSONDecodeError)
  | Some v => py_ret v
  end.

(** Lines 48-68. *)
Definition dump_json_any (path : str * str) (data : py_dict) : PM unit :=
  original_content <~ py_read path ;;
  py_write path (dump_text original_content (as_written data)).

(** Lines 87-113. *)
Definition sync_lang_any (filename : str) (en_data : json)
    (total_added : nat) (lang_code : str) : PM nat :=
  if bool_decide (lang_code = txt "en") || startswith (txt ".") lang_code
  then py_ret total_added
  else
    let file_path := (lang_code, filename) in
    found <~ py_exists file_path ;;
    if negb found then
      py_print (NotFound lang_code filename) ;;~
      py_ret total_added
    else
      lang_data <~ load_json_any file_path ;;
      missing <~ py_end (missing_keys_any en_data lang_data) ;;
      if truthy missing then
        lang_data <~ py_end (py_update lang_data missing) ;;
        dump_json_any file_path lang_data ;;~
        py_print (Added lang_code (length missing)) ;;~
        py_ret (total_added + length missing)%nat
      else
        py_print (Complete lang_code) ;;~
        py_ret total_added.

(** Lines 71-115; [len(en_data)] of line 81 raises for a value without
    length. *)
Definition sync_file_any (filename : str) : PM nat :=
  let en_path := (txt "en", filename) in
  found <~ py_exists en_path ;;
  if negb found then
    py_print (EnMissing filename) ;;~
    py_ret O
  else
    en_data <~ load_json_any en_path ;;
    match py_len en_data with
    | None => py_end (PyRaise TypeError)
    | Some n =>
        py_print (Header filename n) ;;~
        dirs <~ (λ t, (t, [], PyReturn (subdirs t))) ;;
        py_for_each (sync_lang_any filename en_data) O (sorted dirs)
    end.

(** Lines 118-129. *)
Definition main_any : PM unit :=
  total_common <~ sync_file_any (txt "common.json") ;;
  total_settings <~ sync_file_any (txt "settings.json") ;;
  py_print (Summary total_common total_settings).

(** The text loads as an object, or is not JSON. *)
Definition object_or_not_json (content : str) : bool :=
  match json_loads content with
  | Some (JObj _) | None => true
  | Some _ => false
  end.

(** Every file of the tree that is JSON holds an object. *)
Definition objects_only (t : tree) : Prop :=
  map_Forall (λ _ content, object_or_not_json content = true) (files t).

(** A dict of [json.load], among the dicts with keys of any kind. *)
Definition str_keyed (d : dict) : py_dict := (λ kv, (KStr kv.1, kv.2)) <$> d.

(** The same end of a run, on objects and on any value. *)
Inductive same_outcome {A} : outcome A → py_outcome A → Prop :=
  | same_return a : same_outcome (Return a) (PyReturn a)
  | same_decode_error :
      same_outcome (Raise JSONDecodeError) (PyRaise PyJSONDecodeError)
  | same_encode_error :
      same_outcome (Raise UnicodeEncodeError) (PyRaise PyUnicodeEncodeError).

(** The same run: the same tree left, the same report, the same end. *)
Definition same_run {A} (r : tree * list event * outcome A)
    (r' : tree * list event * py_outcome A) : Prop :=
  r'.1 = r.1 ∧ same_outcome r.2 r'.2.

Arguments missing_keys_any : simpl never.
Arguments py_update : simpl never.
Arguments str_keyed : simpl never.
Arguments as_written : simpl never.

(** * Properties *)

(** ** Dictionaries *)

Lemma dict_contains_keys k (d : dict) :
  dict_contains k d = true ↔ k ∈ dict_keys d.
Proof.
  unfold dict_keys. induction d as [|[k' v'] d IH]; simpl.
  - split; [done | by intros ?%elem_of_nil].
  - rewrite elem_of_cons. destruct (decide (k = k')); [naive_solver|].
    rewrite IH. naive_solver.
Qed.

Lemma dict_contains_false k (d : dict) :
  dict_contains k d = false ↔ k ∉ dict_keys d.
Proof.
  rewrite <- dict_contains_keys. by destruct (dict_contains k d).
Qed.

Lemma dict_get_None k (d : dict) : dict_get d k = None ↔ k ∉ dict_keys d.
Proof.
  unfold dict_keys. induction d as [|[k' v'] d IH]; simpl.
  - split; [by intros _ ?%elem_of_nil | done].
  - rewrite not_elem_of_cons. destruct (decide (k = k')); naive_solver.
Qed.

Lemma dict_get_is_Some k (d : dict) : is_Some (dict_get d k) ↔ k ∈ dict_keys d.
Proof.
  rewrite <- not_eq_None_Some, dict_get_None.
  split; [apply dec_stable | auto].
Qed.

Lemma dict_get_app_l k (d e : dict) :
  k ∈ dict_keys d → dict_get (d ++ e) k = dict_get d k.
Proof.
  unfold dict_keys. induction d as [|[k' v'] d IH]; simpl.
  - by intros ?%elem_of_nil.
  - rewrite elem_of_cons. destruct (decide (k = k')); naive_solver.
Qed.

Lemma dict_get_app_r k (d e : dict) :
  k ∉ dict_keys d → dict_get (d ++ e) k = dict_get e k.
Proof.
  unfold dict_keys. induction d as [|[k' v'] d IH]; simpl; [done|].
  rewrite not_elem_of_cons. destruct (decide (k = k')); naive_solver.
Qed.

Lemma dict_keys_app (d e : dict) : dict_keys (d ++ e) = dict_keys d ++ dict_keys e.
Proof. unfold dict_keys. apply fmap_app. Qed.

(** Assigning to a key that is not there appends the entry. *)
Lemma dict_setitem_fresh k v (d : dict) :
  k ∉ dict_keys d → dict_setitem k v d = d ++ [(k, v)].
Proof.
  unfold dict_keys. induction d as [|[k' v'] d IH]; simpl; [done|].
  rewrite not_elem_of_cons. intros [Hne Hd].
  destruct (decide (k = k')); [done|]. by rewrite IH.
Qed.

Lemma dict_keys_setitem k v (d : dict) :
  dict_keys (dict_setitem k v d)
  = if dict_contains k d then dict_keys d else dict_keys d ++ [k].
Proof.
  unfold dict_keys. induction d as [|[k' v'] d IH]; simpl; [done|].
  destruct (decide (k = k')); csimpl; [done|].
  rewrite IH. by destruct (dict_contains k d).
Qed.

Lemma is_dict_setitem k v (d : dict) : is_dict d → is_dict (dict_setitem k v d).
Proof.
  unfold is_dict. rewrite dict_keys_setitem.
  destruct (dict_contains k d) eqn:E; [done|].
  apply dict_contains_false in E. intros Hd.
  apply NoDup_app. split_and!; [done| |apply NoDup_singleton].
  intros x Hx ->%list_elem_of_singleton. done.
Qed.

Lemma is_dict_update (d e : dict) : is_dict d → is_dict (dict_update d e).
Proof.
  unfold dict_update. revert d.
  induction e as [|[k v] e IH]; simpl; [done|].
  intros d Hd. by apply IH, is_dict_setitem.
Qed.

Lemma is_dict_of_pairs ps : is_dict (dict_of_pairs ps).
Proof. apply is_dict_update. apply NoDup_nil_2. Qed.

(** Updating with entries whose keys are new and pairwise distinct appends
    them in their order. *)
Lemma dict_update_fresh (d e : dict) :
  is_dict e → (∀ k, k ∈ dict_keys e → k ∉ dict_keys d) →
  dict_update d e = d ++ e.
Proof.
  unfold dict_update, is_dict. revert d.
  induction e as [|[k v] e IH]; simpl; intros d He Hfresh.
  - by rewrite app_nil_r.
  - apply NoDup_cons in He as [Hk He].
    rewrite dict_setitem_fresh by (apply Hfresh; left).
    rewrite IH; [by rewrite <- app_assoc | done |].
    intros k' Hk'. rewrite dict_keys_app, elem_of_app.
    intros [Hd | ->%list_elem_of_singleton]; [|done].
    by apply (Hfresh k'); [right|].
Qed.

(** ** The missing keys *)

Lemma missing_keys_foldl en_data lang_data :
  missing_keys en_data lang_data
  = foldl (missing_step en_data lang_data) [] (dict_keys en_data).
Proof. done. Qed.

Lemma missing_fold_is_dict R T ks acc :
  is_dict acc → is_dict (foldl (missing_step R T) acc ks).
Proof.
  revert acc. induction ks as [|k ks IH]; simpl; [done|].
  intros acc Hacc. apply IH. unfold missing_step.
  destruct (dict_contains k T); [done|].
  destruct (dict_get R k); [by apply is_dict_setitem | done].
Qed.

Lemma missing_fold_fresh R T ks acc :
  (∀ k, k ∈ dict_keys acc → k ∉ dict_keys T) →
  ∀ k, k ∈ dict_keys (foldl (missing_step R T) acc ks) → k ∉ dict_keys T.
Proof.
  revert acc. induction ks as [|k0 ks IH]; simpl; [done|].
  intros acc Hacc. apply IH. unfold missing_step.
  destruct (dict_contains k0 T) eqn:E; [done|].
  destruct (dict_get R k0); [|done].
  intros k. rewrite dict_keys_setitem.
  destruct (dict_contains k0 acc); [apply Hacc|].
  rewrite elem_of_app. intros [? | ->%list_elem_of_singleton]; [by apply Hacc|].
  by apply dict_contains_false.
Qed.

Lemma missing_fold_mono R T ks acc k :
  k ∈ dict_keys acc → k ∈ dict_keys (foldl (missing_step R T) acc ks).
Proof.
  revert acc. induction ks as [|k0 ks IH]; simpl; [done|].
  intros acc Hacc. apply IH. unfold missing_step.
  destruct (dict_contains k0 T); [done|].
  destruct (dict_get R k0); [|done].
  rewrite dict_keys_setitem.
  destruct (dict_contains k0 acc); [done|]. apply elem_of_app. by left.
Qed.

Lemma missing_fold_complete R T ks acc k :
  k ∈ ks → k ∈ dict_keys R → k ∉ dict_keys T →
  k ∈ dict_keys (foldl (missing_step R T) acc ks).
Proof.
  revert acc. induction ks as [|k0 ks IH]; simpl; intros acc Hin HR HT.
  - by apply elem_of_nil in Hin.
  - apply elem_of_cons in Hin as [<-|Hin]; [|by apply IH].
    apply missing_fold_mono. unfold missing_step.
    apply dict_contains_false in HT. rewrite HT.
    apply dict_get_is_Some in HR as [v ->].
    rewrite dict_keys_setitem.
    destruct (dict_contains k acc) eqn:E; [by apply dict_contains_keys|].
    apply elem_of_app. right. by apply list_elem_of_singleton.
Qed.

Lemma missing_keys_is_dict R T : is_dict (missing_keys R T).
Proof. apply missing_fold_is_dict, NoDup_nil_2. Qed.

Lemma missing_keys_fresh R T k :
  k ∈ dict_keys (missing_keys R T) → k ∉ dict_keys T.
Proof.
  apply (missing_fold_fresh R T (dict_keys R) []).
  by intros ? ?%elem_of_nil.
Qed.

Lemma missing_keys_complete R T k :
  k ∈ dict_keys R → k ∉ dict_keys T → k ∈ dict_keys (missing_keys R T).
Proof. intros. by apply missing_fold_complete. Qed.

(** The merge appends the missing entries to the target. *)
Lemma merged_app R T : merged R T = T ++ missing_keys R T.
Proof.
  apply dict_update_fresh; [apply missing_keys_is_dict|].
  apply missing_keys_fresh.
Qed.

Lemma missing_fold_filter R T (R1 R2 : dict) :
  R = R1 ++ R2 → is_dict R →
  foldl (missing_step R T) (List.filter (absent_from T) R1) (dict_keys R2)
  = List.filter (absent_from T) R.
Proof.
  revert R1. induction R2 as [|[k v] R2 IH]; intros R1 -> HR; simpl.
  - by rewrite app_nil_r.
  - assert (Hk : k ∉ dict_keys R1).
    { unfold is_dict in HR. rewrite dict_keys_app in HR.
      apply NoDup_app in HR as (_ & HR & _).
      intros Hk. apply (HR k Hk). simpl. left. }
    assert (Hget : dict_get (R1 ++ (k, v) :: R2) k = Some v).
    { rewrite dict_get_app_r by done. simpl. by rewrite decide_True. }
    specialize (IH (R1 ++ [(k, v)])).
    rewrite <- app_assoc in IH. simpl in IH.
    rewrite <- IH by done. f_equal.
    unfold missing_step at 1. rewrite Hget.
    rewrite List.filter_app. simpl. unfold absent_from. simpl.
    destruct (dict_contains k T); simpl; [by rewrite app_nil_r|].
    apply dict_setitem_fresh.
    intros Hin. apply Hk. unfold dict_keys in *.
    apply list_elem_of_fmap in Hin as ([k' v'] & -> & Hin).
    apply list_elem_of_In, List.filter_In in Hin as [Hin _].
    apply list_elem_of_fmap. exists (k', v'). by rewrite list_elem_of_In.
Qed.

Lemma missing_keys_filter R T :
  is_dict R → missing_keys R T = List.filter (absent_from T) R.
Proof. intros HR. by apply (missing_fold_filter R T [] R). Qed.

(** ** One locale *)

Section sync_lang.
Variables (filename : str) (en_data : dict) (total : nat) (lang_code : str).
Variable t : tree.

Lemma sync_lang_skipped :
  skipped lang_code = true →
  sync_lang filename en_data total lang_code t = (t, [], Return total).
Proof. unfold sync_lang, skipped. by intros ->. Qed.

Hypothesis Hvisit : skipped lang_code = false.

Lemma sync_lang_not_found :
  files t !! (lang_code, filename) = None →
  sync_lang filename en_data total lang_code t
  = (t, [NotFound lang_code filename], Return total).
Proof.
  intros Hf. unfold sync_lang. fold (skipped lang_code). rewrite Hvisit.
  unfold bind, path_exists. rewrite Hf.
  rewrite bool_decide_false by (by intros [? ?]). done.
Qed.

Variable content : str.
Hypothesis Hfile : files t !! (lang_code, filename) = Some content.

Local Ltac enter :=
  unfold sync_lang; fold (skipped lang_code); rewrite Hvisit;
  unfold bind, path_exists, load_json, bind, read_text; rewrite Hfile;
  rewrite bool_decide_true by done; simpl; rewrite Hfile.

Lemma sync_lang_malformed :
  json_loads content = None →
  sync_lang filename en_data total lang_code t = (t, [], Raise JSONDecodeError).
Proof. intros Hl. enter. by rewrite Hl. Qed.

Lemma sync_lang_not_object v :
  json_loads content = Some v → (∀ d, v ≠ JObj d) →
  sync_lang filename en_data total lang_code t = (t, [], Raise NotAnObject).
Proof.
  intros Hl Hv. enter. rewrite Hl.
  destruct v; try done. by destruct (Hv d).
Qed.

Variable lang_data : dict.
Hypothesis Hload : json_loads content = Some (JObj lang_data).

Lemma sync_lang_complete :
  missing_keys en_data lang_data = [] →
  sync_lang filename en_data total lang_code t
  = (t, [Complete lang_code], Return total).
Proof. intros Hm. enter. rewrite Hload. simpl. by rewrite Hm. Qed.

Lemma sync_lang_added :
  missing_keys en_data lang_data ≠ [] →
  encodable (dump_text content (merged en_data lang_data)) = true →
  sync_lang filename en_data total lang_code t
  = (with_file t (lang_code, filename)
       (dump_text content (merged en_data lang_data)),
     [Added lang_code (length (missing_keys en_data lang_data))],
     Return (total + length (missing_keys en_data lang_data))%nat).
Proof.
  intros Hm Henc. enter. rewrite Hload. simpl.
  destruct (missing_keys en_data lang_data) as [|kv m] eqn:E; [done|].
  simpl. unfold dump_json, bind, read_text, write_text. rewrite Hfile.
  fold (encodable (dump_text content (dict_update lang_data (kv :: m)))).
  rewrite <- E. fold (merged en_data lang_data). by rewrite Henc.
Qed.

Lemma sync_lang_unencodable :
  missing_keys en_data lang_data ≠ [] →
  encodable (dump_text content (merged en_data lang_data)) = false →
  sync_lang filename en_data total lang_code t
  = (with_file t (lang_code, filename) [], [], Raise UnicodeEncodeError).
Proof.
  intros Hm Henc. enter. rewrite Hload. simpl.
  destruct (missing_keys en_data lang_data) as [|kv m] eqn:E; [done|].
  simpl. unfold dump_json, bind, read_text, write_text. rewrite Hfile.
  fold (encodable (dump_text content (dict_update lang_data (kv :: m)))).
  rewrite <- E. fold (merged en_data lang_data). by rewrite Henc.
Qed.
End sync_lang.

(** ** The merge: claims on the mappings *)

(** C1. A key the target already has keeps its value in the merged mapping,
    and the target's entries are an unchanged prefix of the merged mapping:
    the merge adds entries and overwrites none. *)
Theorem merge_keeps_existing_values (R T : dict) (k : str) :
  k ∈ dict_keys T →
  dict_get (merged R T) k = dict_get T k ∧ T `prefix_of` merged R T.
Proof.
  intros Hk. rewrite merged_app. split.
  - by apply dict_get_app_l.
  - by exists (missing_keys R T).
Qed.

(** Every key of the reference and every key the target had is a key of
    the mapping handed to [dump_json]. *)
Lemma merge_key_superset (R T : dict) :
  dict_keys R ⊆ dict_keys (merged R T) ∧ dict_keys T ⊆ dict_keys (merged R T).
Proof.
  rewrite merged_app, dict_keys_app. split; intros k Hk; apply elem_of_app.
  - destruct (decide (k ∈ dict_keys T)); [by left|].
    right. by apply missing_keys_complete.
  - by left.
Qed.

(** C10. The merged mapping is the target followed by the added entries,
    none of which has a key of the target. *)
Theorem merge_preserves_order (R T : dict) :
  ∃ added : dict,
    merged R T = T ++ added
    ∧ Forall (λ k, k ∉ dict_keys T) (dict_keys added).
Proof.
  exists (missing_keys R T). split; [apply merged_app|].
  apply Forall_forall. intros k. apply missing_keys_fresh.
Qed.

(** ** The loop *)

Lemma for_each_app {A B} (body : B → A → M B) acc l1 l2 t :
  for_each body acc (l1 ++ l2) t
  = (a <- for_each body acc l1 ;; for_each body a l2) t.
Proof.
  revert acc t. induction l1 as [|x l1 IH]; intros acc t; simpl.
  - unfold bind, ret. by destruct (for_each body acc l2 t) as [[? ?] ?].
  - unfold bind.
    destruct (body acc x t) as [[t1 o1] [a|e]]; [|done].
    rewrite IH. unfold bind.
    destruct (for_each body a l1 t1) as [[t2 o2] [a'|e]]; [|done].
    destruct (for_each body a' l2 t2) as [[t3 o3] r].
    by rewrite app_assoc.
Qed.

(** An invariant of the tree and a property of every printed line carry
    over from the body to the loop. *)
Lemma for_each_inv {A B} (I : tree → Prop) (Q : event → Prop)
    (body : B → A → M B) :
  (∀ acc x t, I t → I (body acc x t).1.1 ∧ Forall Q (body acc x t).1.2) →
  ∀ l acc t, I t →
    I (for_each body acc l t).1.1 ∧ Forall Q (for_each body acc l t).1.2.
Proof.
  intros Hbody l. induction l as [|x l IH]; intros acc t Ht; simpl.
  - done.
  - unfold bind. specialize (Hbody acc x t Ht).
    destruct (body acc x t) as [[t1 o1] [a|e]]; simpl in *; [|done].
    destruct Hbody as [Ht1 Ho1]. specialize (IH a t1 Ht1).
    destruct (for_each body a l t1) as [[t2 o2] r]; simpl in *.
    destruct IH. split; [done|]. by apply Forall_app.
Qed.

Lemma sync_lang_cases filename en_data total lang_code t :
  sync_lang_result filename en_data total lang_code t
    (sync_lang filename en_data total lang_code t).
Proof.
  destruct (skipped lang_code) eqn:Hs.
  { rewrite sync_lang_skipped by done. by constructor. }
  destruct (files t !! (lang_code, filename)) as [content|] eqn:Hf.
  2: { rewrite sync_lang_not_found by done. by constructor. }
  destruct (json_loads content) as [v|] eqn:Hl.
  2: { erewrite sync_lang_malformed by done. by econstructor. }
  assert (Hv : (∃ d, v = JObj d) ∨ (∀ d, v ≠ JObj d))
    by (destruct v; eauto).
  destruct Hv as [[d ->]|Hv].
  2: { erewrite sync_lang_not_object by done. by econstructor. }
  destruct (decide (missing_keys en_data d = [])) as [Hm|Hm].
  { erewrite sync_lang_complete by done. by econstructor. }
  destruct (encodable (dump_text content (merged en_data d))) eqn:He.
  - erewrite sync_lang_added by done. by econstructor.
  - erewrite sync_lang_unencodable by done. by econstructor.
Qed.

(** [sync_lang] touches one file at most, the one of its locale. *)
Lemma sync_lang_frame filename en_data total lang_code t p :
  p ≠ (lang_code, filename) →
  files (sync_lang filename en_data total lang_code t).1.1 !! p = files t !! p.
Proof.
  intros Hp. destruct (sync_lang_cases filename en_data total lang_code t);
    simpl; by rewrite ?lookup_insert_ne.
Qed.

Lemma sync_lang_subdirs filename en_data total lang_code t :
  subdirs (sync_lang filename en_data total lang_code t).1.1 = subdirs t.
Proof.
  by destruct (sync_lang_cases filename en_data total lang_code t).
Qed.

Lemma sync_lang_never_writes_en filename en_data total lang_code t f :
  files (sync_lang filename en_data total lang_code t).1.1 !! (txt "en", f)
  = files t !! (txt "en", f).
Proof.
  destruct (skipped lang_code) eqn:Hs.
  - by rewrite sync_lang_skipped.
  - apply sync_lang_frame. intros [= <- _].
    unfold skipped in Hs. by rewrite bool_decide_true in Hs.
Qed.

Lemma missing_keys_nil R T :
  dict_keys R ⊆ dict_keys T → missing_keys R T = [].
Proof.
  intros Hsub. rewrite missing_keys_foldl.
  assert (H : ∀ ks, ks ⊆ dict_keys T → foldl (missing_step R T) [] ks = []).
  { induction ks as [|k ks IH]; simpl; [done|]. intros Hks.
    unfold missing_step at 2.
    replace (dict_contains k T) with true.
    - apply IH. set_solver.
    - symmetry. apply dict_contains_keys, Hks. left. }
  by apply H.
Qed.

(** ** Claims on [sync_file] and [main] *)




Section sync_file.
Variables (filename : str) (t : tree).

Lemma sync_file_no_reference :
  files t !! en_path filename = None →
  sync_file filename t = (t, [EnMissing filename], Return O).
Proof.
  intros Hf. unfold sync_file, bind, path_exists.
  fold (en_path filename). rewrite Hf.
  by rewrite bool_decide_false by (by intros [? ?]).
Qed.

Variable ref_content : str.
Hypothesis Href : files t !! en_path filename = Some ref_content.

Local Ltac enter :=
  unfold sync_file, bind, path_exists, load_json, bind, read_text;
  fold (en_path filename); rewrite Href;
  rewrite bool_decide_true by done; simpl; rewrite Href.

Lemma sync_file_malformed_reference :
  json_loads ref_content = None →
  sync_file filename t = (t, [], Raise JSONDecodeError).
Proof. intros Hl. enter. by rewrite Hl. Qed.

Lemma sync_file_reference_not_object v :
  json_loads ref_content = Some v → (∀ d, v ≠ JObj d) →
  sync_file filename t = (t, [], Raise NotAnObject).
Proof.
  intros Hl Hv. enter. rewrite Hl. destruct v; try done. by destruct (Hv d).
Qed.

Lemma sync_file_loop en_data :
  json_loads ref_content = Some (JObj en_data) →
  sync_file filename t
  = (let '(t', o, r) := locale_loop filename en_data t in
     (t', Header filename (length en_data) :: o, r)).
Proof.
  intros Hl. enter. rewrite Hl. simpl. unfold locale_loop.
  by destruct (for_each _ _ _ _) as [[? ?] ?].
Qed.
End sync_file.

(** C6. A target file that already has every key of the reference is the
    same text after [sync_file], and no line of the report counts keys
    added to its locale. *)
Theorem complete_target_is_not_written
    (filename lang_code ref_content content : str) (R T : dict) (t : tree) :
  files t !! en_path filename = Some ref_content →
  json_loads ref_content = Some (JObj R) →
  files t !! (lang_code, filename) = Some content →
  json_loads content = Some (JObj T) →
  dict_keys R ⊆ dict_keys T →
  missing_keys R T = []
  ∧ files (sync_file filename t).1.1 !! (lang_code, filename) = Some content
  ∧ Forall (λ e, ∀ n, e ≠ Added lang_code n) (sync_file filename t).1.2.
Proof.
  intros Href HR Hf HT Hsub.
  pose proof (missing_keys_nil R T Hsub) as Hm. split; [done|].
  erewrite sync_file_loop by done. unfold locale_loop.
  assert (Hbody : ∀ acc l t0,
    files t0 !! (lang_code, filename) = Some content →
    files (sync_lang filename R acc l t0).1.1 !! (lang_code, filename)
      = Some content
    ∧ Forall (λ e, ∀ n, e ≠ Added lang_code n)
        (sync_lang filename R acc l t0).1.2).
  { intros acc l t0 Ht.
    destruct (decide (l = lang_code)) as [->|Hne].
    - destruct (skipped lang_code) eqn:Hs.
      + by rewrite sync_lang_skipped.
      + erewrite sync_lang_complete by done. split; [done|].
        by apply Forall_singleton.
    - split.
      + rewrite sync_lang_frame; [done|congruence].
      + destruct (sync_lang_cases filename R acc l t0); simpl;
          repeat constructor; congruence. }
  destruct (for_each_inv _ _ _ Hbody (sorted (subdirs t)) O t Hf) as [H1 H2].
  destruct (for_each _ _ _ _) as [[t' o] r]. simpl in *.
  split; [done|]. by constructor.
Qed.

Lemma merge_keeps_existing_values_witness :
  dict_get (merged Ex.R Ex.T_fr) (txt "a.b") = Some (JStr (txt "Bonjour")).
Proof.
  destruct (merge_keeps_existing_values Ex.R Ex.T_fr (txt "a.b")) as [H _].
  - vm_compute. left.
  - rewrite H. vm_compute. reflexivity.
Defined.

Lemma complete_target_is_not_written_witness :
  files (sync_file Ex.common Ex.with_reference).1.1 !! (txt "es", Ex.common)
  = Some Ex.es_complete.
Proof.
  destruct (complete_target_is_not_written Ex.common (txt "es") Ex.reference
              Ex.es_complete Ex.R Ex.T_es Ex.with_reference) as (_ & H & _).
  - vm_compute. reflexivity.
  - vm_compute. reflexivity.
  - vm_compute. reflexivity.
  - vm_compute. reflexivity.
  - apply (bool_decide_unpack _). vm_compute. exact I.
  - exact H.
Defined.

(** C3, as the spec states it, fails: with a malformed German file the run
    raises at [de]; the French file, which lacks a key and comes later in
    the order, is left as it was, and the report has no entry for either. *)
Lemma malformed_file_is_not_isolated :
  json_loads Ex.de_malformed = None
  ∧ json_loads Ex.fr_tabs = Some (JObj Ex.T_fr)
  ∧ missing_keys Ex.R Ex.T_fr ≠ []
  ∧ main Ex.with_malformed
    = (Ex.with_malformed, [Header Ex.common 2], Raise JSONDecodeError).
Proof. split_and!; vm_compute; done. Qed.

(** C3, amended. A malformed target file makes [load_json] raise, and
    nothing catches the exception: [sync_file] ends with it at that locale.
    The locales sorted before it have been processed; the locales after it
    are neither read nor written, and nothing is printed for the file. *)
Theorem malformed_target_stops_sync_file
    (filename ref_content lang_code content : str) (R : dict)
    (before after : list str) (t t1 : tree) (o1 : list event) (n1 : nat) :
  files t !! en_path filename = Some ref_content →
  json_loads ref_content = Some (JObj R) →
  sorted (subdirs t) = before ++ lang_code :: after →
  for_each (sync_lang filename R) O before t = (t1, o1, Return n1) →
  skipped lang_code = false →
  files t1 !! (lang_code, filename) = Some content →
  json_loads content = None →
  sync_file filename t
  = (t1, Header filename (length R) :: o1, Raise JSONDecodeError).
Proof.
  intros Href HR Hsorted Hbefore Hs Hf Hl.
  erewrite sync_file_loop by done. unfold locale_loop.
  rewrite Hsorted, for_each_app. unfold bind at 1. rewrite Hbefore.
  simpl. unfold bind. erewrite sync_lang_malformed by done.
  by rewrite app_nil_r.
Qed.

Lemma malformed_target_stops_sync_file_witness :
  sync_file Ex.common Ex.with_malformed
  = (Ex.with_malformed, [Header Ex.common 2], Raise JSONDecodeError).
Proof.
  apply (malformed_target_stops_sync_file Ex.common Ex.reference (txt "de")
           Ex.de_malformed Ex.R [] [txt "en"; txt "fr"]
           Ex.with_malformed Ex.with_malformed [] O).
  - vm_compute. reflexivity.
  - vm_compute. reflexivity.
  - vm_compute. reflexivity.
  - vm_compute. reflexivity.
  - vm_compute. reflexivity.
  - vm_compute. reflexivity.
  - vm_compute. reflexivity.
Defined.

(** C4, as the spec states it, fails twice: without [en/common.json] the run
    ends with status 0, and with every reference file in place a malformed
    target file ends it with status 1. *)
Lemma missing_reference_is_not_fatal :
  (files Ex.without_reference !! en_path Ex.common = None
   ∧ exit_status (main Ex.without_reference) = 0%nat)
  ∧ (is_Some (files Ex.with_malformed !! en_path Ex.common)
     ∧ is_Some (files Ex.with_malformed !! en_path Ex.settings)
     ∧ exit_status (main Ex.with_malformed) = 1%nat).
Proof. split_and!; vm_compute; eauto. Qed.

(** Every way [sync_file] can go. *)
Lemma sync_file_cases filename t :
  sync_file filename t = (t, [EnMissing filename], Return O)
  ∨ (∃ e, sync_file filename t = (t, [], Raise e))
  ∨ (∃ ref_content en_data,
       files t !! en_path filename = Some ref_content
       ∧ json_loads ref_content = Some (JObj en_data)
       ∧ sync_file filename t
         = (let '(t', o, r) := locale_loop filename en_data t in
            (t', Header filename (length en_data) :: o, r))).
Proof.
  destruct (files t !! en_path filename) as [c|] eqn:Hf.
  2: { left. by apply sync_file_no_reference. }
  right. destruct (json_loads c) as [v|] eqn:Hl.
  2: { left. exists JSONDecodeError. by eapply sync_file_malformed_reference. }
  assert (Hv : (∃ d, v = JObj d) ∨ (∀ d, v ≠ JObj d)) by (destruct v; eauto).
  destruct Hv as [[d ->]|Hv].
  - right. exists c, d. split_and!; [done..|]. by eapply sync_file_loop.
  - left. exists NotAnObject. by eapply sync_file_reference_not_object.
Qed.

(** What every [sync_lang] preserves, [sync_file] preserves. *)
Lemma sync_file_inv (I : tree → Prop) filename t :
  (∀ en_data acc l t0, I t0 → I (sync_lang filename en_data acc l t0).1.1) →
  I t → I (sync_file filename t).1.1.
Proof.
  intros Hbody Ht.
  destruct (sync_file_cases filename t) as [->|[[e ->]|(c & d & _ & _ & ->)]];
    [done..|].
  unfold locale_loop.
  destruct (for_each_inv I (λ _, True) (sync_lang filename d)) with
    (l := sorted (subdirs t)) (acc := O) (t := t) as [H _].
  - intros acc l t0 Ht0. split; [by apply Hbody|].
    apply Forall_forall. done.
  - done.
  - by destruct (for_each _ _ _ _) as [[t' o] r].
Qed.

Lemma sync_file_never_writes_en filename t f :
  files (sync_file filename t).1.1 !! en_path f = files t !! en_path f.
Proof.
  apply (sync_file_inv (λ t', files t' !! en_path f = files t !! en_path f));
    [|done].
  intros en_data acc l t0 <-. apply sync_lang_never_writes_en.
Qed.

(** C4, amended. When a reference file is absent, [sync_file] prints a
    warning, leaves the tree as it is and returns 0 for that filename; the
    run goes on, and its exit status is the one the other filename gives. *)
Theorem missing_reference_skips_the_filename (filename : str) (t : tree) :
  files t !! en_path filename = None →
  sync_file filename t = (t, [EnMissing filename], Return O)
  ∧ (filename = txt "common.json" →
     exit_status (main t) = exit_status (sync_file (txt "settings.json") t))
  ∧ (filename = txt "settings.json" →
     exit_status (main t) = exit_status (sync_file (txt "common.json") t)).
Proof.
  intros Hf. split_and!.
  - by apply sync_file_no_reference.
  - intros ->. unfold main, bind.
    rewrite sync_file_no_reference by done.
    by destruct (sync_file _ t) as [[t2 o2] [n|e]].
  - intros ->. unfold main, bind.
    pose proof (sync_file_never_writes_en (txt "common.json") t
                  (txt "settings.json")) as Hen.
    destruct (sync_file (txt "common.json") t) as [[t1 o1] [n|e]]; [|done].
    simpl in Hen. rewrite sync_file_no_reference by congruence. done.
Qed.

Lemma missing_reference_skips_the_filename_witness :
  sync_file Ex.common Ex.without_reference
  = (Ex.without_reference, [EnMissing Ex.common], Return O).
Proof.
  apply (missing_reference_skips_the_filename Ex.common Ex.without_reference).
  vm_compute. reflexivity.
Defined.

(** C5. The code does not do what the claim says, and what its own comment
    announces: a tab-indented French file that lacks a key is detected as
    tab-indented, and is rewritten with four spaces and no tab;
    [line.count("    ") // 4] is 0 on every line of the document. *)
Theorem tab_indented_file_is_rewritten_with_spaces :
  detect_indent Ex.fr_tabs = [c_tab]
  ∧ dump_text Ex.fr_tabs (merged Ex.R Ex.T_fr) = Ex.fr_four_spaces
  ∧ (c_tab ∉ Ex.fr_four_spaces)
  ∧ files (main Ex.with_reference).1.1 !! (txt "fr", Ex.common)
    = Some Ex.fr_four_spaces.
Proof.
  split_and!; try (vm_compute; reflexivity).
  apply (bool_decide_unpack _). vm_compute. exact I.
Qed.

(** A space-indented original is written as [json.dumps] formats the data;
    the reference file has no part in the choice. *)
Lemma dump_text_spaces original_content data :
  c_tab ∉ take 100 original_content →
  dump_text original_content data = json_dumps data ++ [c_lf].
Proof.
  intros Hno. unfold dump_text, detect_indent.
  by rewrite (bool_decide_false _ Hno).
Qed.

(** On a line with eight runs of four spaces the replacement does take
    place, and reaches into the string: the text written is not JSON. *)
Lemma retab_line_reaches_into_a_string :
  dump_text Ex.fr_tabs Ex.spaced = Ex.spaced_tabs
  ∧ json_loads Ex.spaced_tabs = None.
Proof. split; vm_compute; reflexivity. Qed.

(** ** The order of the locales *)

Global Instance str_le_total : Total str_le.
Proof.
  unfold Total, str_le. intros a. induction a as [|x a IH]; intros [|y b]; simpl;
    [by left..|by right|].
  destruct (N.ltb_spec x y), (N.ltb_spec y x), (N.eqb_spec x y),
    (N.eqb_spec y x); try lia; try (by left); try (by right).
  apply IH.
Qed.

Global Instance str_le_trans : Transitive str_le.
Proof.
  unfold Transitive, str_le. intros a.
  induction a as [|x a IH]; intros [|y b] [|z c]; simpl; try done.
  destruct (N.ltb_spec x y), (N.ltb_spec y z), (N.ltb_spec x z),
    (N.eqb_spec x y), (N.eqb_spec y z), (N.eqb_spec x z);
    try lia; try done.
  apply IH.
Qed.

Global Instance str_le_antisymm : AntiSymm (=) str_le.
Proof.
  unfold AntiSymm, str_le. intros a.
  induction a as [|x a IH]; intros [|y b]; simpl; try done.
  destruct (N.ltb_spec x y), (N.ltb_spec y x), (N.eqb_spec x y),
    (N.eqb_spec y x); try lia; try done.
  intros H1 H2. subst. f_equal. by apply IH.
Qed.

Lemma sorted_Sorted l : Sorted str_le (sorted l).
Proof. apply Sorted_merge_sort. apply _. Qed.

Lemma sorted_Permutation l : sorted l ≡ₚ l.
Proof. apply merge_sort_Permutation. Qed.

(** The sorted list does not depend on the order of the listing. *)
Lemma sorted_perm l1 l2 : l1 ≡ₚ l2 → sorted l1 = sorted l2.
Proof.
  intros Hp. apply (Sorted_unique str_le); [apply sorted_Sorted..|].
  by rewrite !sorted_Permutation.
Qed.

(** The script looks at the listing only through [sorted]. *)
Lemma sync_lang_set_dirs ds filename en_data total lang_code t :
  sync_lang filename en_data total lang_code (set_dirs ds t)
  = (let r := sync_lang filename en_data total lang_code t in
     (set_dirs ds r.1.1, r.1.2, r.2)).
Proof.
  destruct (sync_lang_cases filename en_data total lang_code t); simpl.
  - by rewrite sync_lang_skipped.
  - by rewrite sync_lang_not_found.
  - by erewrite sync_lang_malformed.
  - by erewrite sync_lang_not_object.
  - by erewrite sync_lang_complete.
  - by erewrite sync_lang_added.
  - by erewrite sync_lang_unencodable.
Qed.

Lemma for_each_set_dirs ds filename en_data l acc t :
  for_each (sync_lang filename en_data) acc l (set_dirs ds t)
  = (let r := for_each (sync_lang filename en_data) acc l t in
     (set_dirs ds r.1.1, r.1.2, r.2)).
Proof.
  revert acc t. induction l as [|x l IH]; intros acc t; simpl; [done|].
  unfold bind. rewrite sync_lang_set_dirs.
  destruct (sync_lang filename en_data acc x t) as [[t1 o1] [a|e]]; simpl;
    [|done].
  rewrite IH. by destruct (for_each _ a l t1) as [[t2 o2] r].
Qed.

Lemma sync_file_subdirs filename t :
  subdirs (sync_file filename t).1.1 = subdirs t.
Proof.
  apply (sync_file_inv (λ t', subdirs t' = subdirs t)); [|done].
  intros en_data acc l t0 <-. apply sync_lang_subdirs.
Qed.

Lemma sync_file_set_dirs ds filename t :
  sorted ds = sorted (subdirs t) →
  sync_file filename (set_dirs ds t)
  = (let r := sync_file filename t in (set_dirs ds r.1.1, r.1.2, r.2)).
Proof.
  intros Hds.
  destruct (files t !! en_path filename) as [c|] eqn:Hc.
  2: { by rewrite !sync_file_no_reference. }
  destruct (json_loads c) as [v|] eqn:Hl.
  2: { by erewrite !sync_file_malformed_reference. }
  assert (Hv : (∃ d, v = JObj d) ∨ (∀ d, v ≠ JObj d)) by (destruct v; eauto).
  destruct Hv as [[d ->]|Hv].
  2: { by erewrite !sync_file_reference_not_object. }
  erewrite !sync_file_loop by done. unfold locale_loop. simpl.
  rewrite Hds, for_each_set_dirs.
  by destruct (for_each _ _ _ _) as [[t2 o2] r].
Qed.

Lemma main_set_dirs ds t :
  sorted ds = sorted (subdirs t) →
  main (set_dirs ds t) = (let r := main t in (set_dirs ds r.1.1, r.1.2, r.2)).
Proof.
  intros Hds. unfold main, bind. rewrite sync_file_set_dirs by done.
  pose proof (sync_file_subdirs (txt "common.json") t) as Hsub.
  destruct (sync_file (txt "common.json") t) as [[t1 o1] [n1|e]]; simpl in *;
    [|done].
  rewrite sync_file_set_dirs by (by rewrite Hsub).
  by destruct (sync_file (txt "settings.json") t1) as [[t2 o2] [n2|e]].
Qed.

(** The report follows the sorted order. *)
Lemma sync_lang_event_locale filename en_data total lang_code t :
  omap event_locale (sync_lang filename en_data total lang_code t).1.2
    `sublist_of` [lang_code].
Proof.
  destruct (sync_lang_cases filename en_data total lang_code t); simpl;
    solve [done | apply sublist_nil_l].
Qed.

Lemma for_each_event_locale filename en_data l acc t :
  omap event_locale (for_each (sync_lang filename en_data) acc l t).1.2
    `sublist_of` l.
Proof.
  revert acc t. induction l as [|x l IH]; intros acc t; simpl; [done|].
  unfold bind.
  pose proof (sync_lang_event_locale filename en_data acc x t) as Hx.
  destruct (sync_lang filename en_data acc x t) as [[t1 o1] [a|e]]; simpl in *.
  - specialize (IH a t1).
    destruct (for_each _ a l t1) as [[t2 o2] r]; simpl in *.
    rewrite omap_app. by apply (sublist_app _ [x]).
  - etrans; [done|]. by apply sublist_skip, sublist_nil_l.
Qed.

Lemma sync_file_event_locale filename t :
  omap event_locale (sync_file filename t).1.2 `sublist_of` sorted (subdirs t).
Proof.
  destruct (sync_file_cases filename t) as [->|[[e ->]|(c & d & _ & _ & ->)]];
    [apply sublist_nil_l..|].
  unfold locale_loop.
  pose proof (for_each_event_locale filename d (sorted (subdirs t)) O t) as H.
  by destruct (for_each _ _ _ _) as [[t' o] r].
Qed.

(** C9. Whatever order [iterdir] lists the directories in, the locales are
    taken in ascending order of their names; the lines of the report that
    name a locale follow that order; and two trees with the same
    directories and the same files give the same files, the same report
    and the same outcome. *)
Theorem locales_are_visited_in_sorted_order (filename : str) (t1 t2 : tree) :
  subdirs t1 ≡ₚ subdirs t2 →
  files t1 = files t2 →
  Sorted str_le (sorted (subdirs t1))
  ∧ sorted (subdirs t1) = sorted (subdirs t2)
  ∧ omap event_locale (sync_file filename t1).1.2
      `sublist_of` sorted (subdirs t1)
  ∧ observable (sync_file filename t1) = observable (sync_file filename t2)
  ∧ observable (main t1) = observable (main t2).
Proof.
  intros Hp Hf.
  pose proof (sorted_perm _ _ Hp) as Hs.
  assert (Ht : t1 = set_dirs (subdirs t1) t2).
  { destruct t1, t2. unfold set_dirs. simpl in *. by subst. }
  split_and!.
  - apply sorted_Sorted.
  - done.
  - apply sync_file_event_locale.
  - rewrite Ht at 1. by rewrite sync_file_set_dirs.
  - rewrite Ht at 1. by rewrite main_set_dirs.
Qed.

Lemma locales_are_visited_in_sorted_order_witness :
  sorted (subdirs Ex.with_reference)
  = [txt ".git"; txt "en"; txt "es"; txt "fr"; txt "it"]
  ∧ observable (main Ex.with_reference)
    = observable (main (set_dirs [txt "it"; txt "es"; txt "fr"; txt ".git";
                                   txt "en"] Ex.with_reference)).
Proof.
  destruct (locales_are_visited_in_sorted_order Ex.common Ex.with_reference
              (set_dirs [txt "it"; txt "es"; txt "fr"; txt ".git"; txt "en"]
                 Ex.with_reference)) as (_ & _ & _ & _ & H).
  - apply (bool_decide_unpack _). vm_compute. exact I.
  - reflexivity.
  - split; [vm_compute; reflexivity | exact H].
Defined.

(** ** Reading back what [json.dumps] wrote *)

Lemma json_nested_ind (P : json → Prop) :
  P JNull → (∀ b, P (JBool b)) → (∀ z, P (JInt z)) → (∀ f, P (JFloat f)) →
  (∀ s, P (JStr s)) →
  (∀ l, Forall P l → P (JArr l)) →
  (∀ d, Forall (λ kv, P kv.2) d → P (JObj d)) →
  ∀ v, P v.
Proof.
  intros Hnull Hbool Hint Hfloat Hstr Harr Hobj.
  fix IH 1. intros [| | | | |l|d]; [done..| |].
  - apply Harr. induction l as [|x l IHl]; constructor; [apply IH|apply IHl].
  - apply Hobj. induction d as [|[k x] d IHd]; constructor;
      [apply IH|apply IHd].
Qed.

Lemma scanstring_escape_char c r :
  scanstring (escape_char c ++ r) = scons c (scanstring r).
Proof.
  unfold escape_char, c_backslash, c_quote, c_lf, c_cr, c_tab.
  destruct (N.eqb_spec c 92) as [->|H1]; [done|].
  destruct (N.eqb_spec c 34) as [->|H2]; [done|].
  destruct (N.eqb_spec c 8) as [->|H3]; [done|].
  destruct (N.eqb_spec c 12) as [->|H4]; [done|].
  destruct (N.eqb_spec c 10) as [->|H5]; [done|].
  destruct (N.eqb_spec c 13) as [->|H6]; [done|].
  destruct (N.eqb_spec c 9) as [->|H7]; [done|].
  destruct (N.ltb_spec c 32) as [Hlt|Hge].
  - destruct c as [|p]; [done|].
    do 5 (try destruct p as [p|p|]); try done; lia.
  - simpl. unfold c_quote, c_backslash.
    destruct (N.eqb_spec c 34); [done|].
    destruct (N.eqb_spec c 92); [done|].
    destruct (N.ltb_spec c 32); [lia|done].
Qed.

(** A string is read back as it was. *)
Lemma scanstring_encode s r :
  scanstring (List.concat (escape_char <$> s) ++ c_quote :: r) = Some (s, r).
Proof.
  induction s as [|c s IH]; csimpl; [done|].
  by rewrite <- app_assoc, scanstring_escape_char, IH.
Qed.

Lemma head_not_delimited bad rest :
  bad 44 = false → bad c_lf = false → delimited rest → head_not bad rest.
Proof. intros H1 H2. destruct rest as [|c r]; [done|]. by intros [->| ->]. Qed.

Lemma uint_nil_or (d : Decimal.uint) : d = Decimal.Nil ∨ d ≠ Decimal.Nil.
Proof. destruct d; by eauto. Qed.

Lemma chars_of_uint_head d :
  d ≠ Decimal.Nil → ∃ c r, chars_of_uint d = c :: r ∧ is_digit c = true.
Proof. destruct d; [done|by eexists _, _..]. Qed.

Lemma take_digits_chars d rest :
  head_not is_digit rest → take_digits (chars_of_uint d ++ rest) = (d, rest).
Proof.
  intros Hr. induction d; simpl; rewrite ?IHd; try done.
  destruct rest as [|c r]; [done|]. simpl in *. by rewrite Hr.
Qed.

Lemma to_uint_unorm p : Decimal.unorm (Pos.to_uint p) = Pos.to_uint p.
Proof.
  rewrite <- (DecimalPos.Unsigned.to_of (Pos.to_uint p)).
  by rewrite DecimalPos.Unsigned.of_to.
Qed.

(** The decimal digits of a positive number do not start with [0]. *)
Lemma to_uint_head p :
  ∃ c r, chars_of_uint (Pos.to_uint p) = c :: r
         ∧ is_digit c = true ∧ c ≠ 48.
Proof.
  pose proof (DecimalPos.Unsigned.to_uint_nonnil p) as Hnil.
  pose proof (DecimalPos.Unsigned.to_uint_nonzero p) as Hzero.
  pose proof (to_uint_unorm p) as Hnorm.
  destruct (Pos.to_uint p) as [|u|u|u|u|u|u|u|u|u|u]; try done;
    try (eexists _, _; by split_and!).
  exfalso. rewrite DecimalFacts.unorm_D0 in Hnorm.
  assert (Hu : u ≠ Decimal.Nil) by (by intros ->).
  pose proof (DecimalFacts.nb_digits_unorm u Hu) as Hle.
  rewrite Hnorm in Hle. simpl in Hle. lia.
Qed.

Lemma scan_number_sign s :
  scan_number s
  = match s with
    | c :: r => if c =? 45 then scan_unsigned true r else scan_unsigned false s
    | [] => None
    end.
Proof.
  destruct s as [|c r]; [done|]. unfold scan_number.
  by destruct (c =? 45).
Qed.

(** The integer part of a literal is read back. *)
Lemma scan_unsigned_int neg n rest :
  head_not is_digit rest →
  scan_unsigned neg (chars_of_uint (N.to_uint n) ++ rest)
  = (let '(frac, r1) := scan_frac rest in
     let '(upper, sg, ed, r2) := scan_exp r1 in
     Some (match frac, ed with
           | Decimal.Nil, Decimal.Nil =>
               JInt (if neg then - Z.of_N n else Z.of_N n)%Z
           | _, _ => JFloat (Finite (FloatLiteral neg n frac upper sg ed))
           end, r2)).
Proof.
  intros Hr. destruct n as [|p]; [done|].
  change (N.to_uint (N.pos p)) with (Pos.to_uint p).
  destruct (to_uint_head p) as (c & r & Hc & Hd & H0).
  pose proof (take_digits_chars (Pos.to_uint p) rest Hr) as Ht.
  rewrite Hc in *. unfold scan_unsigned. simpl app in *. cbv beta iota.
  rewrite Hd. apply N.eqb_neq in H0. rewrite H0, Ht.
  unfold N.of_uint. by rewrite DecimalPos.Unsigned.of_to.
Qed.

Lemma scan_frac_none rest :
  head_not (λ c, c =? 46) rest → scan_frac rest = (Decimal.Nil, rest).
Proof. destruct rest as [|c r]; [done|]. simpl. by intros ->. Qed.

(** The fraction of a literal is read back. *)
Lemma scan_frac_chars d rest :
  head_not is_digit rest → head_not (λ c, c =? 46) rest →
  scan_frac (frac_chars d ++ rest) = (d, rest).
Proof.
  intros Hr Hdot.
  destruct (uint_nil_or d) as [->|Hd]; [by apply scan_frac_none|].
  destruct (chars_of_uint_head d Hd) as (c & r & Hc & Hdig).
  pose proof (take_digits_chars d rest Hr) as Ht.
  replace (frac_chars d) with (46 :: chars_of_uint d) by (by destruct d).
  rewrite Hc in *. simpl. simpl in Ht. rewrite Hdig in *. done.
Qed.

Lemma scan_exp_none rest :
  head_not (λ c, (c =? 101) || (c =? 69)) rest →
  scan_exp rest = (false, ExpBare, Decimal.Nil, rest).
Proof. destruct rest as [|c r]; [done|]. simpl. by intros ->. Qed.

(** The exponent of a literal is read back; without digits there is none. *)
Lemma scan_exp_chars upper sg d rest :
  delimited rest →
  scan_exp (exp_chars upper sg d ++ rest)
  = (match d with
     | Decimal.Nil => (false, ExpBare, Decimal.Nil)
     | _ => (upper, sg, d)
     end, rest).
Proof.
  intros Hr.
  pose proof (head_not_delimited is_digit rest eq_refl eq_refl Hr) as Hdig.
  destruct (uint_nil_or d) as [->|Hd].
  { apply scan_exp_none. by apply head_not_delimited. }
  destruct (chars_of_uint_head d Hd) as (c & r & Hc & Hc').
  pose proof (take_digits_chars d rest Hdig) as Ht. rewrite Hc in Ht.
  replace (exp_chars upper sg d)
    with ((if upper then 69 else 101) :: exp_sign_chars sg ++ chars_of_uint d)
    by (by destruct d).
  rewrite Hc.
  assert (c ≠ 43 ∧ c ≠ 45) as [H43 H45].
  { unfold is_digit in Hc'.
    apply andb_true_iff in Hc' as [?%N.leb_le ?%N.leb_le]. lia. }
  apply N.eqb_neq in H43, H45.
  destruct upper, sg; simpl in *; rewrite ?Hc', ?H43, ?H45; simpl;
    rewrite ?Hc'; simpl in Ht; rewrite ?Hc' in Ht; rewrite Ht;
    by destruct d.
Qed.

Lemma head_not_exp_chars bad upper sg d rest :
  bad 69 = false → bad 101 = false → bad 44 = false → bad c_lf = false →
  delimited rest → head_not bad (exp_chars upper sg d ++ rest).
Proof.
  intros ? ? ? ? Hr. destruct d; try (by destruct upper).
  by apply head_not_delimited.
Qed.

Lemma head_not_digit_frac_chars d s : 
  head_not is_digit s → head_not is_digit (frac_chars d ++ s).
Proof. by destruct d. Qed.

(** A float literal is read back, in its normal form. *)
Lemma scan_number_literal l rest :
  delimited rest →
  scan_number (float_repr (Finite l) ++ rest) = Some (norm_float l, rest).
Proof.
  intros Hr. destruct l as [neg n frac upper sg ed]. unfold float_repr. simpl.
  assert (Hrest : scan_unsigned neg
    (chars_of_uint (N.to_uint n) ++ frac_chars frac ++ exp_chars upper sg ed
     ++ rest)
    = Some (norm_float (FloatLiteral neg n frac upper sg ed), rest)).
  { rewrite scan_unsigned_int.
    2: { apply head_not_digit_frac_chars. by apply head_not_exp_chars. }
    rewrite scan_frac_chars; [|by apply head_not_exp_chars..].
    rewrite scan_exp_chars by done. unfold norm_float. simpl.
    by destruct frac, ed. }
  rewrite scan_number_sign. destruct neg; simpl.
  - rewrite <- !app_assoc. exact Hrest.
  - rewrite <- !app_assoc.
    assert (∃ c r, chars_of_uint (N.to_uint n) = c :: r ∧ is_digit c = true)
      as (c & r & Hc & Hd).
    { destruct n as [|p]; [by eexists _, _|].
      destruct (to_uint_head p) as (c & r & ? & ? & _). eauto. }
    rewrite Hc in *. simpl.
    assert ((c =? 45) = false) as -> by (apply N.eqb_neq; by intros ->).
    exact Hrest.
Qed.

(** An integer is read back as it was. *)
Lemma scan_number_int_repr z rest :
  delimited rest → scan_number (int_repr z ++ rest) = Some (JInt z, rest).
Proof.
  intros Hr.
  pose proof (scan_number_literal
    (FloatLiteral (bool_decide (z < 0)%Z) (Z.abs_N z) Decimal.Nil
       false ExpBare Decimal.Nil) rest Hr) as H.
  unfold float_repr, norm_float in H. cbn [f_neg f_int f_frac f_upper f_sign f_exp frac_chars exp_chars] in H.
  rewrite !app_nil_r in H.
  destruct z as [|p|p]; exact H.
Qed.

Lemma scan_once_S n s :
  scan_once (S n) s = scan_once_body (object_pairs n) (array_items n) s.
Proof. done. Qed.

Lemma object_pairs_S n s :
  object_pairs (S n) s = object_pairs_body (scan_once n) (object_pairs n) s.
Proof. done. Qed.

Lemma array_items_S n s :
  array_items (S n) s = array_items_body (scan_once n) (array_items n) s.
Proof. done. Qed.

Lemma skip_ws_spaces n s : skip_ws (replicate n c_space ++ s) = skip_ws s.
Proof. induction n as [|n IH]; simpl; done. Qed.

Lemma skip_ws_newline_indent level s :
  skip_ws (newline_indent level ++ s) = skip_ws s.
Proof. unfold newline_indent. simpl. apply skip_ws_spaces. Qed.

Lemma skip_ws_id c s : is_ws c = false → skip_ws (c :: s) = c :: s.
Proof. intros H. simpl. by rewrite H. Qed.

Lemma number_head_not_ws c :
  is_digit c = true ∨ c = 45 → is_ws c = false ∧ c ≠ 93.
Proof.
  intros [Hd| ->]; [|done].
  unfold is_digit in Hd. unfold is_ws, c_space, c_tab, c_lf, c_cr.
  apply andb_true_iff in Hd as [H1%N.leb_le H2%N.leb_le].
  split; [|lia].
  repeat (apply orb_false_iff; split); apply N.eqb_neq; lia.
Qed.

Lemma literal_head l :
  ∃ c r, float_repr (Finite l) = c :: r ∧ (is_digit c = true ∨ c = 45).
Proof.
  destruct l as [[] n frac upper sg ed]; unfold float_repr; simpl.
  { eexists _, _. split; [done|by right]. }
  destruct n as [|p]; [eexists _, _; split; [done|by left]|].
  change (N.to_uint (N.pos p)) with (Pos.to_uint p).
  destruct (to_uint_head p) as (c & r & -> & Hd & _). simpl. eauto.
Qed.

Lemma int_repr_head z :
  ∃ c r, int_repr z = c :: r ∧ (is_digit c = true ∨ c = 45).
Proof.
  destruct z as [|p|p]; simpl.
  - eexists _, _. split; [done|by left].
  - destruct (to_uint_head p) as (c & r & -> & Hd & _). eauto.
  - eexists _, _. split; [done|by right].
Qed.

Lemma iterencode_head level v :
  ∃ c r, iterencode level v = c :: r ∧ is_ws c = false ∧ c ≠ 93.
Proof.
  destruct v as [|[]|z|[l| |[]]|s|[|x l]|[|kv d]]; cbn [iterencode];
    try (eexists _, _; split_and!; [done..]).
  - destruct (int_repr_head z) as (c & r & -> & Hc).
    exists c, r. split; [done|]. by apply number_head_not_ws.
  - destruct (literal_head l) as (c & r & -> & Hc).
    exists c, r. split; [done|]. by apply number_head_not_ws.
Qed.

Lemma join_cons2 sep (p q : str) ps :
  join sep (p :: q :: ps) = p ++ sep ++ join sep (q :: ps).
Proof. done. Qed.

Arguments newline_indent : simpl never.
Arguments item_separator : simpl never.
Arguments scan_once : simpl never.
Arguments array_items : simpl never.
Arguments object_pairs : simpl never.
Arguments scanstring : simpl never.

Lemma skip_ws_iterencode level v s :
  skip_ws (iterencode level v ++ s) = iterencode level v ++ s.
Proof.
  destruct (iterencode_head level v) as (c & r & -> & Hc & _).
  by apply skip_ws_id.
Qed.

Lemma skip_ws_join_items level items s :
  items ≠ [] →
  skip_ws (join (item_separator level) (List.map (iterencode level) items) ++ s)
  = join (item_separator level) (List.map (iterencode level) items) ++ s.
Proof.
  destruct items as [|x [|y items]]; [done|..]; intros _.
  - apply skip_ws_iterencode.
  - cbn [List.map]. rewrite join_cons2, <- app_assoc. apply skip_ws_iterencode.
Qed.

Lemma delimited_newline_indent level s : delimited (newline_indent level ++ s).
Proof. by right. Qed.

Lemma delimited_comma s : delimited (44 :: s).
Proof. by left. Qed.

Lemma item_separator_app level s :
  item_separator level ++ s = 44 :: newline_indent level ++ s.
Proof. done. Qed.

Lemma length_item_separator level :
  length (item_separator level) = S (length (newline_indent level)).
Proof. done. Qed.

Lemma array_items_join level level' items :
  Forall reads_back items → items ≠ [] →
  ∀ n rest,
    (length (join (item_separator level) (List.map (iterencode level) items))
     < n)%nat →
    array_items n
      (join (item_separator level) (List.map (iterencode level) items)
       ++ newline_indent level' ++ 93 :: rest)
    = Some (List.map norm items, rest).
Proof.
  intros Hall. induction Hall as [|x items Hx Hall IH]; [done|].
  intros _ n rest Hn. destruct n as [|n]; [lia|].
  rewrite array_items_S. unfold array_items_body.
  destruct items as [|y items].
  - cbn [List.map join] in *. rewrite Hx; [|apply delimited_newline_indent|lia].
    rewrite skip_ws_newline_indent. by rewrite skip_ws_id.
  - cbn [List.map] in *. rewrite join_cons2 in *.
    rewrite !length_app in Hn.
    rewrite <- !app_assoc. rewrite Hx; [|apply delimited_comma|lia].
    rewrite item_separator_app, skip_ws_id by done.
    change (44 =? 93) with false. change (44 =? 44) with true.
    cbv beta iota. rewrite skip_ws_newline_indent.
    change (iterencode level y :: List.map (iterencode level) items)
      with (List.map (iterencode level) (y :: items)).
    rewrite skip_ws_join_items by done.
    rewrite IH; [done|done|].
    cbn [List.map]. rewrite length_item_separator in Hn. lia.
Qed.

Lemma member_quote level kv : member level kv = c_quote :: member_tail level kv.
Proof.
  unfold member, member_tail, encode_basestring. simpl.
  by rewrite <- !app_assoc.
Qed.

Arguments members_tail : simpl never.
Arguments member_tail : simpl never.

Lemma members_tail_cons2 level kv kv' d :
  members_tail level (kv :: kv' :: d)
  = member_tail level kv ++ item_separator level
    ++ c_quote :: members_tail level (kv' :: d).
Proof. done. Qed.

Lemma join_members level d :
  d ≠ [] →
  join (item_separator level) (List.map (member level) d)
  = c_quote :: members_tail level d.
Proof.
  induction d as [|kv [|kv' d] IH]; [done|..]; intros _.
  - cbn [List.map join members_tail]. apply member_quote.
  - cbn [List.map] in *. rewrite join_cons2, members_tail_cons2, IH by done.
    rewrite member_quote. done.
Qed.

Lemma length_member level kv :
  (length (iterencode level kv.2) + 3 ≤ length (member_tail level kv))%nat.
Proof. unfold member_tail. rewrite !length_app. simpl. lia. Qed.

Lemma scan_member_tail level kv s :
  scanstring (member_tail level kv ++ s)
  = Some (kv.1, txt ": " ++ iterencode level kv.2 ++ s).
Proof.
  unfold member_tail. rewrite <- !app_assoc. simpl app at 2.
  by rewrite scanstring_encode.
Qed.

Lemma object_pairs_members level level' d :
  Forall (λ kv, reads_back kv.2) d → d ≠ [] →
  ∀ n rest,
    (length (members_tail level d) < n)%nat →
    object_pairs n (members_tail level d ++ newline_indent level' ++ 125 :: rest)
    = Some (List.map (λ kv, (kv.1, norm kv.2)) d, rest).
Proof.
  intros Hall. induction Hall as [|[k v] d Hv Hall IH]; [done|].
  intros _ n rest Hn. destruct n as [|n]; [lia|].
  rewrite object_pairs_S. unfold object_pairs_body.
  pose proof (length_member level (k, v)) as Hlen. cbn [snd] in Hv, Hlen.
  destruct d as [|kv' d].
  - change (members_tail level [(k, v)]) with (member_tail level (k, v)) in *.
    rewrite scan_member_tail. simpl fst. simpl snd.
    change (skip_ws (txt ": " ++ ?s)) with (58 :: 32 :: s).
    cbv beta iota. change (58 =? 58) with true. cbv beta iota.
    change (skip_ws (32 :: ?s)) with (skip_ws s).
    rewrite skip_ws_iterencode.
    rewrite Hv; [|apply delimited_newline_indent|lia].
    rewrite skip_ws_newline_indent. by rewrite skip_ws_id.
  - rewrite members_tail_cons2 in *.
    rewrite <- !app_assoc, scan_member_tail. simpl fst. simpl snd.
    change (skip_ws (txt ": " ++ ?s)) with (58 :: 32 :: s).
    cbv beta iota. change (58 =? 58) with true. cbv beta iota.
    change (skip_ws (32 :: ?s)) with (skip_ws s).
    rewrite skip_ws_iterencode.
    rewrite !length_app, length_item_separator in Hn. cbn [length] in Hn.
    rewrite Hv; [|apply delimited_comma|lia].
    rewrite item_separator_app, skip_ws_id by done.
    change (44 =? 125) with false. change (44 =? 44) with true.
    cbv beta iota. rewrite skip_ws_newline_indent.
    rewrite <- app_comm_cons, skip_ws_id by done.
    change (c_quote =? c_quote) with true. cbv beta iota.
    rewrite (IH ltac:(done) n rest); [done|]. lia.
Qed.

Lemma scan_once_number n s c r :
  s = c :: r → is_digit c = true ∨ c = 45 →
  scan_once (S n) s
  = match scan_number s with
    | Some x => Some x
    | None => scan_constant s
    end.
Proof.
  intros -> Hc. rewrite scan_once_S. unfold scan_once_body, c_quote.
  assert (c ≠ 34 ∧ c ≠ 123 ∧ c ≠ 91 ∧ c ≠ 110 ∧ c ≠ 116 ∧ c ≠ 102)
    as (H1 & H2 & H3 & H4 & H5 & H6).
  { destruct Hc as [Hc| ->]; [|done]. unfold is_digit in Hc.
    apply andb_true_iff in Hc as [?%N.leb_le ?%N.leb_le]. lia. }
  apply N.eqb_neq in H1, H2, H3. rewrite H1, H2, H3.
  change (txt "null") with [110; 117; 108; 108].
  change (txt "true") with [116; 114; 117; 101].
  change (txt "false") with [102; 97; 108; 115; 101].
  cbn [strip_prefix].
  assert ((110 =? c) = false) as -> by (apply N.eqb_neq; lia).
  assert ((116 =? c) = false) as -> by (apply N.eqb_neq; lia).
  assert ((102 =? c) = false) as -> by (apply N.eqb_neq; lia).
  done.
Qed.

Lemma join_items_head level items :
  items ≠ [] →
  ∃ c r, join (item_separator level) (List.map (iterencode level) items)
         = c :: r ∧ c ≠ 93.
Proof.
  destruct items as [|x [|y items]]; [done|..]; intros _; cbn [List.map].
  - cbn [join]. destruct (iterencode_head level x) as (c & r & -> & _ & ?).
    eauto.
  - rewrite join_cons2.
    destruct (iterencode_head level x) as (c & r & -> & _ & ?).
    simpl. eauto.
Qed.

Lemma iterencode_arr level x l :
  iterencode level (JArr (x :: l))
  = 91 :: newline_indent (S level)
    ++ join (item_separator (S level))
            (List.map (iterencode (S level)) (x :: l))
    ++ newline_indent level ++ [93].
Proof. done. Qed.

Lemma iterencode_obj level kv d :
  iterencode level (JObj (kv :: d))
  = 123 :: newline_indent (S level)
    ++ join (item_separator (S level)) (List.map (member (S level)) (kv :: d))
    ++ newline_indent level ++ [125].
Proof. done. Qed.

(** [json.loads] reads back what [json.dumps] wrote. *)
Lemma scan_once_iterencode v : reads_back v.
Proof.
  induction v as [|b|z|f|s|l IH|d IH] using json_nested_ind;
    intros level n rest Hr Hn.
  - destruct n as [|n]; [simpl in Hn; lia|]. done.
  - destruct n as [|n]; [destruct b; simpl in Hn; lia|]. by destruct b.
  - destruct n as [|n].
    { destruct (int_repr_head z) as (c & r & Hz & _).
      simpl in Hn. rewrite Hz in Hn. simpl in Hn. lia. }
    destruct (int_repr_head z) as (c & r & Hz & Hc). simpl iterencode.
    erewrite scan_once_number; [by rewrite scan_number_int_repr| |done].
    rewrite Hz. done.
  - destruct f as [l| |[]];
      [|destruct n as [|n]; [simpl in Hn; lia|done]..].
    destruct n as [|n].
    { destruct (literal_head l) as (c & r & Hl & _).
      cbn [iterencode] in Hn. rewrite Hl in Hn. simpl in Hn. lia. }
    destruct (literal_head l) as (c & r & Hl & Hc). cbn [iterencode norm].
    erewrite scan_once_number; [by rewrite scan_number_literal| |done].
    rewrite Hl. done.
  - destruct n as [|n]; [simpl in Hn; lia|].
    rewrite scan_once_S. simpl iterencode. unfold encode_basestring.
    simpl app. rewrite <- app_assoc. simpl app.
    unfold scan_once_body. change (c_quote =? c_quote) with true.
    cbv beta iota. by rewrite scanstring_encode.
  - destruct l as [|x l]; [destruct n; [simpl in Hn; lia|done]|].
    rewrite iterencode_arr in *. cbn [norm].
    rewrite !length_cons, !length_app in Hn.
    destruct n as [|n]; [lia|].
    rewrite scan_once_S, <- app_comm_cons, <- !app_assoc.
    change ([93] ++ rest) with (93 :: rest).
    unfold scan_once_body.
    change (91 =? c_quote) with false. change (91 =? 123) with false.
    change (91 =? 91) with true. cbv beta iota.
    rewrite skip_ws_newline_indent, skip_ws_join_items by done.
    destruct (join_items_head (S level) (x :: l)) as (c & r & Hj & Hc);
      [done|].
    pose proof (array_items_join (S level) level (x :: l) IH ltac:(done) n rest)
      as Harr.
    rewrite Hj in *. rewrite <- app_comm_cons in *.
    apply N.eqb_neq in Hc. rewrite Hc. rewrite Harr; [done|]. cbn [length] in *. lia.
  - destruct d as [|kv d]; [destruct n; [simpl in Hn; lia|done]|].
    rewrite iterencode_obj in *. cbn [norm].
    rewrite !length_cons, !length_app in Hn.
    destruct n as [|n]; [lia|].
    rewrite scan_once_S, <- app_comm_cons, <- !app_assoc.
    change ([125] ++ rest) with (125 :: rest).
    unfold scan_once_body.
    change (123 =? c_quote) with false. change (123 =? 123) with true.
    cbv beta iota. rewrite skip_ws_newline_indent.
    rewrite join_members in * by done.
    pose proof (object_pairs_members (S level) level (kv :: d) IH ltac:(done)
                  n rest) as Hobj.
    rewrite <- app_comm_cons, skip_ws_id by done.
    change (c_quote =? 125) with false.
    change (c_quote =? c_quote) with true. cbv beta iota.
    rewrite Hobj; [done|]. cbn [length] in *. lia.
Qed.

(** ** More fuel changes no result *)

Lemma scan_once_body_mono obj obj' arr arr' :
  refines obj obj' → refines arr arr' →
  refines (scan_once_body obj arr) (scan_once_body obj' arr').
Proof.
  intros Ho Ha s r. unfold scan_once_body.
  destruct s as [|c s]; [done|].
  destruct (c =? c_quote); [done|].
  destruct (c =? 123).
  { destruct (skip_ws s) as [|c' r']; [done|].
    destruct (c' =? 125); [done|]. destruct (c' =? c_quote); [|done].
    destruct (obj r') as [[ps rest]|] eqn:E; [|done].
    by rewrite (Ho _ _ E). }
  destruct (c =? 91); [|done].
  destruct (skip_ws s) as [|c' r']; [done|].
  destruct (c' =? 93); [done|].
  destruct (arr _) as [[vs rest]|] eqn:E; [|done].
  by rewrite (Ha _ _ E).
Qed.

Lemma object_pairs_body_mono once once' obj obj' :
  refines once once' → refines obj obj' →
  refines (object_pairs_body once obj) (object_pairs_body once' obj').
Proof.
  intros Hv Ho s r. unfold object_pairs_body.
  destruct (scanstring s) as [[key s1]|]; [|done].
  destruct (skip_ws s1) as [|c s2]; [done|].
  destruct (c =? 58); [|done].
  destruct (once _) as [[v s3]|] eqn:E; [|done]. rewrite (Hv _ _ E).
  destruct (skip_ws s3) as [|c' s4]; [done|].
  destruct (c' =? 125); [done|]. destruct (c' =? 44); [|done].
  destruct (skip_ws s4) as [|q s5]; [done|].
  destruct (q =? c_quote); [|done].
  destruct (obj _) as [[ps rest]|] eqn:E'; [|done].
  by rewrite (Ho _ _ E').
Qed.

Lemma array_items_body_mono once once' arr arr' :
  refines once once' → refines arr arr' →
  refines (array_items_body once arr) (array_items_body once' arr').
Proof.
  intros Hv Ha s r. unfold array_items_body.
  destruct (once _) as [[v s1]|] eqn:E; [|done]. rewrite (Hv _ _ E).
  destruct (skip_ws s1) as [|c s2]; [done|].
  destruct (c =? 93); [done|]. destruct (c =? 44); [|done].
  destruct (arr _) as [[vs rest]|] eqn:E'; [|done].
  by rewrite (Ha _ _ E').
Qed.

Lemma scanner_fuel_S n :
  refines (scan_once n) (scan_once (S n))
  ∧ refines (object_pairs n) (object_pairs (S n))
  ∧ refines (array_items n) (array_items (S n)).
Proof.
  induction n as [|n (IH1 & IH2 & IH3)]; [done|].
  split_and!; intros s r.
  - rewrite !scan_once_S. by apply scan_once_body_mono.
  - rewrite !object_pairs_S. by apply object_pairs_body_mono.
  - rewrite !array_items_S. by apply array_items_body_mono.
Qed.

Lemma scan_once_fuel_le n m s r :
  (n ≤ m)%nat → scan_once n s = Some r → scan_once m s = Some r.
Proof.
  induction 1 as [|m _ IH]; [done|].
  intros H. by apply scanner_fuel_S, IH.
Qed.

(** ** Tabs for spaces, and the scanner *)

Lemma retab_refl s : retab s s.
Proof. induction s; by constructor. Qed.

Lemma retab_app a a' b b' : retab a a' → retab b b' → retab (a ++ b) (a' ++ b').
Proof. induction 1; intros Hb; simpl; [done|constructor; auto..]. Qed.

Lemma retab_cons_r s c' r' :
  retab s (c' :: r') →
  (∃ r, s = c' :: r ∧ retab r r')
  ∨ (c' = c_tab ∧ ∃ r, s = four_spaces ++ r ∧ retab r r').
Proof. inversion 1; subst; eauto. Qed.

(** A character other than a tab stands for itself. *)
Lemma retab_cons_r_keep s c' r' :
  retab s (c' :: r') → c' ≠ c_tab → ∃ r, s = c' :: r ∧ retab r r'.
Proof. intros [?|[? _]]%retab_cons_r ?; done. Qed.

Lemma retab_skip_ws s s' : retab s s' → retab (skip_ws s) (skip_ws s').
Proof.
  induction 1 as [|c s s' H IH|s s' H IH]; simpl; [constructor| |done].
  destruct (is_ws c); [done|by constructor].
Qed.

Lemma hex4_at_retab s s' u r' :
  retab s s' → hex4_at s' = Some (u, r') →
  ∃ r, hex4_at s = Some (u, r) ∧ retab r r'.
Proof.
  intros Hs. unfold hex4_at at 1.
  destruct s' as [|a [|b [|c [|d r0]]]]; try done.
  unfold hex4.
  destruct (hex_val a) eqn:Ea; [|done].
  destruct (hex_val b) eqn:Eb; [|done].
  destruct (hex_val c) eqn:Ec; [|done].
  destruct (hex_val d) eqn:Ed; [|done].
  intros [= <- <-].
  apply retab_cons_r_keep in Hs as (s1 & -> & Hs); [|by intros ->].
  apply retab_cons_r_keep in Hs as (s2 & -> & Hs); [|by intros ->].
  apply retab_cons_r_keep in Hs as (s3 & -> & Hs); [|by intros ->].
  apply retab_cons_r_keep in Hs as (s4 & -> & Hs); [|by intros ->].
  exists s4. split; [|done].
  unfold hex4_at, hex4. by rewrite Ea, Eb, Ec, Ed.
Qed.

Lemma strip_prefix_retab p s s' :
  retab s s' → c_tab ∉ p → c_space ∉ p →
  match strip_prefix p s' with
  | Some r' => ∃ r, strip_prefix p s = Some r ∧ retab r r'
  | None => strip_prefix p s = None
  end.
Proof.
  intros Hs Ht Hsp. revert s s' Hs.
  induction p as [|a p IH]; intros s s' Hs; simpl; [eauto|].
  apply not_elem_of_cons in Ht as [Ha Ht].
  apply not_elem_of_cons in Hsp as [Ha' Hsp].
  destruct Hs as [|c s s' Hs|s s' Hs]; [done| |].
  - destruct (a =? c); [by apply IH|done].
  - assert ((a =? c_tab) = false) as -> by (apply N.eqb_neq; congruence).
    assert ((a =? c_space) = false) as -> by (apply N.eqb_neq; congruence).
    done.
Qed.

Arguments scanstring : simpl nomatch.

Lemma scanstring_cons c r :
  scanstring (c :: r)
  = if c =? c_quote then Some ([], r)
    else if c =? c_backslash then
      match r with
      | [] => None
      | e :: r1 =>
          if e =? 117 then
            match r1 with
            | h1 :: h2 :: h3 :: h4 :: r2 =>
                match hex4 h1 h2 h3 h4 with
                | None => None
                | Some uni =>
                    if is_high_surrogate uni then
                      match r2 with
                      | b :: u :: l1 :: l2 :: l3 :: l4 :: r3 =>
                          if (b =? c_backslash) && (u =? 117) then
                            match hex4 l1 l2 l3 l4 with
                            | None => None
                            | Some uni2 =>
                                if is_low_surrogate uni2
                                then scons (join_surrogates uni uni2)
                                           (scanstring r3)
                                else scons uni (scanstring r2)
                            end
                          else scons uni (scanstring r2)
                      | _ => scons uni (scanstring r2)
                      end
                    else scons uni (scanstring r2)
                end
            | _ => None
            end
          else
            match unescape e with
            | Some c' => scons c' (scanstring r1)
            | None => None
            end
      end
    else if c <? 32 then None
    else scons c (scanstring r).
Proof. done. Qed.

Lemma scanstring_u s :
  scanstring (c_backslash :: 117 :: s)
  = match hex4_at s with
    | None => None
    | Some (uni, r2) =>
        if is_high_surrogate uni then
          match strip_prefix [c_backslash; 117] r2 with
          | Some r3 =>
              match hex4_at r3 with
              | None => None
              | Some (uni2, r4) =>
                  if is_low_surrogate uni2
                  then scons (join_surrogates uni uni2) (scanstring r4)
                  else scons uni (scanstring r2)
              end
          | None => scons uni (scanstring r2)
          end
        else scons uni (scanstring r2)
    end.
Proof.
  destruct s as [|h1 [|h2 [|h3 [|h4 r2]]]]; try done.
  rewrite scanstring_cons. cbn [hex4_at].
  change (c_backslash =? c_quote) with false.
  change (c_backslash =? c_backslash) with true.
  change (117 =? 117) with true. cbv beta iota.
  destruct (hex4 h1 h2 h3 h4) as [uni|]; [|done].
  destruct (is_high_surrogate uni); [|done].
  destruct r2 as [|b [|u r3]];
    [done|by cbn [strip_prefix]; destruct (_ =? _)|].
  cbn [strip_prefix]. rewrite (N.eqb_sym c_backslash b), (N.eqb_sym 117 u).
  destruct (N.eqb_spec b c_backslash) as [->|Hb];
    [|by destruct r3 as [|l1 [|l2 [|l3 [|l4 r3]]]]].
  destruct (N.eqb_spec u 117) as [->|Hu];
    [|by destruct r3 as [|l1 [|l2 [|l3 [|l4 r3]]]]].
  destruct r3 as [|l1 [|l2 [|l3 [|l4 r3]]]]; try done.
  cbn [andb hex4_at]. by destruct (hex4 l1 l2 l3 l4).
Qed.
Arguments scanstring : simpl never.

Lemma scons_Some c x t r :
  scons c x = Some (t, r) → ∃ t0, x = Some (t0, r) ∧ t = c :: t0.
Proof. destruct x as [[t0 r0]|]; [|done]. intros [= <- <-]. eauto. Qed.

Lemma hex4_at_length s u r : hex4_at s = Some (u, r) → length s = (4 + length r)%nat.
Proof.
  destruct s as [|a [|b [|c [|d r0]]]]; try done. simpl.
  destruct (hex4 a b c d); [|done]. by intros [= _ <-].
Qed.

Lemma strip_prefix_length p s r :
  strip_prefix p s = Some r → length s = (length p + length r)%nat.
Proof.
  revert s. induction p as [|a p IH]; intros [|b s]; simpl; try done.
  - by intros [= <-].
  - by intros [= <-].
  - destruct (a =? b); [|done]. intros H. by rewrite (IH _ H).
Qed.

(** A string literal that scans in the text with tabs scans to the same
    string in the text with spaces. *)
Lemma scanstring_retab_fuel n s s' t r' :
  (length s' < n)%nat → retab s s' → scanstring s' = Some (t, r') →
  ∃ r, scanstring s = Some (t, r) ∧ retab r r'.
Proof.
  revert s s' t r'. induction n as [|n IH]; [lia|].
  intros s s' t r' Hlen Hs Hscan.
  destruct s' as [|c' s0']; [done|].
  destruct (retab_cons_r _ _ _ Hs) as [(s0 & -> & Hs0)|(-> & _)]; [|done].
  simpl in Hlen.
  destruct (N.eqb_spec c' c_backslash) as [->|Hc].
  - destruct s0' as [|e r1']; [done|].
    destruct (retab_cons_r _ _ _ Hs0) as [(r1 & -> & Hs1)|(-> & _)]; [|done].
    simpl in Hlen.
    destruct (N.eqb_spec e 117) as [->|He].
    + rewrite scanstring_u in *.
      destruct (hex4_at r1') as [[uni r2']|] eqn:E1; [|done].
      pose proof (hex4_at_length _ _ _ E1) as Hl1.
      destruct (hex4_at_retab _ _ _ _ Hs1 E1) as (r2 & -> & Hs2).
      destruct (is_high_surrogate uni).
      2: { apply scons_Some in Hscan as (t0 & Hscan & ->).
           destruct (IH r2 r2' _ _ ltac:(lia) Hs2 Hscan) as (r & -> & Hr).
           eauto. }
      pose proof (strip_prefix_retab [c_backslash; 117] r2 r2' Hs2) as Hp.
      destruct (strip_prefix _ r2') as [r3'|] eqn:E2.
      * destruct Hp as (r3 & -> & Hs3); [set_solver..|].
        pose proof (strip_prefix_length _ _ _ E2) as Hl2. simpl in Hl2.
        destruct (hex4_at r3') as [[uni2 r4']|] eqn:E3; [|done].
        pose proof (hex4_at_length _ _ _ E3) as Hl3.
        destruct (hex4_at_retab _ _ _ _ Hs3 E3) as (r4 & -> & Hs4).
        destruct (is_low_surrogate uni2);
          apply scons_Some in Hscan as (t0 & Hscan & ->).
        -- destruct (IH r4 r4' _ _ ltac:(lia) Hs4 Hscan) as (r & -> & Hr). eauto.
        -- destruct (IH r2 r2' _ _ ltac:(lia) Hs2 Hscan) as (r & -> & Hr). eauto.
      * rewrite Hp by set_solver.
        apply scons_Some in Hscan as (t0 & Hscan & ->).
        destruct (IH r2 r2' _ _ ltac:(lia) Hs2 Hscan) as (r & -> & Hr). eauto.
    + rewrite scanstring_cons in *.
      change (c_backslash =? c_quote) with false in *.
      change (c_backslash =? c_backslash) with true in *. cbv beta iota in *.
      apply N.eqb_neq in He. rewrite He in *.
      destruct (unescape e) as [c|]; [|done].
      apply scons_Some in Hscan as (t0 & Hscan & ->).
      destruct (IH r1 r1' _ _ ltac:(lia) Hs1 Hscan) as (r & -> & Hr). eauto.
  - rewrite scanstring_cons in *. apply N.eqb_neq in Hc. rewrite Hc in *.
    destruct (c' =? c_quote).
    { injection Hscan as <- <-. eauto. }
    destruct (c' <? 32); [done|].
    apply scons_Some in Hscan as (t0 & Hscan & ->).
    destruct (IH s0 s0' _ _ ltac:(lia) Hs0 Hscan) as (r & -> & Hr). eauto.
Qed.

Lemma scanstring_retab s s' t r' :
  retab s s' → scanstring s' = Some (t, r') →
  ∃ r, scanstring s = Some (t, r) ∧ retab r r'.
Proof. apply (scanstring_retab_fuel (S (length s'))). lia. Qed.

Lemma take_digits_retab s s' :
  retab s s' →
  ∃ r, take_digits s = ((take_digits s').1, r) ∧ retab r (take_digits s').2.
Proof.
  induction 1 as [|c s s' H (r & IH & Hr)|s s' H _]; simpl.
  - eexists. split; [done|constructor].
  - destruct (is_digit c).
    + rewrite IH. destruct (take_digits s') as [d rest]. simpl in *. eauto.
    + eexists. split; [done|]. by constructor.
  - eexists. split; [done|]. by constructor.
Qed.

(** The head of a retabbed text: the same character, or a tab for a
    space. *)
Lemma retab_head s s' :
  retab s s' →
  match s' with
  | [] => s = []
  | c' :: r' =>
      (∃ r, s = c' :: r ∧ retab r r')
      ∨ (c' = c_tab ∧ ∃ r, s = c_space :: r)
  end.
Proof. destruct 1; eauto. Qed.

Lemma scan_frac_retab s s' :
  retab s s' →
  ∃ r, scan_frac s = ((scan_frac s').1, r) ∧ retab r (scan_frac s').2.
Proof.
  intros Hs. pose proof (retab_head _ _ Hs) as Hh.
  destruct s' as [|c s0']; [subst; simpl; eauto|].
  destruct Hh as [(s0 & -> & Hs0)|(-> & s0 & ->)]; [|simpl; eauto].
  simpl. destruct (c =? 46); [|eauto].
  pose proof (retab_head _ _ Hs0) as Hh0.
  destruct s0' as [|d r0']; [subst; eauto|].
  destruct Hh0 as [(r0 & -> & Hr0)|(-> & r0 & ->)]; [|simpl; eauto].
  destruct (is_digit d); [|eauto].
  apply take_digits_retab. by constructor.
Qed.

Lemma scan_exp_retab s s' :
  retab s s' →
  ∃ r, scan_exp s = ((scan_exp s').1, r) ∧ retab r (scan_exp s').2.
Proof.
  intros Hs. pose proof (retab_head _ _ Hs) as Hh.
  destruct s' as [|e s0']; [subst; simpl; eauto|].
  destruct Hh as [(s0 & -> & Hs0)|(-> & s0 & ->)]; [|simpl; eauto].
  simpl. destruct ((e =? 101) || (e =? 69)); [|eauto].
  pose proof (retab_head _ _ Hs0) as Hh0.
  destruct s0' as [|c r0']; [subst; eauto|].
  destruct Hh0 as [(r0 & -> & Hr0)|(-> & r0 & ->)]; [|simpl; eauto].
  destruct (is_digit c) eqn:Hc.
  { destruct (take_digits_retab _ _ Hs0) as (r & Ht & Hr).
    rewrite Ht. destruct (take_digits (c :: r0')) as [d rest]. simpl in *.
    eauto. }
  destruct ((c =? 43) || (c =? 45)); [|eauto].
  pose proof (retab_head _ _ Hr0) as Hh1.
  destruct r0' as [|c2 r1']; [subst; eauto|].
  destruct Hh1 as [(r1 & -> & Hr1)|(-> & r1 & ->)]; [|simpl; eauto].
  destruct (is_digit c2) eqn:Hc2; [|eauto].
  destruct (take_digits_retab _ _ Hr0) as (r & Ht & Hr).
  rewrite Ht. destruct (take_digits (c2 :: r1')) as [d rest]. simpl in *.
  eauto.
Qed.

(** [scan_unsigned] reads the same in both texts, and fails in both. *)
Lemma scan_unsigned_retab neg s s' :
  retab s s' →
  match scan_unsigned neg s' with
  | Some (x, r') => ∃ r, scan_unsigned neg s = Some (x, r) ∧ retab r r'
  | None => scan_unsigned neg s = None
  end.
Proof.
  intros Hs. pose proof (retab_head _ _ Hs) as Hh. unfold scan_unsigned.
  destruct s' as [|c s0']; [by subst|].
  destruct Hh as [(s0 & -> & Hs0)|(-> & s0 & ->)]; [|done].
  destruct (is_digit c); [|done].
  assert (Hint : ∃ r1,
    (if c =? 48 then (Decimal.D0 Decimal.Nil, s0) else take_digits (c :: s0))
    = ((if c =? 48 then (Decimal.D0 Decimal.Nil, s0')
        else take_digits (c :: s0')).1, r1)
    ∧ retab r1 (if c =? 48 then (Decimal.D0 Decimal.Nil, s0')
                else take_digits (c :: s0')).2).
  { destruct (c =? 48); [eauto|]. by apply take_digits_retab. }
  destruct Hint as (r1 & -> & Hr1).
  destruct (if c =? 48 then _ else _) as [d r1']. simpl in *.
  destruct (scan_frac_retab _ _ Hr1) as (r2 & -> & Hr2).
  destruct (scan_frac r1') as [frac r2']. simpl in *.
  destruct (scan_exp_retab _ _ Hr2) as (r3 & -> & Hr3).
  destruct (scan_exp r2') as [[[upper sg] ed] r3']. simpl in *.
  eauto.
Qed.

Lemma scan_number_retab s s' :
  retab s s' →
  match scan_number s' with
  | Some (x, r') => ∃ r, scan_number s = Some (x, r) ∧ retab r r'
  | None => scan_number s = None
  end.
Proof.
  intros Hs. pose proof (retab_head _ _ Hs) as Hh. rewrite !scan_number_sign.
  destruct s' as [|c s0']; [by subst|].
  destruct Hh as [(s0 & -> & Hs0)|(-> & s0 & ->)]; [|done].
  destruct (c =? 45); by apply scan_unsigned_retab.
Qed.

Lemma scan_constant_retab : tab_safe scan_constant.
Proof.
  intros s s' x r' Hs. unfold scan_constant.
  pose proof (strip_prefix_retab (txt "NaN") _ _ Hs) as H1.
  destruct (strip_prefix (txt "NaN") s') as [rest'|].
  { destruct H1 as (rest & -> & Hr); [set_solver..|].
    intros [= <- <-]. eauto. }
  rewrite H1 by set_solver.
  pose proof (strip_prefix_retab (txt "Infinity") _ _ Hs) as H2.
  destruct (strip_prefix (txt "Infinity") s') as [rest'|].
  { destruct H2 as (rest & -> & Hr); [set_solver..|].
    intros [= <- <-]. eauto. }
  rewrite H2 by set_solver.
  pose proof (strip_prefix_retab (txt "-Infinity") _ _ Hs) as H3.
  destruct (strip_prefix (txt "-Infinity") s') as [rest'|]; [|done].
  destruct H3 as (rest & -> & Hr); [set_solver..|].
  intros [= <- <-]. eauto.
Qed.

Lemma skip_ws_head_not_ws s c r : skip_ws s = c :: r → is_ws c = false.
Proof.
  induction s as [|a s IH]; simpl; [done|].
  destruct (is_ws a) eqn:E; [done|]. by intros [= <- _].
Qed.

Lemma scan_once_body_tab obj arr r : scan_once_body obj arr (c_tab :: r) = None.
Proof. done. Qed.

Lemma scan_once_body_safe obj arr :
  tab_safe obj → tab_safe arr → tab_safe (scan_once_body obj arr).
Proof.
  intros Ho Ha s s' x r' Hs H.
  destruct s' as [|c s0']; [done|].
  destruct (retab_cons_r _ _ _ Hs) as [(s0 & -> & Hs0)|(-> & _)].
  2: { by rewrite scan_once_body_tab in H. }
  unfold scan_once_body in *.
  destruct (c =? c_quote).
  { destruct (scanstring s0') as [[t rest']|] eqn:E; [|done].
    injection H as <- <-.
    destruct (scanstring_retab _ _ _ _ Hs0 E) as (rest & -> & Hr). eauto. }
  pose proof (retab_skip_ws _ _ Hs0) as Hw.
  destruct (c =? 123).
  { destruct (skip_ws s0') as [|c2 r2']; [done|].
    destruct (retab_cons_r _ _ _ Hw) as [(r2 & -> & Hr2)|(-> & _)]; [|done].
    destruct (c2 =? 125); [injection H as <- <-; eauto|].
    destruct (c2 =? c_quote); [|done].
    destruct (obj r2') as [[ps rest']|] eqn:E; [|done].
    injection H as <- <-.
    destruct (Ho _ _ _ _ Hr2 E) as (rest & -> & Hr). eauto. }
  destruct (c =? 91).
  { destruct (skip_ws s0') as [|c2 r2'] eqn:Ew; [done|].
    destruct (retab_cons_r _ _ _ Hw) as [(r2 & -> & Hr2)|(-> & _)];
      [|by apply skip_ws_head_not_ws in Ew].
    destruct (c2 =? 93); [injection H as <- <-; eauto|].
    destruct (arr (c2 :: r2')) as [[vs rest']|] eqn:E; [|done].
    injection H as <- <-.
    destruct (Ha _ _ _ _ (retab_keep c2 _ _ Hr2) E) as (rest & -> & Hr).
    eauto. }
  pose proof (strip_prefix_retab (txt "null") _ _ Hs) as H1.
  destruct (strip_prefix (txt "null") (c :: s0')) as [rest'|].
  { destruct H1 as (rest & -> & Hr); [set_solver..|].
    injection H as <- <-. eauto. }
  rewrite H1 by set_solver.
  pose proof (strip_prefix_retab (txt "true") _ _ Hs) as H2.
  destruct (strip_prefix (txt "true") (c :: s0')) as [rest'|].
  { destruct H2 as (rest & -> & Hr); [set_solver..|].
    injection H as <- <-. eauto. }
  rewrite H2 by set_solver.
  pose proof (strip_prefix_retab (txt "false") _ _ Hs) as H3.
  destruct (strip_prefix (txt "false") (c :: s0')) as [rest'|].
  { destruct H3 as (rest & -> & Hr); [set_solver..|].
    injection H as <- <-. eauto. }
  rewrite H3 by set_solver.
  pose proof (scan_number_retab _ _ Hs) as H4.
  destruct (scan_number (c :: s0')) as [[v rest']|].
  { destruct H4 as (rest & -> & Hr). injection H as <- <-. eauto. }
  rewrite H4. exact (scan_constant_retab _ _ _ _ Hs H).
Qed.

Lemma object_pairs_body_safe once obj :
  tab_safe once → tab_safe obj → tab_safe (object_pairs_body once obj).
Proof.
  intros Hv Ho s s' x r' Hs H. unfold object_pairs_body in *.
  destruct (scanstring s') as [[key s1']|] eqn:E; [|done].
  destruct (scanstring_retab _ _ _ _ Hs E) as (s1 & -> & Hs1).
  pose proof (retab_skip_ws _ _ Hs1) as Hw1.
  destruct (skip_ws s1') as [|c s2']; [done|].
  destruct (retab_cons_r _ _ _ Hw1) as [(s2 & -> & Hs2)|(-> & _)]; [|done].
  destruct (c =? 58); [|done].
  destruct (once (skip_ws s2')) as [[v s3']|] eqn:E2; [|done].
  destruct (Hv _ _ _ _ (retab_skip_ws _ _ Hs2) E2) as (s3 & -> & Hs3).
  pose proof (retab_skip_ws _ _ Hs3) as Hw3.
  destruct (skip_ws s3') as [|c' s4']; [done|].
  destruct (retab_cons_r _ _ _ Hw3) as [(s4 & -> & Hs4)|(-> & _)]; [|done].
  destruct (c' =? 125); [injection H as <- <-; eauto|].
  destruct (c' =? 44); [|done].
  pose proof (retab_skip_ws _ _ Hs4) as Hw4.
  destruct (skip_ws s4') as [|q s5']; [done|].
  destruct (retab_cons_r _ _ _ Hw4) as [(s5 & -> & Hs5)|(-> & _)]; [|done].
  destruct (q =? c_quote); [|done].
  destruct (obj s5') as [[ps rest']|] eqn:E3; [|done].
  injection H as <- <-.
  destruct (Ho _ _ _ _ Hs5 E3) as (rest & -> & Hr). eauto.
Qed.

Lemma array_items_body_safe once arr :
  tab_safe once → tab_safe arr → tab_safe (array_items_body once arr).
Proof.
  intros Hv Ha s s' x r' Hs H. unfold array_items_body in *.
  destruct (once s') as [[v s1']|] eqn:E; [|done].
  destruct (Hv _ _ _ _ Hs E) as (s1 & -> & Hs1).
  pose proof (retab_skip_ws _ _ Hs1) as Hw1.
  destruct (skip_ws s1') as [|c s2']; [done|].
  destruct (retab_cons_r _ _ _ Hw1) as [(s2 & -> & Hs2)|(-> & _)]; [|done].
  destruct (c =? 93); [injection H as <- <-; eauto|].
  destruct (c =? 44); [|done].
  destruct (arr (skip_ws s2')) as [[vs rest']|] eqn:E2; [|done].
  injection H as <- <-.
  destruct (Ha _ _ _ _ (retab_skip_ws _ _ Hs2) E2) as (rest & -> & Hr). eauto.
Qed.

(** The scanner is not misled by tabs. *)
Lemma scanner_tab_safe n :
  tab_safe (scan_once n) ∧ tab_safe (object_pairs n) ∧ tab_safe (array_items n).
Proof.
  induction n as [|n (IH1 & IH2 & IH3)]; [done|].
  split_and!; intros s s' x r'.
  - rewrite !scan_once_S. by apply scan_once_body_safe.
  - rewrite !object_pairs_S. by apply object_pairs_body_safe.
  - rewrite !array_items_S. by apply array_items_body_safe.
Qed.

(** ** What [dump_json] writes, read again *)

Lemma startswith_four_spaces s :
  startswith four_spaces s = true → ∃ r, s = four_spaces ++ r.
Proof.
  change four_spaces with [32; 32; 32; 32]. unfold startswith.
  destruct s as [|a [|b [|c [|d r]]]]; cbn [strip_prefix];
    [done|by repeat case_match..|].
  destruct (N.eqb_spec 32 a) as [<-|]; [|done].
  destruct (N.eqb_spec 32 b) as [<-|]; [|done].
  destruct (N.eqb_spec 32 c) as [<-|]; [|done].
  destruct (N.eqb_spec 32 d) as [<-|]; [|done].
  intros _. by exists r.
Qed.

Lemma replace_from_skip3 n a b c r :
  replace_from four_spaces [c_tab] 3 n (a :: b :: c :: r)
  = replace_from four_spaces [c_tab] 0 n r.
Proof. done. Qed.

(** Replacing runs of four spaces by tabs gives a retabbed line. *)
Lemma retab_replace_fuel m s n :
  (length s < m)%nat → retab s (replace_from four_spaces [c_tab] 0 n s).
Proof.
  revert s n. induction m as [|m IH]; [lia|].
  intros [|c r] n Hlen; [constructor|].
  destruct n as [|n]; [apply retab_refl|].
  cbn [replace_from]. simpl in Hlen.
  destruct (startswith four_spaces (c :: r)) eqn:E.
  - apply startswith_four_spaces in E as [r4 E].
    injection E as -> ->. simpl length.
    rewrite replace_from_skip3. constructor. apply IH. simpl in Hlen. lia.
  - constructor. apply IH. lia.
Qed.

Lemma retab_retab_line line : retab line (retab_line line).
Proof.
  unfold retab_line, str_replace.
  destruct (truthy _); [|apply retab_refl].
  apply (retab_replace_fuel (S (length line))). lia.
Qed.

Lemma split_nonempty sep s : split sep s ≠ [].
Proof.
  destruct s as [|c r]; simpl; [done|].
  destruct (c =? sep); [done|]. by destruct (split sep r).
Qed.

Lemma join_cons_nonempty sep (p : str) ps :
  ps ≠ [] → join sep (p :: ps) = p ++ sep ++ join sep ps.
Proof. by destruct ps. Qed.

Lemma join_split sep s : join [sep] (split sep s) = s.
Proof.
  induction s as [|c r IH]; simpl; [done|].
  destruct (N.eqb_spec c sep) as [->|Hc].
  - rewrite join_cons_nonempty by apply split_nonempty. by rewrite IH.
  - pose proof (split_nonempty sep r) as Hne.
    destruct (split sep r) as [|l ls]; [done|].
    destruct ls as [|l' ls]; simpl in *; by rewrite <- IH.
Qed.

Lemma retab_join (f : str → str) ls :
  (∀ l, retab l (f l)) → retab (join [c_lf] ls) (join [c_lf] (f <$> ls)).
Proof.
  intros Hf. induction ls as [|l [|l' ls] IH]; csimpl.
  - constructor.
  - apply Hf.
  - apply retab_app; [apply Hf|]. constructor. apply IH.
Qed.

(** What [dump_json] writes is the text of [json.dumps], some runs of four
    spaces replaced by tabs, and a line feed. *)
Lemma dump_text_retab original_content data :
  ∃ formatted,
    dump_text original_content data = formatted ++ [c_lf]
    ∧ retab (json_dumps data) formatted.
Proof.
  unfold dump_text. destruct (bool_decide _).
  - eexists. split; [done|].
    rewrite <- (join_split c_lf (json_dumps data)) at 1.
    apply retab_join, retab_retab_line.
  - eexists. split; [done|apply retab_refl].
Qed.

(** What [dump_json] wrote either does not load, or loads as the mapping
    it was given, normalised. *)
Lemma json_loads_dump_text original_content data :
  json_loads (dump_text original_content data) = None
  ∨ json_loads (dump_text original_content data) = Some (norm (JObj data)).
Proof.
  destruct (dump_text_retab original_content data) as (f & -> & Hf).
  unfold json_loads.
  set (m := S (length (f ++ [c_lf]))).
  destruct (scan_once m (skip_ws (f ++ [c_lf]))) as [[v rest']|] eqn:E;
    [|by left].
  assert (Hs : retab (json_dumps data ++ [c_lf]) (f ++ [c_lf]))
    by (apply retab_app; [done|apply retab_refl]).
  apply retab_skip_ws in Hs.
  destruct (proj1 (scanner_tab_safe m) _ _ _ _ Hs E) as (rest & E' & Hr).
  unfold json_dumps in E'. rewrite skip_ws_iterencode in E'.
  pose proof (scan_once_iterencode (JObj data) 0%nat _ [c_lf]
                ltac:(by right) (le_n _)) as Hback.
  set (k := length (iterencode 0 (JObj data))) in *.
  apply (scan_once_fuel_le _ (max m k)) in E'; [|lia].
  apply (scan_once_fuel_le _ (max m k)) in Hback; [|lia].
  rewrite E' in Hback. injection Hback as -> ->.
  inversion Hr as [|c s s' Hr'|]; subst. inversion Hr'; subst.
  by right.
Qed.

(** ** A second run *)

Lemma dict_keys_setitem_elem k k' v (d : dict) :
  k ∈ dict_keys (dict_setitem k' v d) ↔ k = k' ∨ k ∈ dict_keys d.
Proof.
  rewrite dict_keys_setitem. destruct (dict_contains k' d) eqn:E.
  - apply dict_contains_keys in E. naive_solver.
  - rewrite elem_of_app, list_elem_of_singleton. naive_solver.
Qed.

Lemma dict_keys_update_elem k (d e : dict) :
  k ∈ dict_keys (dict_update d e) ↔ k ∈ dict_keys d ∨ k ∈ dict_keys e.
Proof.
  unfold dict_update. revert d.
  induction e as [|[k' v] e IH]; intros d; simpl.
  - change (dict_keys []) with (@nil str). rewrite elem_of_nil. naive_solver.
  - rewrite IH, dict_keys_setitem_elem.
    change (dict_keys ((k', v) :: e)) with (k' :: dict_keys e).
    rewrite elem_of_cons. naive_solver.
Qed.

Lemma dict_keys_merged R T :
  dict_keys R ⊆ dict_keys (merged R T) ∧ dict_keys T ⊆ dict_keys (merged R T).
Proof.
  rewrite merged_app, dict_keys_app. split; intros k Hk; apply elem_of_app.
  - destruct (decide (k ∈ dict_keys T)); [by left|].
    right. by apply missing_keys_complete.
  - by left.
Qed.

Lemma dict_keys_norm (d : dict) :
  dict_keys d
    ⊆ dict_keys (dict_of_pairs (List.map (λ kv, (kv.1, norm kv.2)) d)).
Proof.
  intros k Hk. unfold dict_of_pairs. apply dict_keys_update_elem. right.
  unfold dict_keys in *. apply list_elem_of_fmap in Hk as ([k' v] & -> & Hin).
  apply list_elem_of_fmap. exists (k', norm v). split; [done|].
  apply list_elem_of_In, in_map_iff. exists (k', v).
  by rewrite <- list_elem_of_In.
Qed.

(** C2. On disk the claim fails, by the slip of line 63.  What [dump_json]
    writes for the merged mapping either loads with every key of the
    reference and of the target, or is not JSON; and it can be the second.
    The reference has one key, whose value holds seven runs of four
    spaces; the French file is tab-indented and lacks it.  The mapping
    handed to [dump_json] has both keys, the run reports one key added and
    returns; but on the line of the new key, which has eight runs with its
    indentation, two runs are replaced and the second is inside the
    string: the file left behind is not JSON, and neither the key of the
    reference nor the key the target had can be read from it. *)
Theorem reported_addition_can_leave_a_file_that_is_not_json :
  (∀ (R T : dict) (content : str),
     let written := dump_text content (merged R T) in
     json_loads written = None
     ∨ ∃ D, json_loads written = Some (JObj D)
            ∧ dict_keys R ⊆ dict_keys D ∧ dict_keys T ⊆ dict_keys D)
  ∧ json_loads Ex2.spaced_reference = Some (JObj Ex.spaced)
  ∧ json_loads Ex.fr_tabs = Some (JObj Ex.T_fr)
  ∧ dict_keys (merged Ex.spaced Ex.T_fr) = [txt "a.b"; txt "a"]
  ∧ main Ex2.with_spaced_reference
    = (with_file Ex2.with_spaced_reference (txt "fr", Ex.common) Ex2.fr_broken,
       [Header Ex.common 1; Added (txt "fr") 1; EnMissing Ex.settings;
        Summary 1 0],
       Return tt)
  ∧ json_loads Ex2.fr_broken = None.
Proof.
  split; [|split_and!; vm_compute; reflexivity].
  intros R T content written. subst written.
  destruct (json_loads_dump_text content (merged R T)) as [H|H]; [by left|].
  right. eexists. split; [exact H|].
  destruct (dict_keys_merged R T) as [HR HT].
  split; (etrans; [eassumption|apply dict_keys_norm]).
Qed.

Lemma poisoned_nil : poisoned [].
Proof. by intros d. Qed.

Lemma poisoned_None content : json_loads content = None → poisoned content.
Proof. intros H d. by rewrite H. Qed.

(** What [dump_json] writes for a merged mapping is poisoned or settled. *)
Lemma dump_text_stable R T content :
  poisoned (dump_text content (merged R T))
  ∨ settled R (dump_text content (merged R T)).
Proof.
  destruct (json_loads_dump_text content (merged R T)) as [H|H].
  - left. by apply poisoned_None.
  - right. eexists. split; [exact H|].
    apply missing_keys_nil.
    etrans; [apply (proj1 (dict_keys_merged R T))|]. apply dict_keys_norm.
Qed.

Lemma calm_agree filename R t t' x :
  files t' !! (x, filename) = files t !! (x, filename) →
  calm filename R t x → calm filename R t' x.
Proof. unfold calm. by intros ->. Qed.

Lemma doomed_agree filename t t' x :
  files t' !! (x, filename) = files t !! (x, filename) →
  doomed filename t x → doomed filename t' x.
Proof. unfold doomed. by intros ->. Qed.

(** After its step a locale is calm, and doomed if the step raised. *)
Lemma sync_lang_calm filename R total x t :
  calm filename R (sync_lang filename R total x t).1.1 x
  ∧ (is_raise (sync_lang filename R total x t).2 →
     doomed filename (sync_lang filename R total x t).1.1 x).
Proof.
  destruct (sync_lang_cases filename R total x t); unfold calm, doomed, with_file;
    simpl.
  - split; [by left|done].
  - split; [by right; left|done].
  - split; [|intros _; split; [done|]];
      eauto 8 using poisoned_None.
  - assert (poisoned content) by (intros d; naive_solver).
    split; [|intros _; split; [done|]]; eauto 8.
  - split; [|done]. right; right. unfold settled. eauto 8.
  - split; [|done]. right; right. rewrite lookup_insert_eq.
    eauto using dump_text_stable.
  - rewrite lookup_insert_eq.
    split; [|intros _; split; [done|]]; eauto 8 using poisoned_nil.
Qed.

Lemma sync_lang_keeps_calm filename R total x y t :
  calm filename R t x → calm filename R (sync_lang filename R total y t).1.1 x.
Proof.
  intros Hx. destruct (decide (y = x)) as [->|Hne].
  - apply sync_lang_calm.
  - eapply calm_agree; [|done]. apply sync_lang_frame. congruence.
Qed.

Lemma for_each_keeps_calm filename R l acc x t :
  calm filename R t x →
  calm filename R (for_each (sync_lang filename R) acc l t).1.1 x.
Proof.
  intros Hx.
  apply (for_each_inv (λ t, calm filename R t x) (λ _, True)); [|done].
  intros acc' y t' Ht'. split; [by apply sync_lang_keeps_calm|].
  by apply Forall_forall.
Qed.

(** What a run leaves behind: every locale it went through is calm, and
    the one it raised at is doomed. *)
Lemma for_each_after filename R l acc t :
  let r := for_each (sync_lang filename R) acc l t in
  match r.2 with
  | Return _ => Forall (calm filename R r.1.1) l
  | Raise _ =>
      ∃ before x after,
        l = before ++ x :: after
        ∧ Forall (calm filename R r.1.1) before
        ∧ doomed filename r.1.1 x
  end.
Proof.
  revert acc t. induction l as [|x l IH]; intros acc t; simpl; [done|].
  unfold bind.
  pose proof (sync_lang_calm filename R acc x t) as [Hcalm Hdoom].
  destruct (sync_lang filename R acc x t) as [[t1 o1] [a|e]]; simpl in *.
  - specialize (IH a t1).
    pose proof (for_each_keeps_calm filename R l a x t1 Hcalm) as Hx.
    destruct (for_each _ a l t1) as [[t2 o2] [a'|e]]; simpl in *.
    + by constructor.
    + destruct IH as (before & y & after & -> & Hb & Hy).
      exists (x :: before), y, after. split_and!; [done| |done].
      by constructor.
  - exists [], x, l. split_and!; [done|constructor|by apply Hdoom].
Qed.

(** On a calm locale [sync_lang] writes nothing and adds nothing. *)
Lemma sync_lang_quiet filename R total x t :
  calm filename R t x →
  ∃ o r, sync_lang filename R total x t = (t, o, r)
         ∧ Forall no_addition o
         ∧ (r = Return total ∨ is_raise r).
Proof.
  intros [Hs|Hx].
  { rewrite sync_lang_skipped by done. eexists _, _.
    split_and!; [done|constructor|by left]. }
  destruct (skipped x) eqn:Hs.
  { rewrite sync_lang_skipped by done. eexists _, _.
    split_and!; [done|constructor|by left]. }
  destruct Hx as [Hf|(content & Hf & [Hp|(T & HT & Hm)])].
  - rewrite sync_lang_not_found by done. eexists _, _.
    split_and!; [done|by repeat (constructor; try exact I)|by left].
  - destruct (json_loads content) as [v|] eqn:Hl.
    + erewrite sync_lang_not_object; [| done.. |].
      * eexists _, _. split_and!; [done|constructor|by right].
      * intros d ->. by apply (Hp d).
    + erewrite sync_lang_malformed by done. eexists _, _.
      split_and!; [done|constructor|by right].
  - erewrite sync_lang_complete by done. eexists _, _.
    split_and!; [done|by repeat (constructor; try exact I)|by left].
Qed.

Lemma sync_lang_doomed filename R total x t :
  doomed filename t x →
  ∃ e, sync_lang filename R total x t = (t, [], Raise e).
Proof.
  intros (Hs & content & Hf & Hp).
  destruct (json_loads content) as [v|] eqn:Hl.
  - erewrite sync_lang_not_object; [by eexists|done..|].
    intros d ->. by apply (Hp d).
  - erewrite sync_lang_malformed by done. by eexists.
Qed.

Lemma for_each_quiet filename R l acc t :
  Forall (calm filename R t) l →
  ∃ o r, for_each (sync_lang filename R) acc l t = (t, o, r)
         ∧ Forall no_addition o
         ∧ (r = Return acc ∨ is_raise r).
Proof.
  induction 1 as [|x l Hx Hl IH]; simpl.
  { eexists _, _. split_and!; [done|constructor|by left]. }
  unfold bind.
  destruct (sync_lang_quiet filename R acc x t Hx) as (o1 & r1 & -> & Ho1 & Hr1).
  destruct r1 as [a|e].
  - destruct Hr1 as [[= ->]|[]].
    destruct IH as (o2 & r2 & -> & Ho2 & Hr2).
    eexists _, _. split_and!; [done|by apply Forall_app|done].
  - eexists _, _. split_and!; [done|done|by right].
Qed.

Lemma for_each_doomed filename R before x after acc t :
  Forall (calm filename R t) before → doomed filename t x →
  ∃ o r, for_each (sync_lang filename R) acc (before ++ x :: after) t
         = (t, o, r)
         ∧ Forall no_addition o ∧ is_raise r.
Proof.
  intros Hb Hx. rewrite for_each_app. unfold bind.
  destruct (for_each_quiet filename R before acc t Hb)
    as (o1 & r1 & -> & Ho1 & Hr1).
  destruct r1 as [a|e].
  - simpl. unfold bind.
    destruct (sync_lang_doomed filename R a x t Hx) as [e ->].
    eexists _, _. split_and!; [done|by rewrite app_nil_r|done].
  - eexists _, _. split_and!; [done..].
Qed.

Lemma sync_file_poisoned_reference filename t content :
  files t !! en_path filename = Some content → poisoned content →
  ∃ e, sync_file filename t = (t, [], Raise e).
Proof.
  intros Hf Hp. destruct (json_loads content) as [v|] eqn:Hl.
  - erewrite sync_file_reference_not_object; [by eexists|done..|].
    intros d ->. by apply (Hp d).
  - erewrite sync_file_malformed_reference by done. by eexists.
Qed.

Lemma agree_on_refl filename t : agree_on filename t t.
Proof. done. Qed.

(** [sync_file] touches the files of its filename only. *)
Lemma sync_file_frame filename t p :
  p.2 ≠ filename → files (sync_file filename t).1.1 !! p = files t !! p.
Proof.
  intros Hp.
  apply (sync_file_inv (λ t', files t' !! p = files t !! p)); [|done].
  intros en_data acc l t0 <-. apply sync_lang_frame.
  destruct p. simpl in *. congruence.
Qed.

(** After [sync_file], a second [sync_file] for the same filename, on a
    tree with the same directories and the same files of that name, writes
    nothing and adds nothing; and it raises if the first one did. *)
Lemma sync_file_twice filename t t' :
  agree_on filename (sync_file filename t).1.1 t' →
  ∃ o r, sync_file filename t' = (t', o, r)
         ∧ Forall no_addition o
         ∧ (r = Return O ∨ is_raise r)
         ∧ (is_raise (sync_file filename t).2 → is_raise r).
Proof.
  intros [Hd Hf].
  rewrite sync_file_subdirs in Hd.
  assert (Href : files t' !! en_path filename = files t !! en_path filename).
  { unfold en_path. by rewrite Hf, sync_file_never_writes_en. }
  destruct (files t !! en_path filename) as [c|] eqn:Hc.
  2: { rewrite (sync_file_no_reference filename t Hc).
       rewrite (sync_file_no_reference filename t' Href).
       eexists _, _. split_and!; [done|by repeat (constructor; try exact I)|by left|done]. }
  destruct (json_loads c) as [v|] eqn:Hl.
  2: { destruct (sync_file_poisoned_reference filename t' c Href) as [e ->];
         [by apply poisoned_None|].
       eexists _, _. split_and!; [done|constructor|by right|done]. }
  assert (Hv : (∃ d, v = JObj d) ∨ (∀ d, v ≠ JObj d)) by (destruct v; eauto).
  destruct Hv as [[R ->]|Hv].
  2: { destruct (sync_file_poisoned_reference filename t' c Href) as [e ->];
         [intros d; naive_solver|].
       eexists _, _. split_and!; [done|constructor|by right|done]. }
  revert Hf. rewrite (sync_file_loop filename t c Hc R Hl).
  rewrite (sync_file_loop filename t' c Href R Hl).
  unfold locale_loop. rewrite Hd.
  pose proof (for_each_after filename R (sorted (subdirs t)) O t) as Hafter.
  destruct (for_each (sync_lang filename R) O (sorted (subdirs t)) t)
    as [[t1 o1] r1]. simpl in *. intros Hf.
  destruct r1 as [n1|e1].
  - assert (Hcalm : Forall (calm filename R t') (sorted (subdirs t))).
    { eapply Forall_impl; [done|]. intros x Hx.
      exact (calm_agree filename R t1 t' x (Hf x) Hx). }
    destruct (for_each_quiet filename R _ O t' Hcalm) as (o & r & -> & Ho & Hr).
    eexists _, _. split_and!; [done|by constructor; [exact I|]|done|done].
  - destruct Hafter as (before & x & after & -> & Hb & Hx).
    assert (Hcalm : Forall (calm filename R t') before).
    { eapply Forall_impl; [done|]. intros y Hy.
      exact (calm_agree filename R t1 t' y (Hf y) Hy). }
    pose proof (doomed_agree filename t1 t' x (Hf x) Hx) as Hdoom.
    destruct (for_each_doomed filename R before x after O t' Hcalm Hdoom)
      as (o & r & -> & Ho & Hr).
    eexists _, _. split_and!; [done|by constructor; [exact I|]|by right|done].
Qed.

Lemma common_neq_settings : txt "common.json" ≠ txt "settings.json".
Proof. done. Qed.

(** On objects: running [main] on the tree a first run left changes no
    file, and every line of the second report reports zero keys added. *)
Lemma main_twice (t : tree) :
  let first := main t in
  let second := main first.1.1 in
  second.1.1 = first.1.1 ∧ Forall no_addition second.1.2.
Proof.
  set (common := txt "common.json"). set (settings := txt "settings.json").
  assert (Hfirst : ∃ t2, (main t).1.1 = t2
    ∧ ((is_raise (sync_file common t).2 ∧ t2 = (sync_file common t).1.1)
       ∨ (¬ is_raise (sync_file common t).2
          ∧ t2 = (sync_file settings (sync_file common t).1.1).1.1))).
  { eexists. split; [done|]. unfold main, bind. fold common settings.
    destruct (sync_file common t) as [[t1 o1] [n1|e1]]; simpl; [|by left].
    right. split; [tauto|].
    by destruct (sync_file settings t1) as [[t2 o2] [n2|e2]]. }
  destruct Hfirst as (t2 & Ht2 & Hcases). simpl. rewrite Ht2. clear Ht2.
  assert (Hcommon : ∃ o r, sync_file common t2 = (t2, o, r)
    ∧ Forall no_addition o ∧ (r = Return O ∨ is_raise r)
    ∧ (is_raise (sync_file common t).2 → is_raise r)).
  { apply sync_file_twice.
    destruct Hcases as [[_ ->]|[_ ->]]; [apply agree_on_refl|].
    split; [apply sync_file_subdirs|].
    intros l. apply sync_file_frame. apply common_neq_settings. }
  destruct Hcommon as (oa & ra & Ea & Hoa & Hra & Hraise).
  unfold main, bind. fold common settings. rewrite Ea.
  destruct ra as [na|ea]; [|done].
  destruct Hra as [[= ->]|[]].
  destruct Hcases as [[Hr _]|[_ ->]]; [by destruct (Hraise Hr)|].
  destruct (sync_file_twice settings (sync_file common t).1.1
              (sync_file settings (sync_file common t).1.1).1.1
              (agree_on_refl _ _)) as (ob & rb & Eb & Hob & Hrb & _).
  rewrite Eb. destruct rb as [nb|eb]; simpl.
  - destruct Hrb as [[= ->]|[]]. split; [done|].
    apply Forall_app. split; [done|]. apply Forall_app. split; [done|].
    by repeat constructor.
  - split; [done|]. by apply Forall_app.
Qed.

(** ** Objects among all values *)

Lemma py_setitem_str_keyed k v (d : dict) :
  py_setitem (KStr k) v (str_keyed d) = str_keyed (dict_setitem k v d).
Proof.
  induction d as [|[k' v'] d IH]; simpl; [done|].
  destruct (decide (k = k')) as [->|Hne].
  - by rewrite bool_decide_true.
  - rewrite bool_decide_false by done. by rewrite IH.
Qed.

Lemma missing_fold_any R T ks acc :
  ks ⊆ dict_keys R →
  foldl (λ acc k,
           py_then acc (λ missing,
           py_then (py_contains k (JObj T)) (λ found,
           if found then PyReturn missing
           else py_then (py_getitem (JObj R) k) (λ kv,
                PyReturn (py_setitem kv.1 kv.2 missing)))))
        (PyReturn (str_keyed acc)) (JStr <$> ks)
  = PyReturn (str_keyed (foldl (missing_step R T) acc ks)).
Proof.
  revert acc. induction ks as [|k ks IH]; intros acc Hks; csimpl; [done|].
  unfold missing_step at 2. destruct (dict_contains k T).
  - apply IH. set_solver.
  - assert (Hk : k ∈ dict_keys R) by set_solver.
    apply dict_get_is_Some in Hk as [v Hv]. rewrite Hv. simpl.
    rewrite py_setitem_str_keyed. apply IH. set_solver.
Qed.

Lemma missing_keys_any_objects R T :
  missing_keys_any (JObj R) (JObj T) = PyReturn (str_keyed (missing_keys R T)).
Proof.
  unfold missing_keys_any. rewrite missing_keys_foldl. simpl py_iter.
  by apply (missing_fold_any R T (dict_keys R) []).
Qed.

Lemma py_update_fold T (m : dict) :
  foldl (λ acc kv, py_setitem kv.1 kv.2 acc) (str_keyed T) (str_keyed m)
  = str_keyed (dict_update T m).
Proof.
  unfold dict_update. revert T.
  induction m as [|[k v] m IH]; intros T; [done|].
  change (str_keyed ((k, v) :: m)) with ((KStr k, v) :: str_keyed m).
  cbn [foldl fst snd]. by rewrite py_setitem_str_keyed, IH.
Qed.

Lemma as_written_str_keyed (d : dict) : as_written (str_keyed d) = d.
Proof.
  unfold as_written, str_keyed. rewrite <- list_fmap_compose.
  induction d as [|[k v] d IH]; csimpl; [done|]. by rewrite IH.
Qed.

Lemma truthy_str_keyed (d : dict) : truthy (str_keyed d) = truthy d.
Proof. by destruct d. Qed.

Lemma length_str_keyed (d : dict) : length (str_keyed d) = length d.
Proof. unfold str_keyed. by rewrite length_fmap. Qed.

Section sync_lang_any.
Variables (filename : str) (R : dict) (total : nat) (lang_code : str) (t : tree).

Lemma sync_lang_any_skipped :
  skipped lang_code = true →
  sync_lang_any filename (JObj R) total lang_code t = (t, [], PyReturn total).
Proof. unfold skipped, sync_lang_any. by intros ->. Qed.

Hypothesis Hvisit : skipped lang_code = false.

Lemma sync_lang_any_not_found :
  files t !! (lang_code, filename) = None →
  sync_lang_any filename (JObj R) total lang_code t
  = (t, [NotFound lang_code filename], PyReturn total).
Proof.
  intros Hf. unfold sync_lang_any. unfold skipped in Hvisit. rewrite Hvisit.
  unfold py_bind, py_exists. rewrite Hf.
  by rewrite bool_decide_false by (by intros [? ?]).
Qed.

Variable content : str.
Hypothesis Hfile : files t !! (lang_code, filename) = Some content.

Local Ltac enter :=
  unfold sync_lang_any; unfold skipped in Hvisit; rewrite Hvisit;
  unfold py_bind at 1; unfold py_exists; rewrite Hfile;
  rewrite bool_decide_true by done; cbn [negb];
  unfold load_json_any, py_bind, py_read; rewrite Hfile.

Lemma sync_lang_any_malformed :
  json_loads content = None →
  sync_lang_any filename (JObj R) total lang_code t
  = (t, [], PyRaise PyJSONDecodeError).
Proof. intros Hl. enter. by rewrite Hl. Qed.

Variable T : dict.
Hypothesis Hload : json_loads content = Some (JObj T).

Lemma sync_lang_any_complete :
  missing_keys R T = [] →
  sync_lang_any filename (JObj R) total lang_code t
  = (t, [Complete lang_code], PyReturn total).
Proof.
  intros Hm. enter. rewrite Hload. simpl.
  rewrite missing_keys_any_objects, Hm. done.
Qed.

Lemma sync_lang_any_added :
  missing_keys R T ≠ [] →
  sync_lang_any filename (JObj R) total lang_code t
  = (if encodable (dump_text content (merged R T))
     then (with_file t (lang_code, filename)
             (dump_text content (merged R T)),
           [Added lang_code (length (missing_keys R T))],
           PyReturn (total + length (missing_keys R T))%nat)
     else (with_file t (lang_code, filename) [], [],
           PyRaise PyUnicodeEncodeError)).
Proof.
  intros Hm. enter. rewrite Hload. simpl.
  rewrite missing_keys_any_objects. simpl. rewrite truthy_str_keyed.
  assert (Ht : truthy (missing_keys R T) = true)
    by (by destruct (missing_keys R T)).
  rewrite Ht. fold (str_keyed T). rewrite py_update_fold.
  unfold dump_json_any, py_bind, py_read. rewrite Hfile.
  rewrite as_written_str_keyed. fold (merged R T).
  unfold py_write, encodable, with_file.
  destruct (forallb _ _); simpl; [|done].
  by rewrite length_str_keyed.
Qed.
End sync_lang_any.

Lemma object_or_not_json_dump_text content data :
  object_or_not_json (dump_text content data) = true.
Proof.
  unfold object_or_not_json.
  by destruct (json_loads_dump_text content data) as [-> | ->].
Qed.

Lemma objects_only_with_file t p content :
  objects_only t → object_or_not_json content = true →
  objects_only (with_file t p content).
Proof. intros Ht Hc. by apply map_Forall_insert_2. Qed.

Lemma objects_only_lookup t p content v :
  objects_only t → files t !! p = Some content →
  json_loads content = Some v → ∃ d, v = JObj d.
Proof.
  intros Ht Hp Hl. specialize (Ht p content Hp). unfold object_or_not_json in Ht.
  rewrite Hl in Ht. destruct v; try done. by eexists.
Qed.

(** On a tree of objects a step goes the same way on any value as on
    objects, and leaves a tree of objects. *)
Lemma sync_lang_any_same filename R total lang_code t :
  objects_only t →
  same_run (sync_lang filename R total lang_code t)
           (sync_lang_any filename (JObj R) total lang_code t)
  ∧ objects_only (sync_lang filename R total lang_code t).1.1.
Proof.
  intros Ht.
  destruct (sync_lang_cases filename R total lang_code t) as
    [Hs|Hs Hn|c Hs Hc Hl|c v Hs Hc Hl Hv|c T Hs Hc Hl Hm|c T Hs Hc Hl Hm He
    |c T Hs Hc Hl Hm He].
  - rewrite sync_lang_any_skipped by done. by repeat split; try constructor.
  - rewrite sync_lang_any_not_found by done. by repeat split; try constructor.
  - rewrite (sync_lang_any_malformed _ _ _ _ _ Hs _ Hc Hl).
    by repeat split; try constructor.
  - destruct (objects_only_lookup _ _ _ _ Ht Hc Hl) as [d ->]. by destruct (Hv d).
  - rewrite (sync_lang_any_complete _ _ _ _ _ Hs _ Hc _ Hl Hm).
    by repeat split; try constructor.
  - rewrite (sync_lang_any_added _ _ _ _ _ Hs _ Hc _ Hl Hm), He.
    split; [by repeat split; try constructor|].
    apply objects_only_with_file; [done|apply object_or_not_json_dump_text].
  - rewrite (sync_lang_any_added _ _ _ _ _ Hs _ Hc _ Hl Hm), He.
    split; [by repeat split; try constructor|].
    by apply objects_only_with_file.
Qed.

Lemma for_each_any_same filename R l acc t :
  objects_only t →
  same_run (for_each (sync_lang filename R) acc l t)
           (py_for_each (sync_lang_any filename (JObj R)) acc l t)
  ∧ objects_only (for_each (sync_lang filename R) acc l t).1.1.
Proof.
  revert acc t. induction l as [|x l IH]; intros acc t Ht; simpl.
  - by repeat split; try constructor.
  - unfold bind, py_bind.
    destruct (sync_lang_any_same filename R acc x t Ht) as [[E Ho] Ht1].
    destruct (sync_lang filename R acc x t) as [[t1 o1] r1].
    destruct (sync_lang_any filename (JObj R) acc x t) as [[t1' o1'] r1'].
    simpl in *. injection E as -> ->.
    destruct Ho as [a| |]; [|by repeat split; try constructor..].
    destruct (IH a t1 Ht1) as [[E Ho] Ht2].
    destruct (for_each _ a l t1) as [[t2 o2] r2].
    destruct (py_for_each _ a l t1) as [[t2' o2'] r2'].
    simpl in *. injection E as -> ->. by repeat split.
Qed.

Lemma sync_file_any_same filename t :
  objects_only t →
  same_run (sync_file filename t) (sync_file_any filename t)
  ∧ objects_only (sync_file filename t).1.1.
Proof.
  intros Ht.
  destruct (files t !! en_path filename) as [c|] eqn:Hc.
  2: { rewrite sync_file_no_reference by done.
       unfold sync_file_any, py_bind, py_exists. fold (en_path filename).
       rewrite Hc. rewrite bool_decide_false by (by intros [? ?]).
       by repeat split; try constructor. }
  assert (Hany : sync_file_any filename t
    = match json_loads c with
      | None => (t, [], PyRaise PyJSONDecodeError)
      | Some v =>
          match py_len v with
          | None => (t, [], PyRaise TypeError)
          | Some n =>
              let '(t', o, r) :=
                py_for_each (sync_lang_any filename v) O (sorted (subdirs t)) t in
              (t', Header filename n :: o, r)
          end
      end).
  { unfold sync_file_any, py_bind at 1, py_exists. fold (en_path filename).
    rewrite Hc. rewrite bool_decide_true by done. cbn [negb].
    unfold load_json_any, py_bind, py_read. rewrite Hc.
    destruct (json_loads c) as [v|]; [|done]. simpl.
    destruct (py_len v) as [n|]; [|done]. simpl.
    by destruct (py_for_each _ _ _ _) as [[? ?] ?]. }
  rewrite Hany. destruct (json_loads c) as [v|] eqn:Hl.
  2: { rewrite (sync_file_malformed_reference _ _ _ Hc Hl).
       by repeat split; try constructor. }
  destruct (objects_only_lookup _ _ _ _ Ht Hc Hl) as [R ->].
  rewrite (sync_file_loop _ _ _ Hc _ Hl). unfold locale_loop. simpl py_len.
  destruct (for_each_any_same filename R (sorted (subdirs t)) O t Ht)
    as [[E Ho] Ht1].
  destruct (for_each _ _ _ _) as [[t1 o1] r1].
  destruct (py_for_each _ _ _ _) as [[t1' o1'] r1'].
  simpl in *. injection E as -> ->. by repeat split.
Qed.

Lemma main_any_same t :
  objects_only t →
  same_run (main t) (main_any t) ∧ objects_only (main t).1.1.
Proof.
  intros Ht. unfold main, main_any, bind, py_bind.
  destruct (sync_file_any_same (txt "common.json") t Ht) as [[E Ho] Ht1].
  destruct (sync_file (txt "common.json") t) as [[t1 o1] r1].
  destruct (sync_file_any (txt "common.json") t) as [[t1' o1'] r1'].
  simpl in *. injection E as -> ->.
  destruct Ho as [a| |]; [|by repeat split; try constructor..].
  destruct (sync_file_any_same (txt "settings.json") t1 Ht1) as [[E Ho] Ht2].
  destruct (sync_file (txt "settings.json") t1) as [[t2 o2] r2].
  destruct (sync_file_any (txt "settings.json") t1) as [[t2' o2'] r2'].
  simpl in *. injection E as -> ->.
  destruct Ho as [b| |]; by repeat split; try constructor.
Qed.




(** * Further properties *)

(** ** The merge, once more *)

Lemma dict_get_setitem k k' v (d : dict) :
  dict_get (dict_setitem k' v d) k
  = if decide (k = k') then Some v else dict_get d k.
Proof.
  induction d as [|[k0 v0] d IH]; simpl.
  - by destruct (decide (k = k')).
  - destruct (decide (k' = k0)) as [->|Hne]; simpl.
    + by destruct (decide (k = k0)).
    + destruct (decide (k = k0)) as [->|Hne2].
      * destruct (decide (k0 = k')); [congruence|done].
      * apply IH.
Qed.

Lemma missing_fold_get R T ks acc :
  (∀ k, k ∈ dict_keys acc → dict_get acc k = dict_get R k) →
  ∀ k, k ∈ dict_keys (foldl (missing_step R T) acc ks) →
       dict_get (foldl (missing_step R T) acc ks) k = dict_get R k.
Proof.
  revert acc. induction ks as [|k0 ks IH]; intros acc Hacc; simpl; [done|].
  apply IH. intros k. unfold missing_step.
  destruct (dict_contains k0 T); [apply Hacc|].
  destruct (dict_get R k0) as [v|] eqn:Hget; [|apply Hacc].
  rewrite dict_keys_setitem_elem, dict_get_setitem.
  destruct (decide (k = k0)) as [->|Hne]; [done|].
  intros [?|?]; [done|by apply Hacc].
Qed.

Lemma missing_keys_get R T k :
  k ∈ dict_keys R → k ∉ dict_keys T →
  dict_get (missing_keys R T) k = dict_get R k.
Proof.
  intros HR HT. rewrite missing_keys_foldl. apply missing_fold_get.
  - intros k' Hk'. by apply elem_of_nil in Hk'.
  - rewrite <- missing_keys_foldl. by apply missing_keys_complete.
Qed.

Lemma missing_keys_nil_iff R T :
  missing_keys R T = [] ↔ dict_keys R ⊆ dict_keys T.
Proof.
  split; [|apply missing_keys_nil].
  intros Hm k Hk. destruct (decide (k ∈ dict_keys T)) as [|Hn]; [done|].
  pose proof (missing_keys_complete R T k Hk Hn) as Hin.
  rewrite Hm in Hin. by apply elem_of_nil in Hin.
Qed.

Lemma length_dict_setitem k v (d : dict) :
  (length (dict_setitem k v d) ≤ S (length d))%nat.
Proof.
  induction d as [|[k0 v0] d IH]; simpl; [lia|].
  destruct (decide (k = k0)); simpl; lia.
Qed.

Lemma missing_fold_length R T ks acc :
  (length (foldl (missing_step R T) acc ks) ≤ length acc + length ks)%nat.
Proof.
  revert acc. induction ks as [|k ks IH]; intros acc; simpl; [lia|].
  etrans; [apply IH|]. unfold missing_step.
  destruct (dict_contains k T); [lia|].
  destruct (dict_get R k) as [v|]; [|lia].
  pose proof (length_dict_setitem k v acc). lia.
Qed.

Lemma length_missing_keys R T : (length (missing_keys R T) ≤ length R)%nat.
Proof.
  rewrite missing_keys_foldl.
  etrans; [apply missing_fold_length|]. unfold dict_keys.
  rewrite length_fmap. simpl. lia.
Qed.

(** X10. Merging is idempotent: the merged mapping lacks no key of the
    reference, and merging the reference into it again gives it back
    unchanged. *)
Theorem merging_again_adds_nothing (R T : dict) :
  missing_keys R (merged R T) = [] ∧ merged R (merged R T) = merged R T.
Proof.
  assert (H : missing_keys R (merged R T) = []).
  { apply missing_keys_nil. apply dict_keys_merged. }
  split; [done|]. by rewrite (merged_app R (merged R T)), H, app_nil_r.
Qed.

(** X11. A key of the reference that the target lacks is among the
    missing keys, and the merged mapping gives it the value the reference
    has for it. *)
Theorem added_key_takes_the_reference_value (R T : dict) (k : str) :
  k ∈ dict_keys R → k ∉ dict_keys T →
  dict_get (merged R T) k = dict_get R k
  ∧ k ∈ dict_keys (missing_keys R T).
Proof.
  intros HR HT. split; [|by apply missing_keys_complete].
  rewrite merged_app, dict_get_app_r by done. by apply missing_keys_get.
Qed.

Lemma added_key_takes_the_reference_value_witness :
  dict_get (merged Ex.R Ex.T_fr) (txt "a.c") = Some (JStr (txt "World")).
Proof.
  destruct (added_key_takes_the_reference_value Ex.R Ex.T_fr (txt "a.c"))
    as [H _].
  - apply (bool_decide_unpack _). vm_compute. exact I.
  - apply (bool_decide_unpack _). vm_compute. exact I.
  - rewrite H. vm_compute. reflexivity.
Defined.

(** X12. For a locale whose file loads as an object, the step prints the
    "complete" line exactly when the file has every key of the reference. *)
Theorem complete_exactly_when_no_key_is_missing
    (filename lang_code content : str) (R T : dict) (total : nat) (t : tree) :
  skipped lang_code = false →
  files t !! (lang_code, filename) = Some content →
  json_loads content = Some (JObj T) →
  (sync_lang filename R total lang_code t).1.2 = [Complete lang_code]
  ↔ dict_keys R ⊆ dict_keys T.
Proof.
  intros Hskip Hfile Hload. rewrite <- missing_keys_nil_iff. split.
  - intros Hout. destruct (missing_keys R T) as [|kv m] eqn:Hm; [done|].
    destruct (encodable (dump_text content (merged R T))) eqn:Henc.
    + rewrite (sync_lang_added _ _ _ _ _ Hskip _ Hfile _ Hload) in Hout;
        [done|by rewrite Hm|done].
    + rewrite (sync_lang_unencodable _ _ _ _ _ Hskip _ Hfile _ Hload) in Hout;
        [done|by rewrite Hm|done].
  - intros Hm. by rewrite (sync_lang_complete _ _ _ _ _ Hskip _ Hfile _ Hload Hm).
Qed.

Lemma complete_exactly_when_no_key_is_missing_witness :
  (sync_lang Ex.common Ex.R 0 (txt "es") Ex.with_reference).1.2
  = [Complete (txt "es")].
Proof.
  destruct (complete_exactly_when_no_key_is_missing Ex.common (txt "es")
              Ex.es_complete Ex.R Ex.T_es 0 Ex.with_reference) as [_ H].
  - vm_compute. reflexivity.
  - vm_compute. reflexivity.
  - vm_compute. reflexivity.
  - apply H. apply (bool_decide_unpack _). vm_compute. exact I.
Defined.

(** ** What [json.loads] builds, and reading back what was written *)

Lemma canonical_arr l : canonical (JArr l) ↔ Forall canonical l.
Proof.
  simpl. induction l as [|x l IH]; simpl.
  - split; [constructor|done].
  - rewrite Forall_cons, IH. done.
Qed.

Lemma canonical_values (d : dict) :
  foldr (λ kv P, canonical kv.2 ∧ P) True d ↔ Forall (λ kv, canonical kv.2) d.
Proof.
  induction d as [|x l IH]; simpl.
  - split; [constructor|done].
  - rewrite Forall_cons, IH. done.
Qed.

Lemma canonical_obj d :
  canonical (JObj d) ↔ is_dict d ∧ Forall (λ kv, canonical kv.2) d.
Proof. simpl. by rewrite canonical_values. Qed.

Lemma norm_float_canonical l : literal_canonical l → norm_float l = JFloat (Finite l).
Proof.
  destruct l as [neg n frac upper sg ed]. unfold literal_canonical, norm_float.
  simpl. intros [Hne Hexp].
  destruct frac, ed; try done; try (by destruct Hne);
    by destruct (Hexp eq_refl) as [-> ->].
Qed.

Lemma dict_of_pairs_dict (d : dict) : is_dict d → dict_of_pairs d = d.
Proof.
  intros Hd. unfold dict_of_pairs. rewrite dict_update_fresh; [done..|].
  intros k _ Hk. by apply elem_of_nil in Hk.
Qed.

Lemma canonical_norm v : canonical v → norm v = v.
Proof.
  induction v as [| | |f| |l IH|d IH] using json_nested_ind; try done.
  - destruct f as [l| |]; [|done..]. apply norm_float_canonical.
  - rewrite canonical_arr. intros Hl. simpl. f_equal.
    induction l as [|x l IHl]; simpl; [done|].
    apply Forall_cons in IH as [Hx IH]. apply Forall_cons in Hl as [Hcx Hl].
    f_equal; auto.
  - rewrite canonical_obj. intros [Hd Hv]. simpl. f_equal.
    assert (E : List.map (λ kv : str * json, (kv.1, norm kv.2)) d = d).
    { clear Hd. induction d as [|[k x] d IHd]; simpl; [done|].
      apply Forall_cons in IH as [Hx IH]. apply Forall_cons in Hv as [Hcx Hv].
      simpl in *. f_equal; [f_equal|]; auto. }
    rewrite E. by apply dict_of_pairs_dict.
Qed.

Lemma Forall_dict_setitem (P : str * json → Prop) k v (d : dict) :
  (∀ k', P (k', v)) → (∀ k1 k2 x, P (k1, x) → P (k2, x)) →
  Forall P d → Forall P (dict_setitem k v d).
Proof.
  intros Hv Hk. induction d as [|[k0 v0] d IH]; simpl; intros Hd.
  - by repeat constructor.
  - apply Forall_cons in Hd as [H0 Hd].
    destruct (decide (k = k0)); constructor; auto.
Qed.

Lemma values_dict_setitem (P : json → Prop) k v (d : dict) :
  P v → Forall (λ kv, P kv.2) d → Forall (λ kv, P kv.2) (dict_setitem k v d).
Proof. intros Hv. apply Forall_dict_setitem; simpl; auto. Qed.

Lemma values_dict_update (P : json → Prop) (d e : dict) :
  Forall (λ kv, P kv.2) d → Forall (λ kv, P kv.2) e →
  Forall (λ kv, P kv.2) (dict_update d e).
Proof.
  unfold dict_update. revert d.
  induction e as [|[k v] e IH]; intros d Hd He; simpl; [done|].
  apply Forall_cons in He as [Hv He]. apply IH; [|done].
  by apply values_dict_setitem.
Qed.

Lemma dict_get_values (P : json → Prop) (d : dict) k v :
  Forall (λ kv, P kv.2) d → dict_get d k = Some v → P v.
Proof.
  induction d as [|[k0 v0] d IH]; simpl; [done|].
  intros Hd. apply Forall_cons in Hd as [H0 Hd].
  destruct (decide (k = k0)); [by intros [= <-]|by apply IH].
Qed.

Lemma values_missing_keys (P : json → Prop) R T :
  Forall (λ kv, P kv.2) R → Forall (λ kv, P kv.2) (missing_keys R T).
Proof.
  intros HR. rewrite missing_keys_foldl.
  assert (H : ∀ ks acc, Forall (λ kv, P kv.2) acc →
            Forall (λ kv, P kv.2) (foldl (missing_step R T) acc ks)).
  { induction ks as [|k ks IH]; intros acc Hacc; simpl; [done|].
    apply IH. unfold missing_step. destruct (dict_contains k T); [done|].
    destruct (dict_get R k) as [v|] eqn:E; [|done].
    apply values_dict_setitem; [|done]. exact (dict_get_values P R k v HR E). }
  by apply H.
Qed.

Lemma is_dict_merged R T : is_dict T → is_dict (merged R T).
Proof.
  intros HT. rewrite merged_app. unfold is_dict. rewrite dict_keys_app.
  apply NoDup_app. split_and!; [done| |apply missing_keys_is_dict].
  intros k Hk Hm. by apply missing_keys_fresh in Hm.
Qed.

Lemma canonical_merged R T :
  canonical (JObj R) → canonical (JObj T) → canonical (JObj (merged R T)).
Proof.
  rewrite !canonical_obj. intros [_ HR] [HT HvT]. split.
  - by apply is_dict_merged.
  - rewrite merged_app. apply Forall_app. split; [done|].
    by apply values_missing_keys.
Qed.

(** The scanner builds canonical values. *)
Lemma digit_cons_not_nil c d : digit_cons c d ≠ Decimal.Nil.
Proof. unfold digit_cons. by repeat case_match. Qed.

Lemma take_digits_not_nil c r :
  is_digit c = true → (take_digits (c :: r)).1 ≠ Decimal.Nil.
Proof.
  intros Hc. simpl. rewrite Hc. destruct (take_digits r). simpl.
  apply digit_cons_not_nil.
Qed.

Lemma scan_exp_canonical s u sg ed r :
  scan_exp s = (u, sg, ed, r) → ed = Decimal.Nil → u = false ∧ sg = ExpBare.
Proof.
  unfold scan_exp. intros H Hed. subst ed.
  destruct s as [|e s]; [by injection H as <- <- _|].
  destruct ((e =? 101) || (e =? 69)); [|by injection H as <- <- _].
  destruct s as [|c s']; [by injection H as <- <- _|].
  destruct (is_digit c) eqn:Hc.
  { pose proof (take_digits_not_nil c s' Hc) as Hn.
    destruct (take_digits (c :: s')) as [d rest]. injection H as _ _ Hd _.
    by destruct Hn. }
  destruct ((c =? 43) || (c =? 45)); [|by injection H as <- <- _].
  destruct s' as [|c2 s2]; [by injection H as <- <- _|].
  destruct (is_digit c2) eqn:Hc2; [|by injection H as <- <- _].
  pose proof (take_digits_not_nil c2 s2 Hc2) as Hn.
  destruct (take_digits (c2 :: s2)) as [d rest]. injection H as _ _ Hd _.
  by destruct Hn.
Qed.

Lemma scan_unsigned_canonical neg s v r :
  scan_unsigned neg s = Some (v, r) → canonical v.
Proof.
  unfold scan_unsigned. destruct s as [|c s]; [done|].
  destruct (is_digit c); [|done].
  destruct (if c =? 48 then _ else _) as [d rest].
  destruct (scan_frac rest) as [frac rest1].
  destruct (scan_exp rest1) as [[[upper sg] ed] rest2] eqn:E.
  intros [= <- <-].
  pose proof (scan_exp_canonical _ _ _ _ _ E) as Hexp.
  destruct frac, ed; simpl; try done; unfold literal_canonical; simpl;
    (split; [by (left + right)|try done; auto]).
Qed.

Lemma scan_number_canonical s v r : scan_number s = Some (v, r) → canonical v.
Proof.
  rewrite scan_number_sign. destruct s as [|c s]; [done|].
  destruct (c =? 45); apply scan_unsigned_canonical.
Qed.

Lemma scan_constant_canonical s v r : scan_constant s = Some (v, r) → canonical v.
Proof.
  unfold scan_constant. repeat case_match; try done; by intros [= <- <-].
Qed.

Lemma scanner_canonical n :
  (∀ s v r, scan_once n s = Some (v, r) → canonical v)
  ∧ (∀ s ps r, object_pairs n s = Some (ps, r) → Forall (λ kv, canonical kv.2) ps)
  ∧ (∀ s vs r, array_items n s = Some (vs, r) → Forall canonical vs).
Proof.
  induction n as [|n (IHo & IHp & IHa)]; [done|]. split_and!.
  - intros s v r. rewrite scan_once_S. unfold scan_once_body.
    destruct s as [|c s]; [done|].
    destruct (c =? c_quote).
    { destruct (scanstring s) as [[t rest]|]; [|done]. by intros [= <- <-]. }
    destruct (c =? 123).
    { destruct (skip_ws s) as [|c' s']; [done|].
      destruct (c' =? 125). { intros [= <- <-]. simpl. split; [constructor|done]. }
      destruct (c' =? c_quote); [|done].
      destruct (object_pairs n s') as [[ps rest]|] eqn:E; [|done].
      intros [= <- <-]. apply canonical_obj. split; [apply is_dict_of_pairs|].
      apply values_dict_update; [constructor|]. by eapply IHp. }
    destruct (c =? 91).
    { destruct (skip_ws s) as [|c' s']; [done|].
      destruct (c' =? 93). { by intros [= <- <-]. }
      destruct (array_items n (c' :: s')) as [[vs rest]|] eqn:E; [|done].
      intros [= <- <-]. apply canonical_arr. by eapply IHa. }
    destruct (strip_prefix (txt "null") _); [by intros [= <- <-]|].
    destruct (strip_prefix (txt "true") _); [by intros [= <- <-]|].
    destruct (strip_prefix (txt "false") _); [by intros [= <- <-]|].
    destruct (scan_number (c :: s)) as [[v' r']|] eqn:E.
    + intros [= <- <-]. by eapply scan_number_canonical.
    + apply scan_constant_canonical.
  - intros s ps r. rewrite object_pairs_S. unfold object_pairs_body.
    destruct (scanstring s) as [[key s1]|]; [|done].
    destruct (skip_ws s1) as [|c s2]; [done|].
    destruct (c =? 58); [|done].
    destruct (scan_once n (skip_ws s2)) as [[v s3]|] eqn:E; [|done].
    apply IHo in E.
    destruct (skip_ws s3) as [|c' s4]; [done|].
    destruct (c' =? 125). { intros [= <- <-]. by repeat constructor. }
    destruct (c' =? 44); [|done].
    destruct (skip_ws s4) as [|q s5]; [done|].
    destruct (q =? c_quote); [|done].
    destruct (object_pairs n s5) as [[ps' rest]|] eqn:E'; [|done].
    intros [= <- <-]. constructor; [done|]. by eapply IHp.
  - intros s vs r. rewrite array_items_S. unfold array_items_body.
    destruct (scan_once n s) as [[v s1]|] eqn:E; [|done].
    apply IHo in E.
    destruct (skip_ws s1) as [|c s2]; [done|].
    destruct (c =? 93). { intros [= <- <-]. by repeat constructor. }
    destruct (c =? 44); [|done].
    destruct (array_items n (skip_ws s2)) as [[vs' rest]|] eqn:E'; [|done].
    intros [= <- <-]. constructor; [done|]. by eapply IHa.
Qed.

Lemma json_loads_canonical s v : json_loads s = Some v → canonical v.
Proof.
  unfold json_loads.
  destruct (scan_once _ _) as [[v' rest]|] eqn:E; [|done].
  destruct (skip_ws rest); [|done]. intros [= <-].
  by eapply (proj1 (scanner_canonical _)).
Qed.

Lemma json_loads_json_dumps data :
  json_loads (json_dumps data ++ [c_lf]) = Some (norm (JObj data)).
Proof.
  unfold json_loads, json_dumps. rewrite skip_ws_iterencode.
  rewrite (scan_once_iterencode (JObj data) 0%nat _ [c_lf]); [done|by right|].
  rewrite length_app. simpl. lia.
Qed.

(** X2. A mapping [load_json] returns has pairwise distinct keys; it is
    the object the text of the file holds, and loading neither changes the
    tree nor prints. *)
Theorem load_json_returns_distinct_keys
    (path : str * str) (t t' : tree) (o : list event) (d : dict) :
  load_json path t = (t', o, Return d) →
  is_dict d ∧ t' = t ∧ o = []
  ∧ ∃ content, files t !! path = Some content
               ∧ json_loads content = Some (JObj d).
Proof.
  unfold load_json, bind, read_text.
  destruct (files t !! path) as [content|]; [|done].
  destruct (json_loads content) as [v|] eqn:E; [|done].
  destruct v; try done. intros [= <- <- <-].
  pose proof (json_loads_canonical _ _ E) as [Hd _]%canonical_obj.
  split_and!; [done..|]. by exists content.
Qed.

Lemma load_json_returns_distinct_keys_witness : is_dict Ex.R.
Proof.
  destruct (load_json_returns_distinct_keys (txt "en", Ex.common)
              Ex.with_reference Ex.with_reference [] Ex.R) as [H _].
  - vm_compute. reflexivity.
  - exact H.
Defined.

Lemma skip_ws_blank s : Forall (λ c, is_ws c = true) s → skip_ws s = [].
Proof. induction 1 as [|c s Hc _ IH]; simpl; [done|]. by rewrite Hc. Qed.

(** X3. A file that is empty, or holds nothing but JSON whitespace, does
    not load: [load_json] raises [JSONDecodeError]. *)
Theorem blank_file_does_not_load (path : str * str) (content : str) (t : tree) :
  files t !! path = Some content →
  Forall (λ c, is_ws c = true) content →
  load_json path t = (t, [], Raise JSONDecodeError).
Proof.
  intros Hf Hb. unfold load_json, bind, read_text. rewrite Hf.
  unfold json_loads. by rewrite skip_ws_blank.
Qed.

Lemma blank_file_does_not_load_witness :
  let t := Tree [txt "fr"] {[ (txt "fr", Ex.common) := [c_space; c_lf] ]} in
  load_json (txt "fr", Ex.common) t = (t, [], Raise JSONDecodeError).
Proof.
  apply (blank_file_does_not_load _ [c_space; c_lf]).
  - vm_compute. reflexivity.
  - repeat constructor.
Defined.

(** X8. Writing back a mapping that was loaded loses nothing: the text
    [dump_json] writes loads as the same mapping; only for an original
    with a tab among its first 100 characters can it fail to load
    instead. *)
Theorem dump_json_writes_back_what_was_loaded
    (s original_content : str) (d : dict) :
  json_loads s = Some (JObj d) →
  json_loads (dump_text original_content d) = Some (JObj d)
  ∨ (c_tab ∈ take 100 original_content
     ∧ json_loads (dump_text original_content d) = None).
Proof.
  intros Hd%json_loads_canonical%canonical_norm.
  destruct (decide (c_tab ∈ take 100 original_content)) as [Htab|Hno].
  - destruct (json_loads_dump_text original_content d) as [H|H];
      [by right|left]. by rewrite H, Hd.
  - left. by rewrite (dump_text_spaces _ _ Hno), json_loads_json_dumps, Hd.
Qed.

Lemma dump_json_writes_back_what_was_loaded_witness :
  json_loads (dump_text Ex.es_complete Ex.T_es) = Some (JObj Ex.T_es)
  ∨ (c_tab ∈ take 100 Ex.es_complete
     ∧ json_loads (dump_text Ex.es_complete Ex.T_es) = None).
Proof.
  apply (dump_json_writes_back_what_was_loaded Ex.es_complete).
  vm_compute. reflexivity.
Defined.

(** X9. A mapping from distinct keys to strings, whatever characters the
    keys and the strings hold, is read back as it is from what [dump_json]
    writes for a space-indented original. *)
Theorem flat_string_mapping_survives_the_rewrite
    (original_content : str) (d : dict) :
  is_dict d →
  Forall (λ kv, ∃ s, kv.2 = JStr s) d →
  c_tab ∉ take 100 original_content →
  json_loads (dump_text original_content d) = Some (JObj d).
Proof.
  intros Hd Hs Hno.
  rewrite (dump_text_spaces _ _ Hno), json_loads_json_dumps. f_equal.
  apply canonical_norm, canonical_obj. split; [done|].
  eapply Forall_impl; [exact Hs|]. by intros kv [s ->].
Qed.

Lemma flat_string_mapping_survives_the_rewrite_witness :
  json_loads (dump_text Ex.es_complete Ex.R) = Some (JObj Ex.R).
Proof.
  apply flat_string_mapping_survives_the_rewrite.
  - apply (bool_decide_unpack _). vm_compute. exact I.
  - repeat (constructor; [by eexists|]). constructor.
  - apply (bool_decide_unpack _). vm_compute. exact I.
Defined.

(** X13. When the step returns for a locale whose file is space-indented
    and loads as an object, the file on disk afterwards loads as the
    merged mapping: the target's entries followed by the missing ones. *)
Theorem after_the_step_the_file_holds_the_merged_mapping
    (filename lang_code ref_content content : str) (R T : dict)
    (total : nat) (t : tree) :
  json_loads ref_content = Some (JObj R) →
  skipped lang_code = false →
  files t !! (lang_code, filename) = Some content →
  json_loads content = Some (JObj T) →
  c_tab ∉ take 100 content →
  encodable (dump_text content (merged R T)) = true →
  let r := sync_lang filename R total lang_code t in
  r.2 = Return (total + length (missing_keys R T))%nat
  ∧ ∃ written,
      files r.1.1 !! (lang_code, filename) = Some written
      ∧ json_loads written = Some (JObj (merged R T)).
Proof.
  intros HR Hskip Hfile HT Hno Henc. simpl.
  destruct (decide (missing_keys R T = [])) as [Hm|Hm].
  - rewrite (sync_lang_complete _ _ _ _ _ Hskip _ Hfile _ HT Hm). simpl.
    rewrite Hm. split; [f_equal; simpl; lia|].
    exists content. split; [done|].
    by rewrite merged_app, Hm, app_nil_r.
  - rewrite (sync_lang_added _ _ _ _ _ Hskip _ Hfile _ HT Hm Henc). simpl.
    split; [done|]. eexists. split; [apply lookup_insert_eq|].
    rewrite (dump_text_spaces _ _ Hno), json_loads_json_dumps.
    f_equal. apply canonical_norm, canonical_merged; by eapply json_loads_canonical.
Qed.

Lemma after_the_step_the_file_holds_the_merged_mapping_witness :
  let content := jsq "{'a.c': 'Mondo'}" in
  let t := Tree [txt "it"] {[ (txt "it", Ex.common) := content ]} in
  let r := sync_lang Ex.common Ex.R 0 (txt "it") t in
  r.2 = Return 1%nat
  ∧ ∃ written,
      files r.1.1 !! (txt "it", Ex.common) = Some written
      ∧ json_loads written
        = Some (JObj [(txt "a.c", JStr (txt "Mondo"));
                      (txt "a.b", JStr (txt "Hello"))]).
Proof.
  apply (after_the_step_the_file_holds_the_merged_mapping Ex.common (txt "it")
           Ex.reference (jsq "{'a.c': 'Mondo'}") Ex.R
           [(txt "a.c", JStr (txt "Mondo"))]).
  - vm_compute. reflexivity.
  - vm_compute. reflexivity.
  - vm_compute. reflexivity.
  - vm_compute. reflexivity.
  - apply (bool_decide_unpack _). vm_compute. exact I.
  - vm_compute. reflexivity.
Defined.

(** ** Fuel for every text *)

Lemma skip_ws_length s : (length (skip_ws s) ≤ length s)%nat.
Proof.
  induction s as [|c s IH]; simpl; [lia|]. destruct (is_ws c); simpl; lia.
Qed.

Lemma scanstring_length_fuel n s t r :
  (length s < n)%nat → scanstring s = Some (t, r) → (length r < length s)%nat.
Proof.
  revert s t r. induction n as [|n IH]; [lia|].
  intros [|c s] t r Hn; [done|]. rewrite scanstring_cons. simpl in Hn.
  destruct (c =? c_quote). { intros [= <- <-]. simpl. lia. }
  destruct (c =? c_backslash).
  - destruct s as [|e r1]; [done|]. simpl in Hn.
    destruct (e =? 117).
    + destruct r1 as [|h1 [|h2 [|h3 [|h4 r2]]]]; try done. simpl in Hn.
      destruct (hex4 h1 h2 h3 h4) as [uni|]; [|done].
      assert (Hr2 : ∀ c0, scons c0 (scanstring r2) = Some (t, r) →
                (length r < length (c :: e :: h1 :: h2 :: h3 :: h4 :: r2))%nat).
      { intros c0 (t0 & H & _)%scons_Some. apply IH in H; simpl; lia. }
      destruct (is_high_surrogate uni); [|apply Hr2].
      destruct r2 as [|b [|u [|l1 [|l2 [|l3 [|l4 r3]]]]]]; try apply Hr2.
      destruct ((b =? c_backslash) && (u =? 117)); [|apply Hr2].
      destruct (hex4 l1 l2 l3 l4) as [uni2|]; [|done].
      destruct (is_low_surrogate uni2); [|apply Hr2].
      intros (t0 & H & _)%scons_Some. apply IH in H; simpl in *; lia.
    + destruct (unescape e) as [c'|]; [|done].
      intros (t0 & H & _)%scons_Some. apply IH in H; simpl; lia.
  - destruct (c <? 32); [done|].
    intros (t0 & H & _)%scons_Some. apply IH in H; simpl; lia.
Qed.

Lemma scanstring_length s t r :
  scanstring s = Some (t, r) → (length r < length s)%nat.
Proof. apply (scanstring_length_fuel (S (length s))). lia. Qed.

Lemma take_digits_length s : (length (take_digits s).2 ≤ length s)%nat.
Proof.
  induction s as [|c s IH]; simpl; [lia|].
  destruct (is_digit c); [|simpl; lia].
  destruct (take_digits s). simpl in *. lia.
Qed.

Lemma scan_frac_length s : (length (scan_frac s).2 ≤ length s)%nat.
Proof.
  unfold scan_frac. destruct s as [|c r]; [done|].
  destruct (c =? 46); [|done]. destruct r as [|d r']; [done|].
  destruct (is_digit d); [|done].
  pose proof (take_digits_length (d :: r')). simpl length in *. lia.
Qed.

Lemma scan_exp_length s : (length (scan_exp s).2 ≤ length s)%nat.
Proof.
  unfold scan_exp. destruct s as [|e r]; [done|].
  destruct ((e =? 101) || (e =? 69)); [|done].
  destruct r as [|c r']; [done|].
  destruct (is_digit c).
  { pose proof (take_digits_length (c :: r')).
    destruct (take_digits (c :: r')). simpl in *. lia. }
  destruct ((c =? 43) || (c =? 45)); [|done].
  destruct r' as [|c2 r2]; [done|].
  destruct (is_digit c2); [|done].
  pose proof (take_digits_length (c2 :: r2)).
  destruct (take_digits (c2 :: r2)). simpl in *. lia.
Qed.

Lemma scan_unsigned_length neg s v r :
  scan_unsigned neg s = Some (v, r) → (length r < length s)%nat.
Proof.
  unfold scan_unsigned. destruct s as [|c s]; [done|].
  destruct (is_digit c) eqn:Hc; [|done].
  assert (Hd : ∀ d rest,
    (if c =? 48 then (Decimal.D0 Decimal.Nil, s) else take_digits (c :: s))
    = (d, rest) → (length rest ≤ length s)%nat).
  { intros d rest. destruct (c =? 48); [by intros [= _ <-]|].
    simpl. rewrite Hc. pose proof (take_digits_length s).
    destruct (take_digits s). simpl in *. by intros [= _ <-]. }
  destruct (if c =? 48 then _ else _) as [d rest]. specialize (Hd _ _ eq_refl).
  pose proof (scan_frac_length rest).
  destruct (scan_frac rest) as [frac rest1].
  pose proof (scan_exp_length rest1).
  destruct (scan_exp rest1) as [[[upper sg] ed] rest2].
  intros [= _ <-]. simpl in *. lia.
Qed.

Lemma scan_number_length s v r :
  scan_number s = Some (v, r) → (length r < length s)%nat.
Proof.
  rewrite scan_number_sign. destruct s as [|c s]; [done|].
  destruct (c =? 45); intros H%scan_unsigned_length; simpl in *; lia.
Qed.

Lemma scan_constant_length s v r :
  scan_constant s = Some (v, r) → (length r < length s)%nat.
Proof.
  unfold scan_constant.
  repeat (destruct (strip_prefix _ s) as [rest|] eqn:E;
          [apply strip_prefix_length in E; intros [= _ <-]; simpl in E; lia
          |clear E]).
  done.
Qed.

Lemma scanner_fuel_enough m :
  fuel_enough scan_once m ∧ fuel_enough object_pairs m
  ∧ fuel_enough array_items m.
Proof.
  induction m as [|m (IHo & IHp & IHa)]; [by split_and!; intros s x r|].
  split_and!; intros s x r.
  - rewrite scan_once_S.
    assert (Hgoal : ∀ k,
      scan_once_body (object_pairs m) (array_items m) s = Some (x, r) →
      (length r < length s)%nat
      ∧ ((length s - length r ≤ S k)%nat →
         scan_once_body (object_pairs k) (array_items k) s = Some (x, r))).
    { intros k. unfold scan_once_body. destruct s as [|c s]; [done|].
      destruct (c =? c_quote).
      { destruct (scanstring s) as [[t rest]|] eqn:E; [|done].
        apply scanstring_length in E. intros [= <- <-]. simpl. split; [lia|done]. }
      destruct (c =? 123).
      { pose proof (skip_ws_length s) as Hws.
        destruct (skip_ws s) as [|c' s']; [done|]. simpl in Hws.
        destruct (c' =? 125). { intros [= <- <-]. simpl. split; [lia|done]. }
        destruct (c' =? c_quote); [|done].
        destruct (object_pairs m s') as [[ps rest]|] eqn:E; [|done].
        apply IHp in E as [Hlen Hk]. intros [= <- <-]. simpl. split; [lia|].
        intros Hb. rewrite Hk; [done|lia]. }
      destruct (c =? 91).
      { pose proof (skip_ws_length s) as Hws.
        destruct (skip_ws s) as [|c' s']; [done|]. simpl in Hws.
        destruct (c' =? 93). { intros [= <- <-]. simpl. split; [lia|done]. }
        destruct (array_items m (c' :: s')) as [[vs rest]|] eqn:E; [|done].
        apply IHa in E as [Hlen Hk]. intros [= <- <-]. simpl in *. split; [lia|].
        intros Hb. rewrite Hk; [done|simpl; lia]. }
      destruct (strip_prefix (txt "null") _) as [rest|] eqn:E1.
      { apply strip_prefix_length in E1. intros [= <- <-]. simpl in *.
        split; [lia|done]. }
      destruct (strip_prefix (txt "true") _) as [rest|] eqn:E2.
      { apply strip_prefix_length in E2. intros [= <- <-]. simpl in *.
        split; [lia|done]. }
      destruct (strip_prefix (txt "false") _) as [rest|] eqn:E3.
      { apply strip_prefix_length in E3. intros [= <- <-]. simpl in *.
        split; [lia|done]. }
      destruct (scan_number (c :: s)) as [[v' r']|] eqn:E.
      - apply scan_number_length in E. intros [= <- <-]. split; [done|done].
      - intros H. split; [by apply scan_constant_length in H|done]. }
    intros H. split; [by apply (Hgoal O)|].
    intros [|k] Hk.
    + destruct (Hgoal O H) as [Hlen _]. lia.
    + rewrite scan_once_S. by apply Hgoal.
  - rewrite object_pairs_S.
    assert (Hgoal : ∀ k,
      object_pairs_body (scan_once m) (object_pairs m) s = Some (x, r) →
      (length r < length s)%nat
      ∧ ((length s - length r ≤ S k)%nat →
         object_pairs_body (scan_once k) (object_pairs k) s = Some (x, r))).
    { intros k. unfold object_pairs_body.
      destruct (scanstring s) as [[key s1]|] eqn:Es; [|done].
      apply scanstring_length in Es.
      pose proof (skip_ws_length s1) as Hw1.
      destruct (skip_ws s1) as [|c s2]; [done|]. simpl in Hw1.
      destruct (c =? 58); [|done].
      pose proof (skip_ws_length s2) as Hw2.
      destruct (scan_once m (skip_ws s2)) as [[v s3]|] eqn:E; [|done].
      apply IHo in E as [Hlen Hk1].
      pose proof (skip_ws_length s3) as Hw3.
      destruct (skip_ws s3) as [|c' s4] eqn:E3; [done|]. simpl in Hw3.
      destruct (c' =? 125) eqn:Eclose.
      { intros [= <- <-]. split; [lia|]. intros Hb.
        rewrite Hk1 by lia. by rewrite E3, Eclose. }
      destruct (c' =? 44) eqn:Ecomma; [|done].
      pose proof (skip_ws_length s4) as Hw4.
      destruct (skip_ws s4) as [|q s5] eqn:E4; [done|]. simpl in Hw4.
      destruct (q =? c_quote) eqn:Eq; [|done].
      destruct (object_pairs m s5) as [[ps' rest]|] eqn:E'; [|done].
      apply IHp in E' as [Hlen' Hk2].
      intros [= <- <-]. split; [lia|]. intros Hb.
      rewrite Hk1 by lia. rewrite E3, Eclose, Ecomma, E4, Eq.
      by rewrite Hk2 by lia. }
    intros H. split; [by apply (Hgoal O)|].
    intros [|k] Hk.
    + destruct (Hgoal O H) as [Hlen _]. lia.
    + rewrite object_pairs_S. by apply Hgoal.
  - rewrite array_items_S.
    assert (Hgoal : ∀ k,
      array_items_body (scan_once m) (array_items m) s = Some (x, r) →
      (length r < length s)%nat
      ∧ ((length s - length r ≤ S k)%nat →
         array_items_body (scan_once k) (array_items k) s = Some (x, r))).
    { intros k. unfold array_items_body.
      destruct (scan_once m s) as [[v s1]|] eqn:E; [|done].
      apply IHo in E as [Hlen Hk1].
      pose proof (skip_ws_length s1) as Hw1.
      destruct (skip_ws s1) as [|c s2] eqn:E1; [done|]. simpl in Hw1.
      destruct (c =? 93) eqn:Eclose.
      { intros [= <- <-]. split; [lia|]. intros Hb.
        rewrite Hk1 by lia. by rewrite E1, Eclose. }
      destruct (c =? 44) eqn:Ecomma; [|done].
      pose proof (skip_ws_length s2) as Hw2.
      destruct (array_items m (skip_ws s2)) as [[vs' rest]|] eqn:E'; [|done].
      apply IHa in E' as [Hlen' Hk2].
      intros [= <- <-]. split; [lia|]. intros Hb.
      rewrite Hk1 by lia. rewrite E1, Eclose, Ecomma.
      by rewrite Hk2 by lia. }
    intros H. split; [by apply (Hgoal O)|].
    intros [|k] Hk.
    + destruct (Hgoal O H) as [Hlen _]. lia.
    + rewrite array_items_S. by apply Hgoal.
Qed.

(** [json_loads] gives the scanner fuel enough: what any fuel reads of a
    text, [json_loads] reads. *)
Lemma json_loads_fuel m s v rest :
  scan_once m (skip_ws s) = Some (v, rest) → skip_ws rest = [] →
  json_loads s = Some v.
Proof.
  intros H Hrest. unfold json_loads.
  destruct (proj1 (scanner_fuel_enough m) _ _ _ H) as [_ Hk].
  rewrite Hk; [by rewrite Hrest|].
  pose proof (skip_ws_length s). lia.
Qed.

(** ** The text [dump_json] writes *)

Lemma Forall_plain_txt_ge (l : str) :
  forallb (λ c, 32 <=? c) l = true → Forall plain l.
Proof.
  induction l as [|c l IH]; simpl; [constructor|].
  intros [Hc Hl]%andb_prop. constructor; [|auto].
  right. by apply N.leb_le.
Qed.

Lemma plain_chars_of_uint d : Forall plain (chars_of_uint d).
Proof. induction d; simpl; constructor; try done; by right. Qed.

Lemma plain_hex_digit n : plain (hex_digit n).
Proof. right. unfold hex_digit. destruct (n <? 10); lia. Qed.

Lemma plain_escape_char c : Forall plain (escape_char c).
Proof.
  unfold escape_char.
  repeat (case_match; [by apply Forall_plain_txt_ge|]).
  destruct (N.ltb_spec c 32).
  - apply Forall_app. split; [by apply Forall_plain_txt_ge|].
    apply Forall_cons_2; [apply plain_hex_digit|].
    apply Forall_singleton, plain_hex_digit.
  - apply Forall_singleton. by right.
Qed.

Lemma plain_encode_basestring s : Forall plain (encode_basestring s).
Proof.
  unfold encode_basestring. constructor; [by right|].
  apply Forall_app. split; [|by apply Forall_singleton; right].
  induction s as [|c s IH]; simpl; [constructor|].
  apply Forall_app. split; [apply plain_escape_char|done].
Qed.

Lemma plain_int_repr z : Forall plain (int_repr z).
Proof.
  destruct z; simpl; [by apply Forall_plain_txt_ge|apply plain_chars_of_uint|].
  constructor; [by right|apply plain_chars_of_uint].
Qed.

Lemma plain_float_repr f : Forall plain (float_repr f).
Proof.
  destruct f as [l| |[|]]; simpl; try (by apply Forall_plain_txt_ge).
  repeat apply Forall_app_2.
  - destruct (f_neg l); [|constructor]. by apply Forall_plain_txt_ge.
  - apply plain_chars_of_uint.
  - unfold frac_chars. destruct (f_frac l) eqn:E; [constructor|..];
      (constructor; [by right|]); rewrite <- E; apply plain_chars_of_uint.
  - unfold exp_chars. destruct (f_exp l) eqn:E; [constructor|..];
      (constructor; [right; by destruct (f_upper l)|]);
      (apply Forall_app_2; [by destruct (f_sign l); apply Forall_plain_txt_ge|]);
      rewrite <- E; apply plain_chars_of_uint.
Qed.

Lemma plain_newline_indent level : Forall plain (newline_indent level).
Proof.
  unfold newline_indent. constructor; [by left|].
  apply Forall_replicate. by right.
Qed.

Lemma Forall_join (P : N → Prop) sep parts :
  Forall P sep → Forall (Forall P) parts → Forall P (join sep parts).
Proof.
  intros Hsep. induction 1 as [|p ps Hp Hps IH]; simpl; [constructor|].
  destruct ps as [|q ps]; [done|].
  apply Forall_app_2; [done|]. apply Forall_app_2; [done|]. apply IH.
Qed.

Lemma plain_iterencode v : ∀ level, Forall plain (iterencode level v).
Proof.
  induction v as [|b|z|f|s|l IH|d IH] using json_nested_ind; intros level.
  - by apply Forall_plain_txt_ge.
  - destruct b; by apply Forall_plain_txt_ge.
  - apply plain_int_repr.
  - apply plain_float_repr.
  - apply plain_encode_basestring.
  - destruct l as [|x l]; [by apply Forall_plain_txt_ge|].
    rewrite iterencode_arr. constructor; [by right|].
    apply Forall_app_2; [apply plain_newline_indent|].
    apply Forall_app_2.
    + apply Forall_join.
      * constructor; [by right|apply plain_newline_indent].
      * apply Forall_forall. intros p Hp%list_elem_of_In.
        apply in_map_iff in Hp as (y & <- & Hy%list_elem_of_In).
        rewrite Forall_forall in IH. by apply IH.
    + apply Forall_app_2; [apply plain_newline_indent|].
      apply Forall_singleton. by right.
  - destruct d as [|kv d]; [by apply Forall_plain_txt_ge|].
    rewrite iterencode_obj. constructor; [by right|].
    apply Forall_app_2; [apply plain_newline_indent|].
    apply Forall_app_2.
    + apply Forall_join.
      * constructor; [by right|apply plain_newline_indent].
      * apply Forall_forall. intros p Hp%list_elem_of_In.
        apply in_map_iff in Hp as (y & <- & Hy%list_elem_of_In).
        rewrite Forall_forall in IH. unfold member.
        apply Forall_app_2; [apply plain_encode_basestring|].
        apply Forall_app_2; [by apply Forall_plain_txt_ge|]. by apply IH.
    + apply Forall_app_2; [apply plain_newline_indent|].
      apply Forall_singleton. by right.
Qed.

Lemma plain_not_tab c : plain c → c ≠ c_tab.
Proof. intros [->|H]; [done|]. intros ->. by compute in H. Qed.

(** X4. An original without a tab among its first 100 characters is
    rewritten as [json.dumps] formats the data, followed by a line feed;
    that text has no control character but line feeds, so no tab, and
    is itself detected as space-indented. *)
Theorem space_indented_file_is_rewritten_without_a_tab
    (original_content : str) (data : dict) :
  c_tab ∉ take 100 original_content →
  dump_text original_content data = json_dumps data ++ [c_lf]
  ∧ Forall plain (dump_text original_content data)
  ∧ detect_indent (dump_text original_content data) = four_spaces.
Proof.
  intros Hno. rewrite (dump_text_spaces _ _ Hno).
  assert (Hp : Forall plain (json_dumps data ++ [c_lf])).
  { apply Forall_app_2; [apply plain_iterencode|].
    apply Forall_singleton. by left. }
  split_and!; [done..|].
  unfold detect_indent. rewrite bool_decide_false; [done|].
  intros Hin%elem_of_take. destruct Hin as (i & Hi & _).
  apply list_elem_of_lookup_2 in Hi. rewrite Forall_forall in Hp.
  by apply Hp, plain_not_tab in Hi.
Qed.

Lemma space_indented_file_is_rewritten_without_a_tab_witness :
  detect_indent (dump_text Ex.es_complete Ex.R) = four_spaces.
Proof.
  destruct (space_indented_file_is_rewritten_without_a_tab Ex.es_complete Ex.R)
    as (_ & _ & H).
  - apply (bool_decide_unpack _). vm_compute. exact I.
  - exact H.
Defined.

Lemma replace_from_length s : ∀ skip n,
  (n ≤ count_from four_spaces skip s)%nat →
  (length (replace_from four_spaces [c_tab] skip n s) + 3 * n
   + Nat.min skip (length s) = length s)%nat.
Proof.
  induction s as [|c r IH]; intros skip n Hn.
  - simpl in *. lia.
  - destruct skip as [|k].
    + destruct n as [|n]; [simpl; lia|].
      cbn [replace_from count_from] in *.
      destruct (startswith four_spaces (c :: r)) eqn:E.
      * apply startswith_four_spaces in E as [r4 E].
        injection E as -> ->. simpl length in *.
        change (4 - 1)%nat with 3%nat in *.
        specialize (IH 3%nat n ltac:(lia)). simpl length in IH.
        lia.
      * specialize (IH 0%nat (S n) Hn). simpl length. lia.
    + cbn [replace_from count_from] in *.
      specialize (IH k n Hn). simpl length. lia.
Qed.

Lemma str_replace_zero old new s : str_replace old new 0 s = s.
Proof. unfold str_replace. by destruct s. Qed.

(** X5. On a line that is not blank, line 63 replaces a quarter of the
    runs of four spaces, rounded down, and not all of them: the line gets
    three characters shorter for each four runs it has.  A blank line is
    kept. *)
Theorem retab_line_replaces_a_quarter_of_the_runs (line : str) :
  if truthy (strip line)
  then (length (retab_line line) + 3 * (str_count four_spaces line / 4)
        = length line)%nat
  else retab_line line = line.
Proof.
  unfold retab_line. destruct (truthy (strip line)); [|done].
  unfold str_replace, str_count.
  pose proof (replace_from_length line 0
                (count_from four_spaces 0 line / 4)) as H.
  assert (count_from four_spaces 0 line / 4 ≤ count_from four_spaces 0 line)%nat
    by (apply Nat.Div0.div_le_upper_bound; lia).
  specialize (H ltac:(done)). lia.
Qed.

Lemma retab_line_few line :
  (str_count four_spaces line < 4)%nat → retab_line line = line.
Proof.
  intros H. unfold retab_line. destruct (truthy _); [|done].
  rewrite Nat.div_small by done. apply str_replace_zero.
Qed.

(** X6. When no line of the text [json.dumps] formats has four runs of
    four spaces, the conversion to tabs does nothing: whatever the
    indentation of the original, the text written is that of [json.dumps]
    and a line feed. *)
Theorem shallow_document_is_never_converted_to_tabs
    (original_content : str) (data : dict) :
  Forall (λ line, (str_count four_spaces line < 4)%nat)
         (split c_lf (json_dumps data)) →
  dump_text original_content data = json_dumps data ++ [c_lf].
Proof.
  intros Hlines. unfold dump_text. destruct (bool_decide _); [|done].
  f_equal. rewrite <- (join_split c_lf (json_dumps data)) at 2. f_equal.
  induction Hlines as [|l ls Hl _ IH]; csimpl; [done|].
  by rewrite IH, retab_line_few.
Qed.

Lemma shallow_document_is_never_converted_to_tabs_witness :
  dump_text Ex.fr_tabs (merged Ex.R Ex.T_fr)
  = json_dumps (merged Ex.R Ex.T_fr) ++ [c_lf].
Proof.
  apply shallow_document_is_never_converted_to_tabs.
  apply (bool_decide_unpack _). vm_compute. exact I.
Defined.

Lemma retab_unspaced s s' : retab s s' → unspaced s = unspaced s'.
Proof.
  unfold unspaced. induction 1 as [|c s s' _ IH|s s' _ IH]; simpl; [done| |done].
  destruct (negb _); by rewrite IH.
Qed.

(** X7. Whatever the original, the text [dump_json] writes is the text of
    [json.dumps] and a line feed with some runs of four spaces turned into
    tabs: every other character is kept, in its place, and the text gets
    no longer. *)
Theorem dump_json_changes_nothing_but_runs_of_spaces
    (original_content : str) (data : dict) :
  retab (json_dumps data ++ [c_lf]) (dump_text original_content data)
  ∧ unspaced (dump_text original_content data)
    = unspaced (json_dumps data ++ [c_lf])
  ∧ (length (dump_text original_content data)
     ≤ length (json_dumps data ++ [c_lf]))%nat.
Proof.
  destruct (dump_text_retab original_content data) as (f & -> & Hf).
  assert (H : retab (json_dumps data ++ [c_lf]) (f ++ [c_lf])).
  { apply retab_app; [done|apply retab_refl]. }
  split_and!; [done|symmetry; by apply retab_unspaced|].
  clear Hf. induction H; simpl in *; lia.
Qed.

(** ** A value that cannot be encoded *)

Lemma elem_of_join (c : N) sep p ps : p ∈ ps → c ∈ p → c ∈ join sep ps.
Proof.
  intros Hp Hc. induction ps as [|q ps IH]; [by apply elem_of_nil in Hp|].
  destruct ps as [|q' ps].
  - apply list_elem_of_singleton in Hp as ->. done.
  - rewrite join_cons2, !elem_of_app. apply elem_of_cons in Hp as [->|Hp]; auto.
Qed.

Lemma escape_char_surrogate c : is_surrogate c = true → escape_char c = [c].
Proof.
  unfold is_surrogate, escape_char. intros [H1 _]%andb_prop.
  apply N.leb_le in H1.
  assert (Hk : ∀ k, k < 0xD800 → (c =? k) = false).
  { intros k Hlt. apply N.eqb_neq. lia. }
  rewrite !Hk by done.
  destruct (N.ltb_spec c 32); [lia|done].
Qed.

Lemma elem_of_encode_surrogate c s :
  c ∈ s → is_surrogate c = true → c ∈ encode_basestring s.
Proof.
  intros Hc Hs. unfold encode_basestring. apply list_elem_of_further, elem_of_app.
  left. induction s as [|x s IH]; [by apply elem_of_nil in Hc|]. simpl.
  apply elem_of_app. apply elem_of_cons in Hc as [<-|Hc]; [|auto].
  left. rewrite escape_char_surrogate by done. apply list_elem_of_here.
Qed.

Lemma elem_of_json_dumps_value c k s (d : dict) :
  (k, JStr s) ∈ d → c ∈ s → is_surrogate c = true → c ∈ json_dumps d.
Proof.
  intros Hd Hc Hs. unfold json_dumps.
  destruct d as [|kv d]; [by apply elem_of_nil in Hd|].
  rewrite iterencode_obj. apply list_elem_of_further.
  rewrite !elem_of_app. right. left.
  apply (elem_of_join c _ (member 1 (k, JStr s))).
  - apply list_elem_of_In, in_map_iff. exists (k, JStr s).
    by rewrite <- list_elem_of_In.
  - unfold member. rewrite !elem_of_app. right. right.
    by apply elem_of_encode_surrogate.
Qed.

Lemma retab_elem_of s s' c : retab s s' → c ∈ s → c ≠ c_space → c ∈ s'.
Proof.
  intros H Hc Hne. induction H as [|x s s' _ IH|s s' _ IH].
  - done.
  - apply elem_of_cons in Hc as [->|Hc]; [left|right; auto].
  - right. apply IH.
    repeat (apply elem_of_cons in Hc as [->|Hc]; [done|]). done.
Qed.

Lemma dict_get_elem_of (d : dict) k v : dict_get d k = Some v → (k, v) ∈ d.
Proof.
  induction d as [|[k0 v0] d IH]; simpl; [done|].
  destruct (decide (k = k0)) as [->|]; [intros [= ->]; left|right; auto].
Qed.

Lemma encodable_false s c : c ∈ s → is_surrogate c = true → encodable s = false.
Proof.
  intros Hc Hs. unfold encodable. apply not_true_is_false.
  intros H. rewrite forallb_forall in H.
  apply list_elem_of_In, H in Hc. by rewrite Hs in Hc.
Qed.

(** X14. When a key the target lacks has, in the reference, a string
    with a surrogate code point, the step raises [UnicodeEncodeError] and
    leaves the locale's file empty: the file was opened for writing before
    the text was encoded. *)
Theorem lone_surrogate_in_an_added_value_empties_the_file
    (filename lang_code content k s : str) (c : N) (R T : dict)
    (total : nat) (t : tree) :
  skipped lang_code = false →
  files t !! (lang_code, filename) = Some content →
  json_loads content = Some (JObj T) →
  dict_get R k = Some (JStr s) → k ∉ dict_keys T →
  c ∈ s → is_surrogate c = true →
  sync_lang filename R total lang_code t
  = (with_file t (lang_code, filename) [], [], Raise UnicodeEncodeError).
Proof.
  intros Hskip Hfile HT Hget Hk Hc Hs.
  assert (HkR : k ∈ dict_keys R) by (apply dict_get_is_Some; eauto).
  assert (Hin : (k, JStr s) ∈ merged R T).
  { apply dict_get_elem_of.
    rewrite merged_app, dict_get_app_r by done.
    by rewrite missing_keys_get. }
  apply (sync_lang_unencodable _ _ _ _ _ Hskip _ Hfile _ HT).
  - intros Hm. apply (missing_keys_complete R T k HkR) in Hk.
    rewrite Hm in Hk. by apply elem_of_nil in Hk.
  - destruct (dump_text_retab content (merged R T)) as (f & -> & Hf).
    apply (encodable_false _ c); [|done]. apply elem_of_app. left.
    apply (retab_elem_of _ _ _ Hf); [by eapply elem_of_json_dumps_value|].
    intros ->. done.
Qed.

Lemma lone_surrogate_in_an_added_value_empties_the_file_witness :
  let R := [(txt "a", JStr [0xD83D])] in
  let t := Tree [txt "fr"] {[ (txt "fr", Ex.common) := jsq "{}" ]} in
  json_loads (jsq "{'a': '\ud83d'}") = Some (JObj R)
  ∧ sync_lang Ex.common R 0 (txt "fr") t
    = (with_file t (txt "fr", Ex.common) [], [], Raise UnicodeEncodeError).
Proof.
  split; [vm_compute; reflexivity|].
  apply (lone_surrogate_in_an_added_value_empties_the_file Ex.common (txt "fr")
           (jsq "{}") (txt "a") [0xD83D] 0xD83D _ []).
  - vm_compute. reflexivity.
  - vm_compute. reflexivity.
  - vm_compute. reflexivity.
  - vm_compute. reflexivity.
  - apply (bool_decide_unpack _). vm_compute. exact I.
  - apply (bool_decide_unpack _). vm_compute. exact I.
  - vm_compute. reflexivity.
Defined.

(** ** The loop and its report *)

Lemma elem_of_sorted x l : x ∈ sorted l ↔ x ∈ l.
Proof. by rewrite sorted_Permutation. Qed.

Lemma sync_lang_count_within filename R total lang_code t :
  Forall (count_within (length R)) (sync_lang filename R total lang_code t).1.2.
Proof.
  destruct (sync_lang_cases filename R total lang_code t) as
    [| | | | |content T _ _ _ Hm _|]; simpl; repeat constructor.
  - destruct (missing_keys R T); [done|simpl; lia].
  - apply length_missing_keys.
Qed.

(** X15. Every count [sync_file] prints for a locale is at least 1 and at
    most the number of keys of the reference. *)
Theorem added_counts_are_within_the_reference
    (filename ref_content : str) (R : dict) (t : tree) :
  files t !! en_path filename = Some ref_content →
  json_loads ref_content = Some (JObj R) →
  Forall (count_within (length R)) (sync_file filename t).1.2.
Proof.
  intros Href Hload. rewrite (sync_file_loop _ _ _ Href _ Hload).
  unfold locale_loop.
  destruct (for_each_inv (λ _, True) (count_within (length R))
              (sync_lang filename R)) with
    (l := sorted (subdirs t)) (acc := O) (t := t) as [_ H]; [|done|].
  - intros acc l t0 _. split; [done|apply sync_lang_count_within].
  - destruct (for_each _ _ _ _) as [[t' o] r]; simpl in *.
    by constructor.
Qed.

Lemma added_counts_are_within_the_reference_witness :
  Forall (count_within 2) (sync_file Ex.common Ex.with_reference).1.2.
Proof.
  apply (added_counts_are_within_the_reference Ex.common Ex.reference Ex.R).
  - vm_compute. reflexivity.
  - vm_compute. reflexivity.
Defined.

Lemma added_total_app o1 o2 :
  added_total (o1 ++ o2) = (added_total o1 + added_total o2)%nat.
Proof.
  induction o1 as [|e o1 IH]; simpl; [done|]. destruct e; simpl; lia.
Qed.

Lemma sync_lang_total filename en_data total lang_code t n :
  (sync_lang filename en_data total lang_code t).2 = Return n →
  n = (total + added_total (sync_lang filename en_data total lang_code t).1.2)%nat.
Proof.
  destruct (sync_lang_cases filename en_data total lang_code t); simpl;
    intros [= <-]; lia.
Qed.

Lemma for_each_total filename en_data l acc t n :
  (for_each (sync_lang filename en_data) acc l t).2 = Return n →
  n = (acc + added_total (for_each (sync_lang filename en_data) acc l t).1.2)%nat.
Proof.
  revert acc t. induction l as [|x l IH]; intros acc t; simpl.
  - intros [= <-]. lia.
  - unfold bind. pose proof (sync_lang_total filename en_data acc x t) as Hx.
    destruct (sync_lang filename en_data acc x t) as [[t1 o1] [a|e1]];
      simpl in *; [|done].
    specialize (IH a t1). specialize (Hx a eq_refl).
    destruct (for_each _ a l t1) as [[t2 o2] r]; simpl in *.
    intros Hr. specialize (IH Hr). rewrite added_total_app. lia.
Qed.

Lemma sync_file_total (filename : str) (t : tree) (n : nat) :
  (sync_file filename t).2 = Return n →
  n = added_total (sync_file filename t).1.2.
Proof.
  destruct (sync_file_cases filename t) as [->|[[e ->]|(c & d & _ & _ & ->)]];
    simpl; [by intros [= <-]|done|].
  unfold locale_loop.
  pose proof (for_each_total filename d (sorted (subdirs t)) O t n) as H.
  destruct (for_each _ _ _ _) as [[t' o] r]; simpl in *. done.
Qed.

(** X16. The total [sync_file] returns is the sum of the counts it
    printed for the locales. *)
Theorem returned_total_is_the_sum_of_the_counts_printed
    (filename : str) (t : tree) (n : nat) :
  (sync_file filename t).2 = Return n →
  n = added_total (sync_file filename t).1.2.
Proof.
  destruct (sync_file_cases filename t) as [->|[[e ->]|(c & d & _ & _ & ->)]];
    simpl; [by intros [= <-]|done|].
  unfold locale_loop. intros Hr.
  rewrite (for_each_total filename d (sorted (subdirs t)) O t n).
  - by destruct (for_each _ _ _ _) as [[t' o] r].
  - by destruct (for_each _ _ _ _) as [[t' o] r].
Qed.

Lemma returned_total_is_the_sum_of_the_counts_printed_witness :
  1%nat = added_total (sync_file Ex.common Ex.with_reference).1.2.
Proof.
  apply returned_total_is_the_sum_of_the_counts_printed.
  vm_compute. reflexivity.
Defined.

(** X17. After [sync_file] has returned, every file of that name under a
    listed directory that is not skipped, if it loads as an object, has
    every key of the reference. *)
Theorem after_sync_file_loadable_targets_lack_no_key
    (filename ref_content lang_code content : str) (R T : dict)
    (t : tree) (n : nat) :
  files t !! en_path filename = Some ref_content →
  json_loads ref_content = Some (JObj R) →
  (sync_file filename t).2 = Return n →
  lang_code ∈ subdirs t →
  skipped lang_code = false →
  files (sync_file filename t).1.1 !! (lang_code, filename) = Some content →
  json_loads content = Some (JObj T) →
  dict_keys R ⊆ dict_keys T.
Proof.
  intros Href Hload. rewrite (sync_file_loop _ _ _ Href _ Hload).
  unfold locale_loop.
  pose proof (for_each_after filename R (sorted (subdirs t)) O t) as Hafter.
  destruct (for_each _ _ _ _) as [[t' o] r]; simpl in *.
  intros -> Hin Hskip Hfile HT.
  rewrite Forall_forall in Hafter.
  destruct (Hafter lang_code) as [Hs|[Hnone|(c & Hc & [Hp|Hset])]].
  - by apply elem_of_sorted.
  - congruence.
  - congruence.
  - rewrite Hfile in Hc. injection Hc as <-. by destruct (Hp T).
  - rewrite Hfile in Hc. injection Hc as <-.
    destruct Hset as (T' & HT' & Hm). rewrite HT in HT'. injection HT' as <-.
    by apply missing_keys_nil_iff.
Qed.

Lemma after_sync_file_loadable_targets_lack_no_key_witness :
  dict_keys Ex.R ⊆ dict_keys (merged Ex.R Ex.T_fr).
Proof.
  apply (after_sync_file_loadable_targets_lack_no_key Ex.common Ex.reference
           (txt "fr") Ex.fr_four_spaces Ex.R (merged Ex.R Ex.T_fr)
           Ex.with_reference 1).
  - vm_compute. reflexivity.
  - vm_compute. reflexivity.
  - vm_compute. reflexivity.
  - apply (bool_decide_unpack _). vm_compute. exact I.
  - vm_compute. reflexivity.
  - vm_compute. reflexivity.
  - vm_compute. reflexivity.
Defined.

Lemma sync_lang_locales filename R total x t n :
  (sync_lang filename R total x t).2 = Return n →
  omap event_locale (sync_lang filename R total x t).1.2
  = if skipped x then [] else [x].
Proof.
  destruct (sync_lang_cases filename R total x t) as
    [Hs|Hs|c Hs|c v Hs|c T Hs|c T Hs|c T Hs]; simpl; rewrite Hs; done.
Qed.

Lemma for_each_locales filename R l acc t n :
  (for_each (sync_lang filename R) acc l t).2 = Return n →
  omap event_locale (for_each (sync_lang filename R) acc l t).1.2
  = List.filter (λ x, negb (skipped x)) l.
Proof.
  revert acc t. induction l as [|x l IH]; intros acc t; simpl; [done|].
  unfold bind. pose proof (sync_lang_locales filename R acc x t) as Hx.
  destruct (sync_lang filename R acc x t) as [[t1 o1] [a|e1]];
    simpl in *; [|done].
  specialize (IH a t1). specialize (Hx a eq_refl).
  destruct (for_each _ a l t1) as [[t2 o2] r]; simpl in *.
  intros Hr. rewrite omap_app, Hx, (IH Hr).
  by destruct (skipped x).
Qed.

(** X23. When the reference file exists and [sync_file] returns, the
    locales its report is about are the listed directories other than
    [en] and the hidden ones, in sorted order, one line each. *)
Theorem every_visited_locale_gets_one_line
    (filename : str) (t : tree) (n : nat) :
  is_Some (files t !! en_path filename) →
  (sync_file filename t).2 = Return n →
  omap event_locale (sync_file filename t).1.2
  = List.filter (λ l, negb (skipped l)) (sorted (subdirs t)).
Proof.
  intros [c Hc].
  destruct (json_loads c) as [v|] eqn:Hl.
  2: { by rewrite (sync_file_malformed_reference _ _ _ Hc Hl). }
  assert (Hv : (∃ d, v = JObj d) ∨ (∀ d, v ≠ JObj d)) by (destruct v; eauto).
  destruct Hv as [[d ->]|Hv].
  2: { by rewrite (sync_file_reference_not_object _ _ _ Hc _ Hl Hv). }
  rewrite (sync_file_loop _ _ _ Hc _ Hl). unfold locale_loop.
  pose proof (for_each_locales filename d (sorted (subdirs t)) O t n) as H.
  destruct (for_each _ _ _ _) as [[t' o] r]; simpl in *. done.
Qed.

Lemma every_visited_locale_gets_one_line_witness :
  omap event_locale (sync_file Ex.common Ex.with_reference).1.2
  = [txt "es"; txt "fr"; txt "it"].
Proof.
  rewrite (every_visited_locale_gets_one_line Ex.common Ex.with_reference 1).
  - vm_compute. reflexivity.
  - vm_compute. eauto.
  - vm_compute. reflexivity.
Defined.

(** X25. The step of a locale raises only if the locale is not skipped
    and its file exists and either does not load as an object, or lacks
    keys while the merged text cannot be encoded; and it does raise when
    the file is not JSON, and in the second case. *)
Theorem step_raises_only_on_a_bad_file
    (filename lang_code : str) (R : dict) (total : nat) (t : tree) :
  let unencodable content :=
    ∃ T, json_loads content = Some (JObj T)
         ∧ missing_keys R T ≠ []
         ∧ encodable (dump_text content (merged R T)) = false in
  (is_raise (sync_lang filename R total lang_code t).2 →
   skipped lang_code = false
   ∧ ∃ content,
       files t !! (lang_code, filename) = Some content
       ∧ (poisoned content ∨ unencodable content))
  ∧ (∀ content,
       skipped lang_code = false →
       files t !! (lang_code, filename) = Some content →
       json_loads content = None ∨ unencodable content →
       is_raise (sync_lang filename R total lang_code t).2).
Proof.
  simpl. split.
  - destruct (sync_lang_cases filename R total lang_code t) as
      [Hs|Hs Hn|c Hs Hc Hl|c v Hs Hc Hl Hv|c T Hs Hc Hl Hm|c T Hs Hc Hl Hm He
      |c T Hs Hc Hl Hm He]; simpl; try done; intros _; (split; [done|]);
      exists c; (split; [done|]).
    + left. by apply poisoned_None.
    + left. intros d Hd. rewrite Hl in Hd. injection Hd as ->. by destruct (Hv d).
    + right. by exists T.
  - intros c Hs Hc [Hl|(T & Hl & Hm & He)].
    + by rewrite (sync_lang_malformed _ _ _ _ _ Hs _ Hc Hl).
    + by rewrite (sync_lang_unencodable _ _ _ _ _ Hs _ Hc _ Hl Hm He).
Qed.

(** X26. When [sync_file] raises, the tree it leaves has a file of that
    name that does not load as an object: the reference, or the file of a
    listed directory that is not skipped. *)
Theorem an_exception_leaves_a_file_that_does_not_load
    (filename : str) (t : tree) :
  is_raise (sync_file filename t).2 →
  ∃ lang_code content,
    (lang_code = txt "en"
     ∨ (lang_code ∈ subdirs t ∧ skipped lang_code = false))
    ∧ files (sync_file filename t).1.1 !! (lang_code, filename) = Some content
    ∧ poisoned content.
Proof.
  destruct (files t !! en_path filename) as [c|] eqn:Hc.
  2: { by rewrite sync_file_no_reference. }
  destruct (json_loads c) as [v|] eqn:Hl.
  2: { rewrite (sync_file_malformed_reference _ _ _ Hc Hl). intros _.
       exists (txt "en"), c. split_and!; [by left|done|by apply poisoned_None]. }
  assert (Hv : (∃ d, v = JObj d) ∨ (∀ d, v ≠ JObj d)) by (destruct v; eauto).
  destruct Hv as [[d ->]|Hv].
  2: { rewrite (sync_file_reference_not_object _ _ _ Hc _ Hl Hv). intros _.
       exists (txt "en"), c. split_and!; [by left|done|].
       intros d Hd. rewrite Hl in Hd. injection Hd as ->. by destruct (Hv d). }
  rewrite (sync_file_loop _ _ _ Hc _ Hl). unfold locale_loop.
  pose proof (for_each_after filename d (sorted (subdirs t)) O t) as Hafter.
  destruct (for_each _ _ _ _) as [[t' o] [n|e]]; simpl in *; [done|].
  intros _. destruct Hafter as (before & x & after & Hl' & _ & Hs & content & Hf & Hp).
  exists x, content. split_and!; [right|done..]. split; [|done].
  apply elem_of_sorted. rewrite Hl'. apply elem_of_app. right. left.
Qed.

Lemma an_exception_leaves_a_file_that_does_not_load_witness :
  ∃ lang_code content,
    (lang_code = txt "en"
     ∨ (lang_code ∈ subdirs Ex.with_malformed ∧ skipped lang_code = false))
    ∧ files (sync_file Ex.common Ex.with_malformed).1.1 !! (lang_code, Ex.common)
      = Some content
    ∧ poisoned content.
Proof.
  apply an_exception_leaves_a_file_that_does_not_load.
  vm_compute. exact I.
Defined.

(** ** [main] *)

(** X18. When [main] returns, its report is the report of [common.json],
    then that of [settings.json], then the summary, whose two totals are
    the sums of the counts printed for each filename. *)
Theorem summary_reports_the_totals_of_both_files (t : tree) :
  (main t).2 = Return tt →
  let common := sync_file (txt "common.json") t in
  let settings := sync_file (txt "settings.json") common.1.1 in
  (main t).1.2
  = common.1.2 ++ settings.1.2
    ++ [Summary (added_total common.1.2) (added_total settings.1.2)].
Proof.
  simpl. unfold main, bind.
  pose proof (sync_file_total (txt "common.json") t) as H1.
  destruct (sync_file (txt "common.json") t) as [[t1 o1] [n1|e1]]; simpl in *;
    [|done].
  pose proof (sync_file_total (txt "settings.json") t1) as H2.
  destruct (sync_file (txt "settings.json") t1) as [[t2 o2] [n2|e2]];
    simpl in *; [|done].
  intros _. by rewrite <- (H1 n1 eq_refl), <- (H2 n2 eq_refl).
Qed.

Lemma summary_reports_the_totals_of_both_files_witness :
  last (main Ex.with_reference).1.2 = Some (Summary 1 0).
Proof.
  rewrite (summary_reports_the_totals_of_both_files Ex.with_reference).
  - vm_compute. reflexivity.
  - vm_compute. reflexivity.
Defined.

Lemma for_each_inv_elem {A B} (I : tree → Prop) (Q : event → Prop)
    (body : B → A → M B) (l : list A) :
  (∀ acc x t, x ∈ l → I t → I (body acc x t).1.1 ∧ Forall Q (body acc x t).1.2) →
  ∀ acc t, I t →
    I (for_each body acc l t).1.1 ∧ Forall Q (for_each body acc l t).1.2.
Proof.
  induction l as [|x l IH]; intros Hbody acc t Ht; simpl; [done|].
  unfold bind. destruct (Hbody acc x t) as [Ht1 Ho1]; [apply list_elem_of_here|done|].
  destruct (body acc x t) as [[t1 o1] [a|e]]; simpl in *; [|done].
  destruct (IH (λ acc x t Hx, Hbody acc x t (list_elem_of_further _ _ _ Hx))
               a t1 Ht1) as [Ht2 Ho2].
  destruct (for_each body a l t1) as [[t2 o2] r]; simpl in *.
  split; [done|]. by apply Forall_app.
Qed.

Lemma main_tree t :
  (main t).1.1 = (sync_file (txt "common.json") t).1.1
  ∨ (main t).1.1
    = (sync_file (txt "settings.json") (sync_file (txt "common.json") t).1.1).1.1.
Proof.
  unfold main, bind.
  destruct (sync_file (txt "common.json") t) as [[t1 o1] [n1|e1]]; simpl;
    [|by left].
  right. by destruct (sync_file (txt "settings.json") t1) as [[t2 o2] [n2|e2]].
Qed.

Lemma main_inv (I : tree → Prop) t :
  (∀ filename en_data acc l t0,
     filename = txt "common.json" ∨ filename = txt "settings.json" →
     I t0 → I (sync_lang filename en_data acc l t0).1.1) →
  I t → I (main t).1.1.
Proof.
  intros Hbody Ht.
  assert (H1 : I (sync_file (txt "common.json") t).1.1).
  { apply sync_file_inv; [|done]. intros. apply Hbody; auto. }
  destruct (main_tree t) as [->| ->]; [done|].
  apply sync_file_inv; [|done]. intros. apply Hbody; auto.
Qed.

Lemma sync_lang_keeps_files filename en_data total lang_code t p :
  is_Some (files (sync_lang filename en_data total lang_code t).1.1 !! p)
  ↔ is_Some (files t !! p).
Proof.
  destruct (sync_lang_cases filename en_data total lang_code t); simpl;
    try done;
    (destruct (decide (p = (lang_code, filename))) as [->|Hne];
       [rewrite lookup_insert_eq; split; eauto
       |by rewrite lookup_insert_ne]).
Qed.

(** X19. [main] neither creates nor removes a file, and leaves the
    directories as they are: a path has a file after the run exactly when
    it had one before. *)
Theorem main_neither_creates_nor_removes_a_file (t : tree) (p : str * str) :
  (is_Some (files (main t).1.1 !! p) ↔ is_Some (files t !! p))
  ∧ subdirs (main t).1.1 = subdirs t.
Proof.
  split.
  - apply (main_inv (λ t', is_Some (files t' !! p) ↔ is_Some (files t !! p)));
      [|done].
    intros filename en_data acc l t0 _ <-. apply sync_lang_keeps_files.
  - apply (main_inv (λ t', subdirs t' = subdirs t)); [|done].
    intros filename en_data acc l t0 _ <-. apply sync_lang_subdirs.
Qed.

Lemma sync_file_outside filename t p :
  p.2 ≠ filename ∨ p.1 ∉ subdirs t ∨ skipped p.1 = true →
  files (sync_file filename t).1.1 !! p = files t !! p.
Proof.
  intros Hp.
  destruct (sync_file_cases filename t) as [->|[[e ->]|(c & d & _ & _ & ->)]];
    [done..|].
  unfold locale_loop.
  destruct (for_each_inv_elem (λ t', files t' !! p = files t !! p) (λ _, True)
              (sync_lang filename d) (sorted (subdirs t))) with
    (acc := O) (t := t) as [H _].
  - intros acc l t0 Hl Ht0. split; [|by apply Forall_forall].
    rewrite <- Ht0. destruct (skipped l) eqn:Hs.
    { by rewrite sync_lang_skipped. }
    apply sync_lang_frame. intros ->. simpl in Hp.
    rewrite elem_of_sorted in Hl. destruct Hp as [?|[?|?]]; [congruence|done|congruence].
  - done.
  - by destruct (for_each _ _ _ _) as [[t' o] r].
Qed.

(** X20. [main] leaves every file as it is that is not
    [common.json] or [settings.json] under a listed directory other than
    [en] and the hidden ones. *)
Theorem main_writes_nothing_but_its_targets (t : tree) (p : str * str) :
  ¬ is_target t p → files (main t).1.1 !! p = files t !! p.
Proof.
  intros Hp.
  assert (Hout : ∀ filename t',
    filename = txt "common.json" ∨ filename = txt "settings.json" →
    subdirs t' = subdirs t →
    p.2 ≠ filename ∨ p.1 ∉ subdirs t' ∨ skipped p.1 = true).
  { intros filename t' Hf ->.
    destruct (decide (p.2 = filename)) as [Heq|]; [|by left]. right.
    destruct (decide (p.1 ∈ subdirs t)) as [Hin|]; [|by left]. right.
    destruct (skipped p.1) eqn:Hs; [done|].
    destruct Hp. split_and!; [|done..]. rewrite Heq. done. }
  destruct (main_tree t) as [->| ->].
  - apply sync_file_outside. apply Hout; auto.
  - rewrite sync_file_outside.
    + apply sync_file_outside. apply Hout; auto.
    + apply Hout; [auto|]. apply sync_file_subdirs.
Qed.

Lemma main_writes_nothing_but_its_targets_witness :
  files (main Ex.with_reference).1.1 !! (txt "en", Ex.common)
  = Some Ex.reference.
Proof.
  rewrite (main_writes_nothing_but_its_targets Ex.with_reference).
  - vm_compute. reflexivity.
  - intros (_ & _ & H). vm_compute in H. discriminate H.
Defined.

Lemma sync_lang_about_visited filename R total x t t0 :
  x ∈ subdirs t0 →
  Forall (about_visited t0) (sync_lang filename R total x t).1.2.
Proof.
  intros Hx.
  destruct (sync_lang_cases filename R total x t); simpl;
    repeat (apply Forall_cons_2; [by split|]); constructor.
Qed.

(** X24. Whether [sync_file] returns or raises, every line of its
    report that is about a locale is about a listed directory that is
    neither [en] nor hidden. *)
Theorem report_is_about_visited_locales_only (filename : str) (t : tree) :
  Forall (about_visited t) (sync_file filename t).1.2.
Proof.
  destruct (sync_file_cases filename t) as [->|[[e ->]|(c & d & _ & _ & ->)]];
    simpl; [by repeat constructor|constructor|].
  unfold locale_loop.
  destruct (for_each_inv_elem (λ _, True) (about_visited t)
              (sync_lang filename d) (sorted (subdirs t))) with
    (acc := O) (t := t) as [_ H]; [|done|].
  - intros acc x t0 Hx _. split; [done|].
    apply sync_lang_about_visited. by apply elem_of_sorted.
  - destruct (for_each _ _ _ _) as [[t' o] r]; simpl in *.
    by constructor.
Qed.

Lemma sync_lang_exn filename en_data total lang_code t e :
  (sync_lang filename en_data total lang_code t).2 = Raise e →
  e ≠ FileNotFoundError.
Proof.
  destruct (sync_lang_cases filename en_data total lang_code t); simpl; congruence.
Qed.

Lemma for_each_exn filename en_data l acc t e :
  (for_each (sync_lang filename en_data) acc l t).2 = Raise e →
  e ≠ FileNotFoundError.
Proof.
  revert acc t. induction l as [|x l IH]; intros acc t; simpl; [done|].
  unfold bind. pose proof (sync_lang_exn filename en_data acc x t) as Hx.
  destruct (sync_lang filename en_data acc x t) as [[t1 o1] [a|e1]]; simpl in *.
  - specialize (IH a t1).
    destruct (for_each _ a l t1) as [[t2 o2] r]; simpl in *. apply IH.
  - intros [= <-]. by apply Hx.
Qed.

Lemma sync_file_exn filename t e :
  (sync_file filename t).2 = Raise e → e ≠ FileNotFoundError.
Proof.
  destruct (files t !! en_path filename) as [c|] eqn:Hf.
  2: { by rewrite sync_file_no_reference. }
  destruct (json_loads c) as [v|] eqn:Hl.
  2: { erewrite sync_file_malformed_reference by done. simpl. congruence. }
  assert (Hv : (∃ d, v = JObj d) ∨ (∀ d, v ≠ JObj d)) by (destruct v; eauto).
  destruct Hv as [[d ->]|Hv].
  2: { erewrite sync_file_reference_not_object by done. simpl. congruence. }
  erewrite sync_file_loop by done. unfold locale_loop.
  pose proof (for_each_exn filename d (sorted (subdirs t)) O t e) as H.
  destruct (for_each _ _ _ _) as [[t' o] r]. exact H.
Qed.

(** X21. Neither [main] nor [sync_file] ends with [FileNotFoundError]:
    every file is tested for existence before it is opened. *)
Theorem main_never_fails_on_a_missing_file (t : tree) :
  (main t).2 ≠ Raise FileNotFoundError
  ∧ ∀ filename, (sync_file filename t).2 ≠ Raise FileNotFoundError.
Proof.
  assert (H : ∀ f t', (sync_file f t').2 ≠ Raise FileNotFoundError).
  { intros f t' Hr. by apply sync_file_exn in Hr. }
  split; [|intros f; apply H].
  unfold main, bind.
  pose proof (H (txt "common.json") t) as H1.
  destruct (sync_file (txt "common.json") t) as [[t1 o1] [n1|e1]]; simpl in *.
  2: { intros [= ->]. by apply H1. }
  pose proof (H (txt "settings.json") t1) as H2.
  destruct (sync_file (txt "settings.json") t1) as [[t2 o2] [n2|e2]];
    simpl in *; [done|].
  intros [= ->]. by apply H2.
Qed.

Lemma agree_on_with_file f t t' l c :
  agree_on f t t' → agree_on f (with_file t (l, f) c) (with_file t' (l, f) c).
Proof.
  intros [Hd Hf]. split; [done|]. intros l'. unfold with_file. simpl.
  destruct (decide (l' = l)) as [->|Hne].
  - by rewrite !lookup_insert_eq.
  - rewrite !lookup_insert_ne by congruence. apply Hf.
Qed.

Lemma sync_lang_agree f R total l t t' :
  agree_on f t t' →
  (sync_lang f R total l t').1.2 = (sync_lang f R total l t).1.2
  ∧ (sync_lang f R total l t').2 = (sync_lang f R total l t).2
  ∧ agree_on f (sync_lang f R total l t).1.1 (sync_lang f R total l t').1.1.
Proof.
  intros Ha. pose proof Ha as [Hd Hf].
  destruct (sync_lang_cases f R total l t) as
    [Hs|Hs Hn|c Hs Hc Hl|c v Hs Hc Hl Hv|c T Hs Hc Hl Hm|c T Hs Hc Hl Hm He
    |c T Hs Hc Hl Hm He]; try rewrite <- Hf in Hc.
  - by rewrite sync_lang_skipped.
  - rewrite <- Hf in Hn. by rewrite sync_lang_not_found.
  - by erewrite sync_lang_malformed.
  - by erewrite sync_lang_not_object.
  - by erewrite sync_lang_complete.
  - erewrite sync_lang_added by done. simpl.
    split_and!; [done..|]. by apply agree_on_with_file.
  - erewrite sync_lang_unencodable by done. simpl.
    split_and!; [done..|]. by apply agree_on_with_file.
Qed.

Lemma for_each_agree f R l acc t t' :
  agree_on f t t' →
  (for_each (sync_lang f R) acc l t').1.2 = (for_each (sync_lang f R) acc l t).1.2
  ∧ (for_each (sync_lang f R) acc l t').2 = (for_each (sync_lang f R) acc l t).2
  ∧ agree_on f (for_each (sync_lang f R) acc l t).1.1
               (for_each (sync_lang f R) acc l t').1.1.
Proof.
  revert acc t t'. induction l as [|x l IH]; intros acc t t' Ha; simpl; [done|].
  unfold bind. destruct (sync_lang_agree f R acc x t t' Ha) as (Ho & Hr & Ha1).
  destruct (sync_lang f R acc x t) as [[t1 o1] r1].
  destruct (sync_lang f R acc x t') as [[t1' o1'] r1']. simpl in *. subst.
  destruct r1 as [a|e]; [|done].
  destruct (IH a t1 t1' Ha1) as (Ho & Hr & Ha2).
  destruct (for_each _ a l t1) as [[t2 o2] r2].
  destruct (for_each _ a l t1') as [[t2' o2'] r2']. simpl in *. by subst.
Qed.

Lemma sync_file_agree f t t' :
  agree_on f t t' →
  (sync_file f t').1.2 = (sync_file f t).1.2
  ∧ (sync_file f t').2 = (sync_file f t).2
  ∧ agree_on f (sync_file f t).1.1 (sync_file f t').1.1.
Proof.
  intros Ha. pose proof Ha as [Hd Hf].
  destruct (files t !! en_path f) as [c|] eqn:Hc.
  2: { rewrite !sync_file_no_reference; [done|done|]. unfold en_path. by rewrite Hf. }
  assert (Hc' : files t' !! en_path f = Some c) by (unfold en_path; by rewrite Hf).
  destruct (json_loads c) as [v|] eqn:Hl.
  2: { by rewrite (sync_file_malformed_reference f t c Hc Hl),
               (sync_file_malformed_reference f t' c Hc' Hl). }
  assert (Hv : (∃ d, v = JObj d) ∨ (∀ d, v ≠ JObj d)) by (destruct v; eauto).
  destruct Hv as [[d ->]|Hv].
  2: { by rewrite (sync_file_reference_not_object f t c Hc v Hl Hv),
               (sync_file_reference_not_object f t' c Hc' v Hl Hv). }
  rewrite (sync_file_loop f t c Hc d Hl), (sync_file_loop f t' c Hc' d Hl).
  unfold locale_loop. rewrite Hd.
  destruct (for_each_agree f d (sorted (subdirs t)) O t t' Ha) as (Ho & Hr & Ha2).
  destruct (for_each _ _ _ t) as [[t2 o2] r2].
  destruct (for_each _ _ _ t') as [[t2' o2'] r2']. simpl in *. by subst.
Qed.

(** X22. The two filenames are synchronised independently: the pass
    over [settings.json] prints the same report, ends the same way and
    leaves the same [settings.json] files whether or not the pass over
    [common.json] has run before it. *)
Theorem the_two_filenames_are_synchronised_independently (t : tree) :
  let settings := txt "settings.json" in
  let after_common := (sync_file (txt "common.json") t).1.1 in
  (sync_file settings after_common).1.2 = (sync_file settings t).1.2
  ∧ (sync_file settings after_common).2 = (sync_file settings t).2
  ∧ ∀ lang_code,
      files (sync_file settings after_common).1.1 !! (lang_code, settings)
      = files (sync_file settings t).1.1 !! (lang_code, settings).
Proof.
  simpl.
  destruct (sync_file_agree (txt "settings.json") t
              (sync_file (txt "common.json") t).1.1) as (Ho & Hr & Ha).
  - split; [apply sync_file_subdirs|].
    intros l. apply sync_file_frame. simpl. intros E. by apply common_neq_settings.
  - split_and!; [done..|]. apply Ha.
Qed.

(** ** The display names *)

Lemma names_get_cases (d : list (str * str)) k default :
  (k ∉ fst <$> d) ∧ names_get d k default = default
  ∨ (k, names_get d k default) ∈ d.
Proof.
  induction d as [|[k' v] d IH]; simpl.
  - left. split; [apply not_elem_of_nil|done].
  - destruct (decide (k = k')) as [->|Hne]; [right; left|].
    destruct IH as [[Hk ->]|Hin]; [left|right; by right].
    split; [|done]. by apply not_elem_of_cons.
Qed.

(** X1. The table of display names has 21 distinct codes, and
    [get_lang_name] gives back the code itself exactly for the codes that
    are not in the table. *)
Theorem get_lang_name_falls_back_to_the_code (lang_code : str) :
  NoDup (fst <$> LANG_NAMES) ∧ length LANG_NAMES = 21%nat
  ∧ (get_lang_name lang_code = lang_code ↔ lang_code ∉ fst <$> LANG_NAMES).
Proof.
  split; [apply (bool_decide_unpack _); vm_compute; exact I|].
  split; [done|].
  assert (Hne : Forall (λ kv, kv.2 ≠ kv.1) LANG_NAMES).
  { apply (bool_decide_unpack _). vm_compute. exact I. }
  unfold get_lang_name.
  destruct (names_get_cases LANG_NAMES lang_code lang_code) as [[Hk ->]|Hin].
  - done.
  - split.
    + intros E. rewrite E in Hin. rewrite Forall_forall in Hne.
      by destruct (Hne _ Hin).
    + intros Hk. destruct Hk.
      apply list_elem_of_fmap. by eexists (_, _).
Qed.
